(** * Algoritmos: suspicious-activity detector and LRU cache

    A shallow embedding of the two programs of the repository,
    [detectarActividadSospechosa] (log analysis) and [LRUCache]
    (doubly linked list plus [Map]), together with the properties the
    design document states about them.

    Numbers.  The numbers of the language are binary64 floating-point
    values.  Timestamps, the window length and the failure limit are
    integers ([Z]) and counters are naturals; they stand for the doubles
    that hold them, and are compared as such.  Where the detector adds, subtracts,
    multiplies, divides or takes a root, the model computes the exact
    result on rationals and rounds it to the nearest double ([redondear]),
    with overflow to the infinities and with NaN ([jsnum]).  A response
    time or a rate limit is a rational, the exact value of the double the
    record or the policy holds.

    Maps.  A [Map] iterates in insertion order, and the order of the
    findings depends on it, so the aggregation tables are association
    lists kept in insertion order ([JsMap]).  The per-IP user-agent table is
    a plain object: its keys are listed with the array indices first, and a
    key can name a member inherited from [Object.prototype]; both are part
    of the model.  The [Map] of the cache is only queried by key and size
    and is a [gmap]. *)

From Stdlib Require Import ZArith QArith Lia.
From Stdlib Require Import Ascii String List Sorted Permutation.
From stdpp Require Import base option list gmap strings sorting fin_sets.

Close Scope Q_scope.
Open Scope string_scope.
Open Scope list_scope.
Open Scope nat_scope.

(* ================================================================= *)
(** * Part I: the programs *)

(** ** Results of a call *)

(** A call either returns or throws; [Thrown] carries the message of the
    error. *)
Inductive outcome (A : Type) : Type :=
  | Returned (a : A)
  | Thrown (msg : string).
Arguments Returned {A} a.
Arguments Thrown {A} msg.

(** ** Numbers *)

(** A number of the language is a binary64 floating-point value: a finite
    value, an infinity, or NaN.  [Finite q] stands for the double whose
    value is the rational [q].  The two zeros are not told apart; the only
    divisors of the programs that can be zero are [window_minutes] for a
    window of length [0], which is [+0], and array lengths. *)
Inductive jsnum : Type :=
  | Finite (q : Q)
  | PosInfinity
  | NegInfinity
  | NaN.

Definition Qlt_bool (a b : Q) : bool := negb (Qle_bool b a).

(** *** Rounding to the nearest double *)

(** The exponent [e] with [2 ^ e <= n / d < 2 ^ (e + 1)]. *)
Definition binada (n d : positive) : Z :=
  let k := (Z.log2 (Zpos n) - Z.log2 (Zpos d))%Z in
  if (Zpos n * 2 ^ Z.max 0 (- k) <? Zpos d * 2 ^ Z.max 0 k)%Z then (k - 1)%Z else k.

(** The integer nearest to [N / D], the even one of the two when [N / D]
    lies half way. *)
Definition redondeo_par (N D : Z) : Z :=
  let m := (N / D)%Z in
  let r := (N mod D)%Z in
  match (2 * r ?= D)%Z with
  | Lt => m
  | Gt => (m + 1)%Z
  | Eq => if Z.even m then m else (m + 1)%Z
  end.

(** [2 ^ p] for an integer [p] of either sign. *)
Definition dos_a (p : Z) : Q :=
  if (0 <=? p)%Z then inject_Z (2 ^ p) else 1 # Z.to_pos (2 ^ (- p)).

(** The double nearest to [n / d], or [None] when it is beyond the largest
    double.  A double has 53 significant bits, so the value is rounded to a
    multiple of [2 ^ (e - 52)]; below [2 ^ -1022] the spacing stays
    [2 ^ -1074] (subnormal numbers), and a value that rounds up to
    [2 ^ 1024] overflows. *)
Definition redondear_pos (n d : positive) : option Q :=
  let e := binada n d in
  if (1023 <? e)%Z then None
  else
    let p := (Z.max e (-1022) - 52)%Z in
    let m := redondeo_par (Zpos n * 2 ^ Z.max 0 (- p)) (Zpos d * 2 ^ Z.max 0 p) in
    if (p =? 971)%Z && (m =? 2 ^ 53)%Z then None
    else Some (Qred (inject_Z m * dos_a p)).

(** Round to nearest, ties to even: what every arithmetic operation of the
    language does with its exact result. *)
Definition redondear (q : Q) : jsnum :=
  match Qred q with
  | Qmake Z0 _ => Finite 0
  | Qmake (Zpos n) d =>
      match redondear_pos n d with Some r => Finite r | None => PosInfinity end
  | Qmake (Zneg n) d =>
      match redondear_pos n d with Some r => Finite (- r) | None => NegInfinity end
  end.

(** The double nearest to the square root of [n / d]: with [m0] the integer
    part of the root measured in units of [2 ^ p], the root is compared
    with [m0 + 1/2] through the squares. *)
Definition raiz_pos (n d : positive) : option Q :=
  let e := (binada n d / 2)%Z in
  if (1023 <? e)%Z then None
  else
    let p := (Z.max e (-1022) - 52)%Z in
    let N := (Zpos n * 2 ^ Z.max 0 (- (2 * p)))%Z in
    let D := (Zpos d * 2 ^ Z.max 0 (2 * p))%Z in
    let m0 := Z.sqrt (N / D) in
    let m :=
      match (4 * N ?= (2 * m0 + 1) * (2 * m0 + 1) * D)%Z with
      | Lt => m0
      | Gt => (m0 + 1)%Z
      | Eq => if Z.even m0 then m0 else (m0 + 1)%Z
      end in
    if (p =? 971)%Z && (m =? 2 ^ 53)%Z then None
    else Some (Qred (inject_Z m * dos_a p)).

(** *** Arithmetic and comparisons *)

(** An integer held by a number. *)
Definition num (z : Z) : jsnum := Finite (inject_Z z).

(** [x + y].  Adding zero changes nothing, whatever the other operand. *)
Definition js_add (x y : jsnum) : jsnum :=
  match x, y with
  | NaN, _ | _, NaN => NaN
  | PosInfinity, NegInfinity | NegInfinity, PosInfinity => NaN
  | PosInfinity, _ | _, PosInfinity => PosInfinity
  | NegInfinity, _ | _, NegInfinity => NegInfinity
  | Finite a, Finite b =>
      if Qeq_bool b 0 then Finite a
      else if Qeq_bool a 0 then Finite b
      else redondear (a + b)
  end.

Definition js_neg (x : jsnum) : jsnum :=
  match x with
  | Finite a => Finite (- a)
  | PosInfinity => NegInfinity
  | NegInfinity => PosInfinity
  | NaN => NaN
  end.

(** [x - y] *)
Definition js_sub (x y : jsnum) : jsnum := js_add x (js_neg y).

(** How a number that is not NaN compares with zero. *)
Definition signo (x : jsnum) : comparison :=
  match x with
  | Finite a => (a ?= 0)%Q
  | PosInfinity => Gt
  | NegInfinity => Lt
  | NaN => Eq
  end.

(** [x * y]; an infinity times zero is NaN. *)
Definition js_mul (x y : jsnum) : jsnum :=
  match x, y with
  | NaN, _ | _, NaN => NaN
  | Finite a, Finite b => redondear (a * b)
  | _, _ =>
      match signo x, signo y with
      | Eq, _ | _, Eq => NaN
      | Gt, Gt | Lt, Lt => PosInfinity
      | _, _ => NegInfinity
      end
  end.

(** [x / y].  A finite number over zero is an infinity of the sign of the
    dividend, and NaN for [0 / 0]. *)
Definition js_div (x y : jsnum) : jsnum :=
  match x, y with
  | NaN, _ | _, NaN => NaN
  | Finite a, Finite b =>
      if Qeq_bool b 0 then
        match (a ?= 0)%Q with
        | Gt => PosInfinity
        | Lt => NegInfinity
        | Eq => NaN
        end
      else redondear (a / b)
  | Finite _, _ => Finite 0
  | _, Finite b =>
      match signo x, (b ?= 0)%Q with
      | Gt, Lt | Lt, Gt | Lt, Eq => NegInfinity
      | _, _ => PosInfinity
      end
  | _, _ => NaN
  end.

(** [Math.sqrt(x)] *)
Definition js_sqrt (x : jsnum) : jsnum :=
  match x with
  | NaN => NaN
  | NegInfinity => NaN
  | PosInfinity => PosInfinity
  | Finite q =>
      match Qred q with
      | Qmake Z0 _ => Finite 0
      | Qmake (Zpos n) d =>
          match raiz_pos n d with Some r => Finite r | None => PosInfinity end
      | Qmake (Zneg _) _ => NaN
      end
  end.

(** [x < y], [x > y] and [x <= y]; every comparison with NaN is false. *)
Definition js_lt (x y : jsnum) : bool :=
  match x, y with
  | NaN, _ | _, NaN => false
  | _, NegInfinity => false
  | NegInfinity, _ => true
  | PosInfinity, _ => false
  | Finite _, PosInfinity => true
  | Finite a, Finite b => Qlt_bool a b
  end.

Definition js_gt (x y : jsnum) : bool := js_lt y x.

Definition js_le (x y : jsnum) : bool :=
  match x, y with
  | NaN, _ | _, NaN => false
  | NegInfinity, _ => true
  | _, PosInfinity => true
  | Finite a, Finite b => Qle_bool a b
  | _, _ => false
  end.

(** ** Insertion-ordered maps with string keys *)

Module JsMap.
Section ops.
Context {V : Type}.

Fixpoint get (k : string) (m : list (string * V)) : option V :=
  match m with
  | [] => None
  | (k', v) :: m' => if String.eqb k' k then Some v else get k m'
  end.

Definition has (k : string) (m : list (string * V)) : bool :=
  match get k m with Some _ => true | None => false end.

(** [m.set(k, v)]: an existing key keeps its position, a new key goes to
    the end. *)
Fixpoint set (k : string) (v : V) (m : list (string * V)) : list (string * V) :=
  match m with
  | [] => [(k, v)]
  | (k', v') :: m' =>
      if String.eqb k' k then (k', v) :: m' else (k', v') :: set k v m'
  end.

(** In-place mutation of the object stored under [k]
    ([m.get(k).field = ...]); nothing happens when [k] is absent. *)
Fixpoint update (k : string) (f : V -> V) (m : list (string * V)) : list (string * V) :=
  match m with
  | [] => []
  | (k', v) :: m' =>
      if String.eqb k' k then (k', f v) :: m' else (k', v) :: update k f m'
  end.

Definition keys (m : list (string * V)) : list string := List.map fst m.
Definition values (m : list (string * V)) : list V := List.map snd m.
End ops.
End JsMap.

Abbreviation JsMap V := (list (string * V)).

(** ** Plain objects used as counter tables *)

(** What a property of the user-agent table can hold: a count, or what the
    arithmetic of the language makes of a value that is not a number.
    [MenosInfinito] is only the value of [Math.max()] without arguments. *)
Inductive contador : Type :=
  | Cuenta (n : nat)
  | MenosInfinito
  | NoNumero.

(** The own properties of an object created by [{}], in creation order. *)
Abbreviation Objeto := (JsMap contador).

(** The members every plain object inherits from [Object.prototype]. *)
Definition heredadas : list string :=
  [ "constructor"; "hasOwnProperty"; "isPrototypeOf"; "propertyIsEnumerable";
    "toLocaleString"; "toString"; "valueOf"; "__proto__";
    "__defineGetter__"; "__defineSetter__"; "__lookupGetter__"; "__lookupSetter__" ].

Definition heredada (k : string) : bool := existsb (String.eqb k) heredadas.

(** The result of reading [o[k]]: an own property, an inherited member (a
    function, or the prototype itself for [__proto__]), or [undefined]. *)
Inductive valor : Type :=
  | Propio (c : contador)
  | Heredado
  | Indefinido.

Definition leer (k : string) (o : Objeto) : valor :=
  match JsMap.get k o with
  | Some c => Propio c
  | None => if heredada k then Heredado else Indefinido
  end.

(** [!v]: [0], NaN and [undefined] are falsy, functions and objects are
    not. *)
Definition falsy (v : valor) : bool :=
  match v with
  | Propio (Cuenta O) => true
  | Propio NoNumero => true
  | Propio _ => false
  | Heredado => false
  | Indefinido => true
  end.

(** The number a value converts to: a function, an object or [undefined]
    gives NaN. *)
Definition a_numero (v : valor) : contador :=
  match v with
  | Propio c => c
  | Heredado => NoNumero
  | Indefinido => NoNumero
  end.

(** [c + 1] *)
Definition sucesor (c : contador) : contador :=
  match c with
  | Cuenta n => Cuenta (S n)
  | MenosInfinito => MenosInfinito
  | NoNumero => NoNumero
  end.

(** [o[k] = c] for a number [c].  An own property is overwritten.  A new
    key becomes an own property at the end, also when it names an inherited
    function; [__proto__] is an accessor of the prototype whose setter
    ignores a number, so the object stays as it is. *)
Definition escribir (k : string) (c : contador) (o : Objeto) : Objeto :=
  if negb (JsMap.has k o) && String.eqb k "__proto__" then o
  else JsMap.set k c o.

(** A key that is an array index: the decimal numeral, without leading
    zeros, of an integer below [2 ^ 32 - 1]. *)
Definition digito (c : ascii) : option N :=
  let n := N_of_ascii c in
  if ((48 <=? n) && (n <=? 57))%N then Some (n - 48)%N else None.

Fixpoint decimal (s : string) (acc : N) : option N :=
  match s with
  | EmptyString => Some acc
  | String c s' =>
      match digito c with
      | Some d => decimal s' (10 * acc + d)%N
      | None => None
      end
  end.

Definition indice (k : string) : option N :=
  match k with
  | EmptyString => None
  | String c s' =>
      if Ascii.eqb c "0"%char && negb (String.eqb s' EmptyString) then None
      else
        match decimal k 0 with
        | Some n => if (n <? 4294967295)%N then Some n else None
        | None => None
        end
  end.

Definition es_indice (k : string) : bool :=
  match indice k with Some _ => true | None => false end.

Fixpoint insertar_indice (e : N * (string * contador))
    (l : list (N * (string * contador))) : list (N * (string * contador)) :=
  match l with
  | [] => [e]
  | e' :: l' =>
      if (fst e <? fst e')%N then e :: l else e' :: insertar_indice e l'
  end.

(** The own properties in the order the language enumerates them: the
    array indices in ascending numeric order, then the other keys in
    creation order. *)
Definition propiedades (o : Objeto) : list (string * contador) :=
  List.map snd
    (fold_right insertar_indice []
       (omap (fun e => match indice (fst e) with
                       | Some n => Some (n, e)
                       | None => None
                       end) o))
  ++ List.filter (fun e => negb (es_indice (fst e))) o.

(** [Object.keys(o)] and [Object.values(o)] *)
Definition Object_keys (o : Objeto) : list string := List.map fst (propiedades o).
Definition Object_values (o : Objeto) : list contador := List.map snd (propiedades o).

(** ** The detector: data *)

(** A log record.  [timestamp] is an integer number of milliseconds and
    [status] an integer; [response_time] is the value of the double the
    record holds. *)
Record LogRecord : Type := {
  ip : string;
  endpoint : string;
  timestamp : Z;
  status : Z;
  user_agent : string;
  response_time : Q
}.

(** The policy, with its four fields present.  [max_requests_per_minute]
    is the value of the double the policy holds. *)
Record Config : Type := {
  max_requests_per_minute : Q;
  max_failed_logins : Z;
  suspicious_endpoints : list string;
  time_window : Z
}.

(** Values of [requestsPorIP]: [{ timestamps, count }]. *)
Record RequestsEntry : Type := {
  req_timestamps : list Z;
  req_count : nat
}.

(** Values of [fallosLoginPorIP]: [{ count, timestamps }]. *)
Record FallosEntry : Type := {
  fallos_count : nat;
  fallos_timestamps : list Z
}.

(** Values of [accesosEndpointSensible]: [{ count, ips }]. *)
Record AccesosEntry : Type := {
  accesos_count : nat;
  accesos_ips : list string
}.

(** The five tables of step 2. *)
Record Tables : Type := {
  requestsPorIP : JsMap RequestsEntry;
  fallosLoginPorIP : JsMap FallosEntry;
  accesosEndpointSensible : JsMap AccesosEntry;
  userAgentsPorIP : JsMap Objeto;
  tiemposRespuestaPorIP : JsMap (list Q)
}.

(** Entries of [ips_sospechosas].  [requests_detectados] is the rate
    itself; the source stores its rendering with two decimals. *)
Record IpSospechosa : Type := {
  sospechosa_ip : string;
  razon : string;
  requests_detectados : jsnum;
  limite_permitido : Q;
  ventana_minutos : jsnum
}.

(** Entries of [ataques_fuerza_bruta].  The two attempt times are the
    timestamps the source renders as ISO dates ([toISOString] below says
    when the rendering throws); [None] stands for the [undefined] read
    from an empty array. *)
Record AtaqueFuerzaBruta : Type := {
  ataque_ip : string;
  tipo_ataque : string;
  intentos_fallidos : nat;
  ataque_limite_permitido : Z;
  timestamps_intentos : list Z;
  primera_tentativa : option Z;
  ultima_tentativa : option Z
}.

(** Entries of [endpoints_bajo_ataque]. *)
Record EndpointBajoAtaque : Type := {
  ataque_endpoint : string;
  total_accesos : nat;
  ips_unicas : nat;
  descripcion : string
}.

(** Entries of [anomalias_detectadas], told apart by [tipo_anomalia]; the
    fixed text of [detalle] is left out.  For irregular response times the
    model keeps the mean and the standard deviation themselves; the source
    stores their renderings with two decimals. *)
Inductive Anomalia : Type :=
  | MultiplesUserAgents
      (anomalia_ip : string)
      (cantidad_user_agents : nat)
      (user_agent_mas_comun : option string)
      (total_requests_desde_ip : contador)
  | TiemposIrregulares
      (anomalia_ip : string)
      (tiempo_promedio : jsnum)
      (desviacion_estandar : jsnum).

(** The returned object; while the function runs it is also the state the
    detection steps append to. *)
Record Reporte : Type := {
  ips_sospechosas : list IpSospechosa;
  ataques_fuerza_bruta : list AtaqueFuerzaBruta;
  endpoints_bajo_ataque : list EndpointBajoAtaque;
  anomalias_detectadas : list Anomalia;
  total_eventos_sospechosos : nat
}.

(** ** The detector: step 3, one pass over the logs *)

(** [config.suspicious_endpoints.includes(endpoint)] *)
Definition includes (l : list string) (s : string) : bool :=
  existsb (String.eqb s) l.

(** The counting of one user agent in the table of its IP (lines
    115-118): [if (!ua_map[ua]) ua_map[ua] = 0; ua_map[ua]++]. *)
Definition contar_agente (ua : string) (ua_map : Objeto) : Objeto :=
  let ua_map :=
    if falsy (leer ua ua_map) then escribir ua (Cuenta 0) ua_map else ua_map in
  escribir ua (sucesor (a_numero (leer ua ua_map))) ua_map.

(** The body of [logs.forEach] (source lines 58-129). *)
Definition procesar_log (config : Config) (t : Tables) (log : LogRecord) : Tables :=
  (* analysis 1: requests per IP *)
  let requests :=
    if negb (JsMap.has (ip log) (requestsPorIP t))
    then JsMap.set (ip log) {| req_timestamps := []; req_count := 0 |} (requestsPorIP t)
    else requestsPorIP t in
  let requests :=
    JsMap.update (ip log)
      (fun d => {| req_timestamps := req_timestamps d ++ [timestamp log];
                   req_count := req_count d |}) requests in
  let requests :=
    JsMap.update (ip log)
      (fun d => {| req_timestamps := req_timestamps d;
                   req_count := S (req_count d) |}) requests in
  (* analysis 2: failed logins (status 401 or 403) *)
  let fallos :=
    if includes (suspicious_endpoints config) (endpoint log)
       && ((status log =? 401)%Z || (status log =? 403)%Z)
    then
      let fallos :=
        if negb (JsMap.has (ip log) (fallosLoginPorIP t))
        then JsMap.set (ip log) {| fallos_count := 0; fallos_timestamps := [] |}
               (fallosLoginPorIP t)
        else fallosLoginPorIP t in
      let fallos :=
        JsMap.update (ip log)
          (fun d => {| fallos_count := S (fallos_count d);
                       fallos_timestamps := fallos_timestamps d |}) fallos in
      JsMap.update (ip log)
        (fun d => {| fallos_count := fallos_count d;
                     fallos_timestamps := fallos_timestamps d ++ [timestamp log] |}) fallos
    else fallosLoginPorIP t in
  (* analysis 3: accesses to sensitive endpoints *)
  let accesos :=
    if includes (suspicious_endpoints config) (endpoint log)
    then
      let accesos :=
        if negb (JsMap.has (endpoint log) (accesosEndpointSensible t))
        then JsMap.set (endpoint log) {| accesos_count := 0; accesos_ips := [] |}
               (accesosEndpointSensible t)
        else accesosEndpointSensible t in
      let accesos :=
        JsMap.update (endpoint log)
          (fun d => {| accesos_count := S (accesos_count d);
                       accesos_ips := accesos_ips d |}) accesos in
      JsMap.update (endpoint log)
        (fun d => {| accesos_count := accesos_count d;
                     accesos_ips := accesos_ips d ++ [ip log] |}) accesos
    else accesosEndpointSensible t in
  (* analysis 4: user agents per IP *)
  let agentes :=
    if negb (JsMap.has (ip log) (userAgentsPorIP t))
    then JsMap.set (ip log) [] (userAgentsPorIP t)
    else userAgentsPorIP t in
  let agentes :=
    JsMap.update (ip log) (contar_agente (user_agent log)) agentes in
  (* analysis 5: response times per IP *)
  let tiempos :=
    if negb (JsMap.has (ip log) (tiemposRespuestaPorIP t))
    then JsMap.set (ip log) [] (tiemposRespuestaPorIP t)
    else tiemposRespuestaPorIP t in
  let tiempos :=
    JsMap.update (ip log) (fun l => l ++ [response_time log]) tiempos in
  {| requestsPorIP := requests;
     fallosLoginPorIP := fallos;
     accesosEndpointSensible := accesos;
     userAgentsPorIP := agentes;
     tiemposRespuestaPorIP := tiempos |}.

Definition tablas_vacias : Tables :=
  {| requestsPorIP := [];
     fallosLoginPorIP := [];
     accesosEndpointSensible := [];
     userAgentsPorIP := [];
     tiemposRespuestaPorIP := [] |}.

Definition agregar (config : Config) (logs : list LogRecord) : Tables :=
  fold_left (procesar_log config) logs tablas_vacias.

(** ** The detector: step 4, requests per minute *)

(** [timestamps.sort((a, b) => a - b)]: ascending numeric order; the
    difference of two timestamps has the sign of their comparison also
    after rounding. *)
Definition sort_asc (l : list Z) : list Z := merge_sort Z.le l.

(** The inner loop (lines 156-165) started at the head of [l]: it counts
    the leading timestamps that are at most [window_end] and stops at the
    first one beyond. *)
Fixpoint requests_in_window (window_end : jsnum) (l : list Z) : nat :=
  match l with
  | [] => 0
  | t :: l' =>
      if js_le (num t) window_end then S (requests_in_window window_end l') else 0
  end.

(** [config.time_window / 60000] *)
Definition window_minutes (config : Config) : jsnum :=
  js_div (num (time_window config)) (num 60000).

(** [requests_per_minute] of the window that starts at the head of
    [suffix], where [suffix] is [timestamps] from index [i] on. *)
Definition requests_per_minute (config : Config) (suffix : list Z) : jsnum :=
  match suffix with
  | [] => NaN
  | current_time :: _ =>
      let window_end := js_add (num current_time) (num (time_window config)) in
      js_div (num (Z.of_nat (requests_in_window window_end suffix)))
             (window_minutes config)
  end.

(** The outer loop (lines 147-189) from index [i] on; it leaves at the
    first window over the limit and yields its rate. *)
Fixpoint primera_violacion (config : Config) (suffix : list Z) : option jsnum :=
  match suffix with
  | [] => None
  | _ :: rest =>
      let rpm := requests_per_minute config suffix in
      if js_gt rpm (Finite (max_requests_per_minute config)) then Some rpm
      else primera_violacion config rest
  end.

(** [ips_sospechosas.find(item => item.ip === ip)] as a truth value. *)
Definition ya_registrada (ip0 : string) (l : list IpSospechosa) : bool :=
  existsb (fun item => String.eqb (sospechosa_ip item) ip0) l.

(** The callback of [requestsPorIP.forEach] (lines 136-190). *)
Definition paso4 (config : Config) (r : Reporte) (e : string * RequestsEntry) : Reporte :=
  let ip0 := fst e in
  let timestamps := sort_asc (req_timestamps (snd e)) in
  match primera_violacion config timestamps with
  | Some rpm =>
      if negb (ya_registrada ip0 (ips_sospechosas r)) then
        {| ips_sospechosas :=
             ips_sospechosas r ++
               [{| sospechosa_ip := ip0;
                   razon := "Exceso de requests por minuto";
                   requests_detectados := rpm;
                   limite_permitido := max_requests_per_minute config;
                   ventana_minutos := window_minutes config |}];
           ataques_fuerza_bruta := ataques_fuerza_bruta r;
           endpoints_bajo_ataque := endpoints_bajo_ataque r;
           anomalias_detectadas := anomalias_detectadas r;
           total_eventos_sospechosos := S (total_eventos_sospechosos r) |}
      else r
  | None => r
  end.

(** ** The detector: step 5, brute force *)

(** [timestamps[0]] and [timestamps[timestamps.length - 1]]. *)
Definition primero (l : list Z) : option Z := List.nth_error l 0.
Definition ultimo (l : list Z) : option Z := List.nth_error l (length l - 1).

(** The callback of [fallosLoginPorIP.forEach] (lines 197-215), for dates
    that render; [paso5_fechas] below adds the rendering and its error. *)
Definition paso5 (config : Config) (r : Reporte) (e : string * FallosEntry) : Reporte :=
  let ip0 := fst e in
  let count := fallos_count (snd e) in
  let timestamps := fallos_timestamps (snd e) in
  if (Z.of_nat count >? max_failed_logins config)%Z then
    {| ips_sospechosas := ips_sospechosas r;
       ataques_fuerza_bruta :=
         ataques_fuerza_bruta r ++
           [{| ataque_ip := ip0;
               tipo_ataque := "Fuerza Bruta en Login";
               intentos_fallidos := count;
               ataque_limite_permitido := max_failed_logins config;
               timestamps_intentos := timestamps;
               primera_tentativa := primero timestamps;
               ultima_tentativa := ultimo timestamps |}];
       endpoints_bajo_ataque := endpoints_bajo_ataque r;
       anomalias_detectadas := anomalias_detectadas r;
       total_eventos_sospechosos := S (total_eventos_sospechosos r) |}
  else r.

(** [new Date(t).toISOString()].  A date holds a time of at most
    8.64e15 ms from the epoch on either side; beyond it, and for
    [undefined], the date is invalid and [toISOString] throws a
    [RangeError].  The rendering itself is left out: the result stands for
    the text of the date of [t]. *)
Definition fecha_maxima : Z := 8640000000000000.

Definition fecha_valida (t : Z) : bool := (Z.abs t <=? fecha_maxima)%Z.

Definition toISOString (t : option Z) : outcome Z :=
  match t with
  | Some t => if fecha_valida t then Returned t else Thrown "Invalid time value"
  | None => Thrown "Invalid time value"
  end.

(** The callback with its error: the finding is pushed after both dates
    have rendered, the first attempt before the last; an error leaves the
    loop and the function. *)
Definition paso5_fechas (config : Config) (r : outcome Reporte)
    (e : string * FallosEntry) : outcome Reporte :=
  match r with
  | Thrown msg => Thrown msg
  | Returned r =>
      if (Z.of_nat (fallos_count (snd e)) >? max_failed_logins config)%Z then
        match toISOString (primero (fallos_timestamps (snd e))) with
        | Thrown msg => Thrown msg
        | Returned _ =>
            match toISOString (ultimo (fallos_timestamps (snd e))) with
            | Thrown msg => Thrown msg
            | Returned _ => Returned (paso5 config r e)
            end
        end
      else Returned r
  end.

(** ** The detector: step 6, mass access to an endpoint *)

(** [new Set(ips).size] *)
Definition set_size (ips : list string) : nat :=
  size (list_to_set ips : gset string).

Definition umbral_ips : nat := 10.

(** The callback of [accesosEndpointSensible.forEach] (lines 222-242). *)
Definition paso6 (r : Reporte) (e : string * AccesosEntry) : Reporte :=
  let endpoint0 := fst e in
  let count := accesos_count (snd e) in
  let unique_ips := set_size (accesos_ips (snd e)) in
  if umbral_ips <? unique_ips then
    {| ips_sospechosas := ips_sospechosas r;
       ataques_fuerza_bruta := ataques_fuerza_bruta r;
       endpoints_bajo_ataque :=
         endpoints_bajo_ataque r ++
           [{| ataque_endpoint := endpoint0;
               total_accesos := count;
               ips_unicas := unique_ips;
               descripcion := "Acceso masivo desde múltiples IPs" |}];
       anomalias_detectadas := anomalias_detectadas r;
       total_eventos_sospechosos := S (total_eventos_sospechosos r) |}
  else r.

(** ** The detector: step 7, many user agents *)

(** [a + b] on the values of the table. *)
Definition suma_contador (a b : contador) : contador :=
  match a, b with
  | NoNumero, _ | _, NoNumero => NoNumero
  | MenosInfinito, _ | _, MenosInfinito => MenosInfinito
  | Cuenta n, Cuenta m => Cuenta (n + m)
  end.

(** [frecuencias.reduce((a, b) => a + b, 0)] *)
Definition suma_frecuencias (frecuencias : list contador) : contador :=
  fold_left suma_contador frecuencias (Cuenta 0).

(** [Math.max(...frecuencias)]: NaN as soon as one argument is NaN. *)
Definition max_contador (a b : contador) : contador :=
  match a, b with
  | NoNumero, _ | _, NoNumero => NoNumero
  | MenosInfinito, c | c, MenosInfinito => c
  | Cuenta n, Cuenta m => Cuenta (Nat.max n m)
  end.

Definition Math_max (frecuencias : list contador) : contador :=
  fold_left max_contador frecuencias MenosInfinito.

(** [a === b] on numbers: NaN equals nothing. *)
Definition igual_estricto (a b : contador) : bool :=
  match a, b with
  | Cuenta n, Cuenta m => n =? m
  | MenosInfinito, MenosInfinito => true
  | _, _ => false
  end.

(** [frecuencias.indexOf(x)]: the first index holding [x], or [-1]. *)
Fixpoint indexOf (l : list contador) (x : contador) : Z :=
  match l with
  | [] => (-1)%Z
  | y :: l' =>
      if igual_estricto y x then 0%Z
      else let r := indexOf l' x in if (r <? 0)%Z then (-1)%Z else (r + 1)%Z
  end.

(** [a[i]]: [undefined] ([None]) outside the array. *)
Definition elemento {A : Type} (a : list A) (i : Z) : option A :=
  if (i <? 0)%Z then None else List.nth_error a (Z.to_nat i).

(** The callback of [userAgentsPorIP.forEach] (lines 249-277). *)
Definition paso7 (r : Reporte) (e : string * Objeto) : Reporte :=
  let ip0 := fst e in
  let user_agents := Object_keys (snd e) in
  let frecuencias := Object_values (snd e) in
  if 5 <? length user_agents then
    let total_requests := suma_frecuencias frecuencias in
    let user_agent_mas_comun :=
      elemento user_agents (indexOf frecuencias (Math_max frecuencias)) in
    {| ips_sospechosas := ips_sospechosas r;
       ataques_fuerza_bruta := ataques_fuerza_bruta r;
       endpoints_bajo_ataque := endpoints_bajo_ataque r;
       anomalias_detectadas :=
         anomalias_detectadas r ++
           [MultiplesUserAgents ip0 (length user_agents) user_agent_mas_comun
              total_requests];
       total_eventos_sospechosos := S (total_eventos_sospechosos r) |}
  else r.

(** ** The detector: step 8, irregular response times *)

(** [tiempos.length] as a number. *)
Definition longitud (tiempos : list Q) : jsnum := num (Z.of_nat (length tiempos)).

(** [tiempos.reduce((a, b) => a + b, 0) / tiempos.length] *)
Definition promedio (tiempos : list Q) : jsnum :=
  js_div (fold_left (fun a b => js_add a (Finite b)) tiempos (Finite 0))
         (longitud tiempos).

(** [Math.pow(x, 2)]: for the exponent [2] the result is the product
    [x * x]. *)
Definition Math_pow_2 (x : jsnum) : jsnum := js_mul x x.

(** [tiempos.reduce((sum, t) => sum + Math.pow(t - promedio, 2), 0)
     / tiempos.length] *)
Definition varianza (tiempos : list Q) : jsnum :=
  js_div
    (fold_left
       (fun sum t => js_add sum (Math_pow_2 (js_sub (Finite t) (promedio tiempos))))
       tiempos (Finite 0))
    (longitud tiempos).

(** [Math.sqrt(varianza)] *)
Definition desv_estandar (tiempos : list Q) : jsnum := js_sqrt (varianza tiempos).

(** [desv_estandar > promedio * 1.5] *)
Definition tiempos_irregulares (tiempos : list Q) : bool :=
  js_gt (desv_estandar tiempos) (js_mul (promedio tiempos) (Finite (3 # 2))).

(** The callback of [tiemposRespuestaPorIP.forEach] (lines 284-306). *)
Definition paso8 (r : Reporte) (e : string * list Q) : Reporte :=
  let ip0 := fst e in
  let tiempos := snd e in
  if tiempos_irregulares tiempos then
    {| ips_sospechosas := ips_sospechosas r;
       ataques_fuerza_bruta := ataques_fuerza_bruta r;
       endpoints_bajo_ataque := endpoints_bajo_ataque r;
       anomalias_detectadas :=
         anomalias_detectadas r ++
           [TiemposIrregulares ip0 (promedio tiempos) (desv_estandar tiempos)];
       total_eventos_sospechosos := S (total_eventos_sospechosos r) |}
  else r.

(** ** The detector: the whole function *)

Definition reporte_vacio : Reporte :=
  {| ips_sospechosas := [];
     ataques_fuerza_bruta := [];
     endpoints_bajo_ataque := [];
     anomalias_detectadas := [];
     total_eventos_sospechosos := 0 |}.

(** The object the function returns, when it returns. *)
Definition detectarActividadSospechosa
    (logs : list LogRecord) (config : Config) : Reporte :=
  let t := agregar config logs in
  let r := fold_left (paso4 config) (requestsPorIP t) reporte_vacio in
  let r := fold_left (paso5 config) (fallosLoginPorIP t) r in
  let r := fold_left paso6 (accesosEndpointSensible t) r in
  let r := fold_left paso7 (userAgentsPorIP t) r in
  let r := fold_left paso8 (tiemposRespuestaPorIP t) r in
  r.

(** The call as its caller sees it.  The function has no [throw] of its
    own and checks nothing about [config]; with a fully populated policy
    the one error it can raise is the [RangeError] of a brute-force finding
    whose attempt time is not a valid date. *)
Definition detect (logs : list LogRecord) (config : Config) : outcome Reporte :=
  let t := agregar config logs in
  let r := fold_left (paso4 config) (requestsPorIP t) reporte_vacio in
  match fold_left (paso5_fechas config) (fallosLoginPorIP t) (Returned r) with
  | Thrown msg => Thrown msg
  | Returned r =>
      let r := fold_left paso6 (accesosEndpointSensible t) r in
      let r := fold_left paso7 (userAgentsPorIP t) r in
      let r := fold_left paso8 (tiemposRespuestaPorIP t) r in
      Returned r
  end.

(** ** The LRU cache *)

Module LRU.

(** A [Node] object: [prev] and [next] hold [null] ([None]) or the address
    of a node in the store. *)
Record Node : Type := {
  key : string;
  value : Z;
  prev : option nat;
  next : option nat
}.

(** An [LRUCache] object together with the store of the nodes it has
    allocated: a node lives at the index where [new Node] put it and
    is never moved, so an index is a reference. *)
Record LRUCache : Type := {
  capacity : Z;
  cache : gmap string nat;
  head : nat;
  tail : nat;
  nodes : list Node
}.

Definition with_nodes (c : LRUCache) (h : list Node) : LRUCache :=
  {| capacity := capacity c; cache := cache c; head := head c; tail := tail c;
     nodes := h |}.

Definition with_cache (c : LRUCache) (m : gmap string nat) : LRUCache :=
  {| capacity := capacity c; cache := m; head := head c; tail := tail c;
     nodes := nodes c |}.

(** Reading [r.field]: a [TypeError] ([None]) when [r] is [null]. *)
Definition read (c : LRUCache) (r : option nat) : option Node :=
  a ← r; nodes c !! a.

(** [r.prev = v], [r.next = v] and [r.value = v]. *)
Definition write_prev (r : option nat) (v : option nat) (c : LRUCache) : option LRUCache :=
  a ← r; nd ← nodes c !! a;
  Some (with_nodes c
          (<[a := {| key := key nd; value := value nd; prev := v; next := next nd |}]>
             (nodes c))).

Definition write_next (r : option nat) (v : option nat) (c : LRUCache) : option LRUCache :=
  a ← r; nd ← nodes c !! a;
  Some (with_nodes c
          (<[a := {| key := key nd; value := value nd; prev := prev nd; next := v |}]>
             (nodes c))).

Definition write_value (r : option nat) (v : Z) (c : LRUCache) : option LRUCache :=
  a ← r; nd ← nodes c !! a;
  Some (with_nodes c
          (<[a := {| key := key nd; value := v; prev := prev nd; next := next nd |}]>
             (nodes c))).

(** [new LRUCache(capacity)] (lines 32-54).  The sentinels are the first
    two nodes of the store; their key is never read. *)
Definition constructor (capacity0 : Z) : outcome LRUCache :=
  if (capacity0 <=? 0)%Z then Thrown "Capacity debe ser mayor a 0"
  else
    Returned
      {| capacity := capacity0;
         cache := ∅;
         head := 0;
         tail := 1;
         nodes := [ {| key := "0"; value := 0; prev := None; next := Some 1 |};
                    {| key := "0"; value := 0; prev := Some 0; next := None |} ] |}.

(** [_removeNode(node)] (lines 146-157) *)
Definition _removeNode (c : LRUCache) (node : option nat) : option LRUCache :=
  nd ← read c node;
  let prev0 := prev nd in
  let next0 := next nd in
  c ← write_next prev0 next0 c;
  write_prev next0 prev0 c.

(** [_addToEnd(node)] (lines 164-177) *)
Definition _addToEnd (c : LRUCache) (node : option nat) : option LRUCache :=
  t ← read c (Some (tail c));
  c ← write_prev node (prev t) c;
  c ← write_next node (Some (tail c)) c;
  t ← read c (Some (tail c));
  c ← write_next (prev t) node c;
  write_prev (Some (tail c)) node c.

(** [_moveToEnd(node)] (lines 133-139) *)
Definition _moveToEnd (c : LRUCache) (node : option nat) : option LRUCache :=
  c ← _removeNode c node;
  _addToEnd c node.

(** [get(key)] (lines 62-77): the returned value and the cache after the
    call. *)
Definition get (c : LRUCache) (key0 : string) : option (Z * LRUCache) :=
  match cache c !! key0 with
  | None => Some ((-1)%Z, c)
  | Some n =>
      let node := Some n in
      c ← _moveToEnd c node;
      nd ← read c node;
      Some (value nd, c)
  end.

(** [put(key, value)] (lines 86-126) *)
Definition put (c : LRUCache) (key0 : string) (value0 : Z) : option LRUCache :=
  match cache c !! key0 with
  | Some n =>
      let node := Some n in
      c ← write_value node value0 c;
      _moveToEnd c node
  | None =>
      c ← (if (Z.of_nat (size (cache c)) >=? capacity c)%Z then
             h ← read c (Some (head c));
             let lruNode := next h in
             c ← _removeNode c lruNode;
             l ← read c lruNode;
             Some (with_cache c (delete (key l) (cache c)))
           else Some c);
      let newNode := length (nodes c) in
      let c :=
        with_nodes c
          (nodes c ++ [ {| key := key0; value := value0; prev := None; next := None |} ]) in
      let c := with_cache c (<[key0 := newNode]> (cache c)) in
      _addToEnd c (Some newNode)
  end.

(** [size()] *)
Definition size_ (c : LRUCache) : nat := size (cache c).

(** The loop of [keys()] (lines 200-206), bounded by [fuel] rounds. *)
Fixpoint keys_loop (fuel : nat) (c : LRUCache) (current : option nat) : option (list string) :=
  match fuel with
  | O => None
  | S fuel' =>
      if decide (current = Some (tail c)) then Some []
      else
        nd ← read c current;
        rest ← keys_loop fuel' c (next nd);
        Some (key nd :: rest)
  end.

(** [keys()]: the list cannot be longer than the store, which bounds the
    loop. *)
Definition keys (c : LRUCache) : option (list string) :=
  h ← read c (Some (head c));
  keys_loop (S (length (nodes c))) c (next h).

(** Calls on a cache, for sequences of operations. *)
Inductive op : Type :=
  | Get (key0 : string)
  | Put (key0 : string) (value0 : Z).

Definition op_key (o : op) : string :=
  match o with Get k => k | Put k _ => k end.

Definition step (c : LRUCache) (o : op) : option LRUCache :=
  match o with
  | Get k => snd <$> get c k
  | Put k v => put c k v
  end.

Definition run (ops : list op) (c : LRUCache) : option LRUCache :=
  foldl (fun oc o => c ← oc; step c o) (Some c) ops.

End LRU.

(* ================================================================= *)
(** * Part II: vocabulary of the properties *)

(** ** Aggregation seen per key *)

(** The pattern every table of step 3 follows: create the entry for [k]
    when it is missing, then mutate it. *)
Definition upsert {V : Type} (k : string) (init : V) (f : V -> V)
    (m : JsMap V) : JsMap V :=
  JsMap.update k f (if negb (JsMap.has k m) then JsMap.set k init m else m).

(** One table built by a pass over the logs: the records selected by
    [cond] are folded into the entry of their key [clave]. *)
Definition tabla {V : Type} (cond : LogRecord -> bool) (clave : LogRecord -> string)
    (init : V) (f : LogRecord -> V -> V) (logs : list LogRecord) : JsMap V :=
  fold_left
    (fun m log => if cond log then upsert (clave log) init (f log) m else m)
    logs [].

(** The records of a batch with a given IP, or a given endpoint, in
    arrival order. *)
Definition logs_de_ip (ip0 : string) (logs : list LogRecord) : list LogRecord :=
  List.filter (fun log => String.eqb (ip log) ip0) logs.

Definition logs_de_endpoint (e : string) (logs : list LogRecord) : list LogRecord :=
  List.filter (fun log => String.eqb (endpoint log) e) logs.

(** A failed login: 401 or 403 on a suspicious endpoint. *)
Definition es_fallo (config : Config) (log : LogRecord) : bool :=
  includes (suspicious_endpoints config) (endpoint log)
  && ((status log =? 401)%Z || (status log =? 403)%Z).

(** The distinct elements of a list in order of first appearance, and
    their number. *)
Definition primeras_apariciones (l : list string) : list string :=
  reverse (remove_dups (reverse l)).

Definition distintos (l : list string) : nat := length (remove_dups l).

(** Occurrences of [a] in [l]. *)
Definition apariciones (l : list string) (a : string) : nat :=
  length (List.filter (String.eqb a) l).

(** ** What each detection step appends for one table entry *)

Definition hallazgo4 (config : Config) (e : string * RequestsEntry) : list IpSospechosa :=
  match primera_violacion config (sort_asc (req_timestamps (snd e))) with
  | Some rpm =>
      [{| sospechosa_ip := fst e;
          razon := "Exceso de requests por minuto";
          requests_detectados := rpm;
          limite_permitido := max_requests_per_minute config;
          ventana_minutos := window_minutes config |}]
  | None => []
  end.

Definition hallazgo5 (config : Config) (e : string * FallosEntry) : list AtaqueFuerzaBruta :=
  if (Z.of_nat (fallos_count (snd e)) >? max_failed_logins config)%Z then
    [{| ataque_ip := fst e;
        tipo_ataque := "Fuerza Bruta en Login";
        intentos_fallidos := fallos_count (snd e);
        ataque_limite_permitido := max_failed_logins config;
        timestamps_intentos := fallos_timestamps (snd e);
        primera_tentativa := primero (fallos_timestamps (snd e));
        ultima_tentativa := ultimo (fallos_timestamps (snd e)) |}]
  else [].

Definition hallazgo6 (e : string * AccesosEntry) : list EndpointBajoAtaque :=
  if umbral_ips <? set_size (accesos_ips (snd e)) then
    [{| ataque_endpoint := fst e;
        total_accesos := accesos_count (snd e);
        ips_unicas := set_size (accesos_ips (snd e));
        descripcion := "Acceso masivo desde múltiples IPs" |}]
  else [].

Definition hallazgo7 (e : string * Objeto) : list Anomalia :=
  if 5 <? length (Object_keys (snd e)) then
    [MultiplesUserAgents (fst e) (length (Object_keys (snd e)))
       (elemento (Object_keys (snd e))
          (indexOf (Object_values (snd e)) (Math_max (Object_values (snd e)))))
       (suma_frecuencias (Object_values (snd e)))]
  else [].

Definition hallazgo8 (e : string * list Q) : list Anomalia :=
  if tiempos_irregulares (snd e) then
    [TiemposIrregulares (fst e) (promedio (snd e)) (desv_estandar (snd e))]
  else [].

(** The IP of an anomaly, and its two kinds. *)
Definition anomalia_ip (a : Anomalia) : string :=
  match a with
  | MultiplesUserAgents i _ _ _ => i
  | TiemposIrregulares i _ _ => i
  end.

Definition es_multiples_user_agents (a : Anomalia) : bool :=
  match a with MultiplesUserAgents _ _ _ _ => true | _ => false end.

Definition es_tiempos_irregulares (a : Anomalia) : bool :=
  match a with TiemposIrregulares _ _ _ => true | _ => false end.

(** ** The findings of a report about one IP or one endpoint *)

Definition sospechas_de (ip0 : string) (r : Reporte) : list IpSospechosa :=
  List.filter (fun f => String.eqb (sospechosa_ip f) ip0) (ips_sospechosas r).

Definition ataques_de (ip0 : string) (r : Reporte) : list AtaqueFuerzaBruta :=
  List.filter (fun f => String.eqb (ataque_ip f) ip0) (ataques_fuerza_bruta r).

Definition accesos_masivos_de (e : string) (r : Reporte) : list EndpointBajoAtaque :=
  List.filter (fun f => String.eqb (ataque_endpoint f) e) (endpoints_bajo_ataque r).

Definition multiples_agentes_de (ip0 : string) (r : Reporte) : list Anomalia :=
  List.filter (fun a => es_multiples_user_agents a && String.eqb (anomalia_ip a) ip0)
    (anomalias_detectadas r).



(** The records that reach the entry of key [k] in [tabla]. *)
Definition aportes (cond : LogRecord -> bool) (clave : LogRecord -> string)
    (k : string) (logs : list LogRecord) : list LogRecord :=
  List.filter (fun log => cond log && String.eqb (clave log) k) logs.


(** ** The rate of a window, as the design document words it *)

(** The number of timestamps [j >= i] with
    [timestamps[j] <= timestamps[i] + time_window], the sum being the one
    the language computes. *)
Definition en_ventana (config : Config) (ts : list Z) (i : nat) : nat :=
  length
    (List.filter
       (fun t => js_le (num t)
                   (js_add (num (List.nth i ts 0%Z)) (num (time_window config))))
       (drop i ts)).

(** That count divided by the window length in minutes, [time_window /
    60000], both quotients being the ones the language computes. *)
Definition tasa (config : Config) (ts : list Z) (i : nat) : jsnum :=
  js_div (num (Z.of_nat (en_ventana config ts i)))
         (js_div (num (time_window config)) (num 60000)).

(** The window starting at [i] is over the limit. *)
Definition excede (config : Config) (ts : list Z) (i : nat) : bool :=
  js_gt (tasa config ts i) (Finite (max_requests_per_minute config)).

(** The smallest window start over the limit, if any. *)
Definition primera_ventana_excedida (config : Config) (ts : list Z) : option nat :=
  List.find (excede config ts) (seq 0 (length ts)).

Definition hallazgo_tasa (config : Config) (ip0 : string) (rpm : jsnum) : IpSospechosa :=
  {| sospechosa_ip := ip0;
     razon := "Exceso de requests por minuto";
     requests_detectados := rpm;
     limite_permitido := max_requests_per_minute config;
     ventana_minutos := window_minutes config |}.


(** ** Sample batches *)

Definition registro (ip0 endpoint0 : string) (timestamp0 status0 : Z)
    (user_agent0 : string) (response_time0 : Q) : LogRecord :=
  {| ip := ip0; endpoint := endpoint0; timestamp := timestamp0; status := status0;
     user_agent := user_agent0; response_time := response_time0 |}.

Definition politica (rpm : Q) (fallos : Z) (ventana : Z) : Config :=
  {| max_requests_per_minute := rpm;
     max_failed_logins := fallos;
     suspicious_endpoints := ["/api/login"; "/api/admin"];
     time_window := ventana |}.

(** Three requests of one IP inside a minute, arriving out of order. *)
Definition lote_rafaga : list LogRecord :=
  [ registro "10.0.0.1" "/api/users" 2000 200 "Mozilla/5.0" 100;
    registro "10.0.0.1" "/api/users" 0 200 "Mozilla/5.0" 100;
    registro "10.0.0.1" "/api/users" 1000 200 "Mozilla/5.0" 100 ].

(** A single request. *)
Definition lote_unico : list LogRecord :=
  [ registro "10.0.0.1" "/api/users" 5000 200 "Mozilla/5.0" 100 ].

(** Three failed logins of one IP, the latest one arriving first. *)
Definition lote_fallos_desordenados : list LogRecord :=
  [ registro "10.0.0.2" "/api/login" 3000 401 "Mozilla/5.0" 150;
    registro "10.0.0.2" "/api/login" 1000 401 "Mozilla/5.0" 150;
    registro "10.0.0.2" "/api/login" 2000 403 "Mozilla/5.0" 150 ].


(** Six requests of one IP, each with its own user agent, the first of
    which is the name of a member of [Object.prototype]. *)
Definition lote_agente_heredado : list LogRecord :=
  [ registro "10.0.0.9" "/api/users" 1000 200 "constructor" 100;
    registro "10.0.0.9" "/api/users" 2000 200 "curl/8.0" 100;
    registro "10.0.0.9" "/api/users" 3000 200 "Wget/1.21" 100;
    registro "10.0.0.9" "/api/users" 4000 200 "python-requests/2.31" 100;
    registro "10.0.0.9" "/api/users" 5000 200 "Go-http-client/1.1" 100;
    registro "10.0.0.9" "/api/users" 6000 200 "okhttp/4.9" 100 ].

(** Three failed logins of one IP, the last of them stamped beyond the
    largest date. *)
Definition lote_fecha_invalida : list LogRecord :=
  [ registro "10.0.0.4" "/api/login" 1000 401 "Mozilla/5.0" 150;
    registro "10.0.0.4" "/api/login" 2000 401 "Mozilla/5.0" 150;
    registro "10.0.0.4" "/api/login" 8640000000000001 401 "Mozilla/5.0" 150 ].


(** ** Failed logins of an IP *)

Definition fallos_de (config : Config) (ip0 : string) (logs : list LogRecord)
    : list LogRecord :=
  aportes (es_fallo config) ip ip0 logs.

(** Both attempt times of a finding are dates that render. *)
Definition fechas_rinden (f : AtaqueFuerzaBruta) : bool :=
  match toISOString (primera_tentativa f), toISOString (ultima_tentativa f) with
  | Returned _, Returned _ => true
  | _, _ => false
  end.

(** The earliest and the latest of a list of timestamps. *)
Definition minimo (l : list Z) : option Z :=
  match l with
  | [] => None
  | t :: l' => Some (fold_left Z.min l' t)
  end.

Definition maximo (l : list Z) : option Z :=
  match l with
  | [] => None
  | t :: l' => Some (fold_left Z.max l' t)
  end.


(** ** User agents of an IP *)

(** The user-agent table of an IP whose requests carry the agents [uas], in
    arrival order. *)
Definition tabla_agentes (uas : list string) : Objeto :=
  fold_left (fun m ua => contar_agente ua m) uas [].

(** A user agent that is an ordinary key of a plain object: neither an
    array index nor the name of a member of [Object.prototype]. *)
Definition ordinario (ua : string) : bool :=
  negb (heredada ua) && negb (es_indice ua).

(** The frequency table in its insertion order: the count of each distinct
    agent, by first appearance. *)
Definition frecuencias_de (uas : list string) : list nat :=
  List.map (apariciones uas) (primeras_apariciones uas).

(** The first agent, in that order, whose count is the largest count. *)
Definition agente_mas_comun (uas : list string) : option string :=
  List.find (fun a => apariciones uas a =? list_max (frecuencias_de uas))
    (primeras_apariciones uas).


(** ** Mean and population standard deviation *)






(** A rational that is the value of a double: rounding leaves it as it
    is. *)
Definition es_double (q : Q) : bool :=
  match redondear q with
  | Finite r => Qeq_bool r q
  | _ => false
  end.



(** ** The cache as a list in order of use *)

(** What the design document describes: the stored pairs from the least
    recently used to the most recently used. *)
Definition quitar (k : string) (l : list (string * Z)) : list (string * Z) :=
  List.filter (fun e => negb (String.eqb (fst e) k)) l.

(** [get]: a miss answers [-1] and changes nothing; a hit moves the pair to
    the most recent end. *)
Definition modelo_get (k : string) (l : list (string * Z)) : Z * list (string * Z) :=
  match JsMap.get k l with
  | None => ((-1)%Z, l)
  | Some v => (v, quitar k l ++ [(k, v)])
  end.

(** [put]: a stored key gets the new value and becomes the most recent; a
    new key is appended, after the least recent pair has been dropped when
    the cache is full. *)
Definition modelo_put (cap : Z) (k : string) (v : Z) (l : list (string * Z))
    : list (string * Z) :=
  match JsMap.get k l with
  | Some _ => quitar k l ++ [(k, v)]
  | None =>
      (if (Z.of_nat (length l) >=? cap)%Z then List.tl l else l) ++ [(k, v)]
  end.

Definition modelo_step (cap : Z) (l : list (string * Z)) (o : LRU.op)
    : list (string * Z) :=
  match o with
  | LRU.Get k => snd (modelo_get k l)
  | LRU.Put k v => modelo_put cap k v l
  end.

Definition modelo_run (cap : Z) (ops : list LRU.op) : list (string * Z) :=
  fold_left (modelo_step cap) ops [].

(** The position, counted from 1, of the last call of [ops] that names the
    key [k]; 0 when no call does.  [ultimo_toque_rev] reads the calls from
    the latest to the earliest. *)
Fixpoint ultimo_toque_rev (rops : list LRU.op) (k : string) : nat :=
  match rops with
  | [] => 0
  | o :: rops' =>
      if String.eqb (LRU.op_key o) k then length rops
      else ultimo_toque_rev rops' k
  end.

Definition ultimo_toque (ops : list LRU.op) (k : string) : nat :=
  ultimo_toque_rev (rev ops) k.

(** [a] was last named before [b] was. *)
Definition antes_que (ops : list LRU.op) (a b : string) : Prop :=
  ultimo_toque ops a < ultimo_toque ops b.

(** A call that changes the recency of its key: any [put], and a [get]
    that finds its key. *)
Definition toca (c : LRU.LRUCache) (o : LRU.op) : Prop :=
  match o with
  | LRU.Put _ _ => True
  | LRU.Get k => is_Some (LRU.cache c !! k)
  end.

(** ** The linked list inside the store *)

Definition next_at (c : LRU.LRUCache) (x : nat) : option nat :=
  LRU.nodes c !! x ≫= LRU.next.

Definition prev_at (c : LRU.LRUCache) (x : nat) : option nat :=
  LRU.nodes c !! x ≫= LRU.prev.

Definition entry_at (c : LRU.LRUCache) (x : nat) : option (string * Z) :=
  (fun nd => (LRU.key nd, LRU.value nd)) <$> LRU.nodes c !! x.

(** Two states that differ at most in the contents of their nodes. *)
Definition shell (c c' : LRU.LRUCache) : Prop :=
  LRU.capacity c' = LRU.capacity c
  /\ LRU.cache c' = LRU.cache c
  /\ LRU.head c' = LRU.head c
  /\ LRU.tail c' = LRU.tail c
  /\ length (LRU.nodes c') = length (LRU.nodes c).

(** Consecutive nodes of [l] point at each other. *)
Definition linked (c : LRU.LRUCache) (l : list nat) : Prop :=
  forall i a b, l !! i = Some a -> l !! S i = Some b ->
    next_at c a = Some b /\ prev_at c b = Some a.

(** The list from sentinel to sentinel. *)
Definition cadena (c : LRU.LRUCache) (ns : list nat) : list nat :=
  LRU.head c :: ns ++ [LRU.tail c].

(** The pairs stored in the nodes [ns]. *)
Definition contenido (c : LRU.LRUCache) (ns : list nat) : list (string * Z) :=
  List.map (fun a => default ("", 0%Z) (entry_at c a)) ns.

(** The list part of the representation: the nodes from sentinel to
    sentinel are distinct, allocated, and linked in both directions. *)
Definition chain_ok (c : LRU.LRUCache) (ns : list nat) : Prop :=
  NoDup (cadena c ns)
  /\ (forall a, a ∈ cadena c ns -> a < length (LRU.nodes c))
  /\ linked c (cadena c ns).

(** The representation invariant: [ns] are the nodes between the
    sentinels, in list order, and the [Map] sends exactly the stored keys to
    their nodes. *)
Record inv (c : LRU.LRUCache) (ns : list nat) : Prop := {
  inv_chain : chain_ok c ns;
  inv_cache : forall k a,
    LRU.cache c !! k = Some a
    <-> a ∈ ns /\ exists v, entry_at c a = Some (k, v);
  inv_size : size (LRU.cache c) = length ns;
  inv_capacity : (0 < LRU.capacity c)%Z
}.

(** The states a program can reach: a fresh cache and whatever [get] and
    [put] make of it. *)
Inductive reachable : LRU.LRUCache -> Prop :=
  | reachable_new capacity0 c :
      LRU.constructor capacity0 = Returned c -> reachable c
  | reachable_get c k v c' :
      reachable c -> LRU.get c k = Some (v, c') -> reachable c'
  | reachable_put c k v c' :
      reachable c -> LRU.put c k v = Some c' -> reachable c'.


(** ** Sample caches *)

(** The state after the calls [ops] on a fresh cache, when the constructor
    accepts the capacity and every call returns. *)
Definition estado_tras (capacity0 : Z) (ops : list LRU.op) : option LRU.LRUCache :=
  match LRU.constructor capacity0 with
  | Returned c0 => LRU.run ops c0
  | Thrown _ => None
  end.

Definition sin_cache : LRU.LRUCache :=
  {| LRU.capacity := 0; LRU.cache := ∅; LRU.head := 0; LRU.tail := 0; LRU.nodes := [] |}.

(** Capacity 2 holding a and b; then z stored with the value -1. *)
Definition cache_ab : LRU.LRUCache :=
  default sin_cache (estado_tras 2 [LRU.Put "a" 1; LRU.Put "b" 2]).

Definition cache_bz : LRU.LRUCache :=
  default sin_cache (LRU.put cache_ab "z" (-1)).


(** ** More vocabulary: keys and values of a cache *)

(** A list of keys without the key [k]. *)
Definition sin_clave (k : string) (ks : list string) : list string :=
  List.filter (fun x => negb (String.eqb x k)) ks.

(** The calls [put(k, v)] for the pairs of a list, in order. *)
Definition puts (kvs : list (string * Z)) : list LRU.op :=
  List.map (fun kv => LRU.Put (fst kv) (snd kv)) kvs.


(** One IP with the seven user agents of the fourth test of the source. *)
Definition lote_agentes : list LogRecord :=
  List.map
    (fun ua => registro "192.168.1.200" "/api/users" 1000 200 ua 100)
    [ "Mozilla/5.0 (Windows)"; "curl/7.64.1"; "python-requests/2.25.1";
      "Postman/9.0"; "insomnia/2021.7.2"; "wget/1.20.3"; "java/1.8.0" ].

(** Twelve IPs that access the login endpoint, the first of them twice. *)
Definition lote_escaneo : list LogRecord :=
  List.map
    (fun i => registro i "/api/login" 1000 200 "Mozilla/5.0" 100)
    [ "10.1.0.1"; "10.1.0.2"; "10.1.0.3"; "10.1.0.4"; "10.1.0.5"; "10.1.0.6";
      "10.1.0.7"; "10.1.0.8"; "10.1.0.9"; "10.1.0.10"; "10.1.0.11"; "10.1.0.12";
      "10.1.0.1" ].

(* ================================================================= *)
(** * Part III: properties *)

(** ** Comparisons on rationals *)

Lemma Qlt_bool_iff (a b : Q) : Qlt_bool a b = true <-> (a < b)%Q.
Proof.
  unfold Qlt_bool. rewrite negb_true_iff.
  split.
  - intros H. apply Qnot_le_lt. intros Hle.
    apply Qle_bool_iff in Hle. congruence.
  - intros H. destruct (Qle_bool b a) eqn:E; [|reflexivity].
    apply Qle_bool_iff in E. exfalso. exact (Qlt_not_le _ _ H E).
Qed.

Lemma Qlt_bool_false_iff (a b : Q) : Qlt_bool a b = false <-> (b <= a)%Q.
Proof.
  unfold Qlt_bool. rewrite negb_false_iff. apply Qle_bool_iff.
Qed.

(** ** Numbers *)

(** A smaller integer is below whatever a larger one is below. *)
Lemma js_le_mono (a b : Z) (w : jsnum) :
  (a <= b)%Z -> js_le (num b) w = true -> js_le (num a) w = true.
Proof.
  intros Hab. destruct w as [q| | |]; simpl; try done.
  rewrite !Qle_bool_iff. intros Hb.
  eapply Qle_trans; [|exact Hb]. by rewrite <- Zle_Qle.
Qed.

Lemma js_le_refl (a : Z) : js_le (num a) (num a) = true.
Proof. simpl. apply Qle_bool_iff, Qle_refl. Qed.

Lemma dos_a_pos (p : Z) : (0 < dos_a p)%Q.
Proof.
  unfold dos_a. destruct (0 <=? p)%Z eqn:E.
  - apply Z.leb_le in E. unfold Qlt. simpl.
    pose proof (Z.pow_pos_nonneg 2 p). lia.
  - reflexivity.
Qed.

Lemma redondeo_par_nonneg (N D : Z) : (0 <= N)%Z -> (0 < D)%Z -> (0 <= redondeo_par N D)%Z.
Proof.
  intros HN HD. unfold redondeo_par.
  assert (0 <= N / D)%Z by (apply Z.div_pos; lia).
  destruct (2 * (N mod D) ?= D)%Z; [destruct (Z.even _)| |]; lia.
Qed.

Lemma redondear_pos_nonneg (n d : positive) (r : Q) :
  redondear_pos n d = Some r -> (0 <= r)%Q.
Proof.
  unfold redondear_pos. destruct (1023 <? binada n d)%Z; [done|].
  destruct (_ && _); [done|]. intros [= <-].
  rewrite Qred_correct. apply Qmult_le_0_compat.
  - change 0%Q with (inject_Z 0). rewrite <- Zle_Qle.
    apply redondeo_par_nonneg.
    + apply Z.mul_nonneg_nonneg; [done|]. apply Z.pow_nonneg. lia.
    + apply Z.mul_pos_pos; [done|]. apply Z.pow_pos_nonneg; lia.
  - apply Qlt_le_weak, dos_a_pos.
Qed.

(** Rounding keeps the sign: a number that is not negative rounds to one
    that is not negative, or overflows to [+Infinity]. *)
Lemma redondear_nonneg (q : Q) :
  (0 <= q)%Q ->
  redondear q = PosInfinity \/ exists r, redondear q = Finite r /\ (0 <= r)%Q.
Proof.
  intros Hq. unfold redondear.
  pose proof (Qred_correct q) as Hred.
  destruct (Qred q) as [[|n|n] d].
  - right. by exists 0%Q.
  - destruct (redondear_pos n d) as [r|] eqn:E; [|by left].
    right. exists r. split; [done|]. by apply redondear_pos_nonneg in E.
  - exfalso. rewrite <- Hred in Hq. unfold Qle in Hq. simpl in Hq. lia.
Qed.

(** Rounding sees the value of a rational, not the fraction that writes
    it. *)
Lemma redondear_Qeq (q q' : Q) : (q == q')%Q -> redondear q = redondear q'.
Proof. intros H. unfold redondear. by rewrite (Qred_complete _ _ H). Qed.

Lemma redondear_0 (q : Q) : (q == 0)%Q -> redondear q = Finite 0.
Proof. intros H. by rewrite (redondear_Qeq _ _ H). Qed.

Lemma redondeo_par_pos (N D : Z) : (0 < D <= N)%Z -> (0 < redondeo_par N D)%Z.
Proof.
  intros H. unfold redondeo_par.
  assert (0 < N / D)%Z by (by apply Z.div_str_pos).
  destruct (2 * (N mod D) ?= D)%Z; [destruct (Z.even _)| |]; lia.
Qed.

Lemma binada_bounds (n d : positive) :
  (Z.log2 (Zpos n) - Z.log2 (Zpos d) - 1 <= binada n d
   <= Z.log2 (Zpos n) - Z.log2 (Zpos d))%Z.
Proof. unfold binada. destruct (_ <? _)%Z; lia. Qed.

(** A value that is not below the smallest normal double does not round to
    zero. *)
Lemma redondear_pos_positive (n d : positive) (r : Q) :
  (-1021 <= Z.log2 (Zpos n) - Z.log2 (Zpos d))%Z ->
  redondear_pos n d = Some r -> (0 < r)%Q.
Proof.
  intros Hk. unfold redondear_pos.
  pose proof (binada_bounds n d) as He.
  set (e := binada n d) in *.
  destruct (1023 <? e)%Z; [done|].
  replace (Z.max e (-1022)) with e by lia.
  set (p := (e - 52)%Z).
  destruct (_ && _); [done|]. intros [= <-].
  rewrite Qred_correct.
  destruct (Z.log2_spec (Zpos n)) as [Hn1 Hn2]; [done|].
  destruct (Z.log2_spec (Zpos d)) as [Hd1 Hd2]; [done|].
  pose proof (Z.log2_nonneg (Zpos n)) as Ha.
  pose proof (Z.log2_nonneg (Zpos d)) as Hb.
  set (a := Z.log2 (Zpos n)) in *. set (b := Z.log2 (Zpos d)) in *.
  assert (HND : (0 < Zpos d * 2 ^ Z.max 0 p <= Zpos n * 2 ^ Z.max 0 (- p))%Z).
  { split.
    - apply Z.mul_pos_pos; [done|]. apply Z.pow_pos_nonneg; lia.
    - destruct (Z.le_gt_cases 0 p) as [Hp|Hp].
      + replace (Z.max 0 p) with p by lia. replace (Z.max 0 (- p)) with 0%Z by lia.
        rewrite Z.pow_0_r, Z.mul_1_r.
        assert (H1 : (Zpos d * 2 ^ p <= 2 ^ Z.succ b * 2 ^ p)%Z).
        { apply Z.mul_le_mono_nonneg_r; [apply Z.pow_nonneg|]; lia. }
        rewrite <- Z.pow_add_r in H1 by lia.
        assert (H2 : (2 ^ (Z.succ b + p) <= 2 ^ a)%Z).
        { apply Z.pow_le_mono_r; lia. }
        lia.
      + replace (Z.max 0 p) with 0%Z by lia. replace (Z.max 0 (- p)) with (- p)%Z by lia.
        rewrite Z.pow_0_r, Z.mul_1_r.
        assert (H1 : (2 ^ a * 2 ^ (- p) <= Zpos n * 2 ^ (- p))%Z).
        { apply Z.mul_le_mono_nonneg_r; [apply Z.pow_nonneg|]; lia. }
        rewrite <- Z.pow_add_r in H1 by lia.
        assert (H2 : (2 ^ Z.succ b <= 2 ^ (a + - p))%Z).
        { apply Z.pow_le_mono_r; lia. }
        lia. }
  apply redondeo_par_pos in HND.
  apply Qmult_lt_0_compat; [|apply dos_a_pos].
  change 0%Q with (inject_Z 0). by rewrite <- Zlt_Qlt.
Qed.

Lemma Qden_Qred_le (q : Q) : (Qden (Qred q) <= Qden q)%positive.
Proof.
  destruct q as [n d]. unfold Qred.
  pose proof (Z.ggcd_correct_divisors n (Zpos d)) as H.
  pose proof (Z.ggcd_gcd n (Zpos d)) as Hg.
  pose proof (Z.gcd_nonneg n (Zpos d)) as Hg0.
  destruct (Z.ggcd n (Zpos d)) as [g [aa bb]]. simpl in *.
  destruct H as [_ Hd]. rewrite <- Hg in Hg0. clear Hg.
  assert (Hg1 : (1 <= g)%Z).
  { destruct (Z.eq_dec g 0%Z) as [->|]; [|lia]. by rewrite Z.mul_0_l in Hd. }
  assert (Hbb : (0 < bb)%Z).
  { destruct (Z.le_gt_cases bb 0) as [Hle|]; [|done].
    pose proof (Z.mul_nonneg_nonpos g bb Hg0 Hle). lia. }
  assert (Hle : (bb <= Zpos d)%Z).
  { rewrite Hd. rewrite <- (Z.mul_1_l bb) at 1.
    apply Z.mul_le_mono_nonneg_r; lia. }
  unfold Qden. destruct bb as [|b|b]; try done.
Qed.

Lemma redondear_nonpos (q : Q) :
  (q <= 0)%Q ->
  redondear q = NegInfinity \/ exists r, redondear q = Finite r /\ (r <= 0)%Q.
Proof.
  intros Hq. unfold redondear.
  pose proof (Qred_correct q) as Hred.
  destruct (Qred q) as [[|n|n] d].
  - right. by exists 0%Q.
  - exfalso. rewrite <- Hred in Hq. unfold Qle in Hq. simpl in Hq. lia.
  - destruct (redondear_pos n d) as [r|] eqn:E; [|by left].
    right. exists (- r)%Q. split; [done|]. apply redondear_pos_nonneg in E.
    change 0%Q with (- 0)%Q. by apply Qopp_le_compat.
Qed.

Lemma Qdiv_nonneg_neg (a w : Q) : (0 <= a)%Q -> (w < 0)%Q -> (a / w <= 0)%Q.
Proof.
  intros Ha Hw.
  assert (Hw' : (0 < - w)%Q).
  { change 0%Q with (- 0)%Q. by apply Qopp_lt_compat. }
  assert (Hpos : (0 <= a / - w)%Q).
  { apply Qle_shift_div_l; [done|]. by rewrite Qmult_0_l. }
  assert (Heq : (a / w == - (a / - w))%Q).
  { field. intros E. rewrite E in Hw. by apply Qlt_irrefl in Hw. }
  rewrite Heq. change 0%Q with (- 0)%Q. by apply Qopp_le_compat.
Qed.

(** The rate of 11 requests in a window of 11000 ms: the window length
    rounds to 0.18333333333333332 minutes, and the quotient to
    60.00000000000001, the double next above 60. *)
Example tasa_redondeada :
  js_div (num 11) (js_div (num 11000) (num 60000))
  = Finite (8444249301319681 # 140737488355328)
  /\ js_gt (js_div (num 11) (js_div (num 11000) (num 60000))) (Finite 60) = true.
Proof. split; vm_compute; reflexivity. Qed.

(** The rate of one request in a window of 489 ms rounds to
    122.6993865030675, above the double 122.69938650306749. *)
Example tasa_de_un_request :
  js_div (num 1) (js_div (num 489) (num 60000))
  = Finite (2158550434897669 # 17592186044416)
  /\ js_gt (js_div (num 1) (js_div (num 489) (num 60000)))
       (Finite (8634201739590675 # 70368744177664)) = true.
Proof. split; vm_compute; reflexivity. Qed.

(** A sum beyond [2 ^ 53] is rounded: [2 ^ 60 - 1] is not a double. *)
Example suma_redondeada :
  js_add (num (2 ^ 60)) (num (-1)) = num (2 ^ 60).
Proof. vm_compute. reflexivity. Qed.

(** ** Insertion-ordered maps *)

Section jsmap_lemmas.
Context {V : Type}.
Implicit Types (m : JsMap V) (k : string) (v : V).

Lemma get_None_keys k m : JsMap.get k m = None <-> k ∉ JsMap.keys m.
Proof.
  induction m as [|[k' v'] m IH]; simpl.
  - split; [intros _; apply not_elem_of_nil | done].
  - rewrite not_elem_of_cons. destruct (String.eqb_spec k' k) as [->|Hne].
    + split; [done | intros [? _]; done].
    + rewrite IH. split; [intros ?; split; [congruence | done] | intros [_ ?]; done].
Qed.

Lemma get_set k k' v m :
  JsMap.get k' (JsMap.set k v m) = if decide (k = k') then Some v else JsMap.get k' m.
Proof.
  induction m as [|[k1 v1] m IH]; simpl.
  - destruct (String.eqb_spec k k'); case_decide; congruence.
  - destruct (String.eqb_spec k1 k) as [->|Hne]; simpl.
    + destruct (String.eqb_spec k k'); case_decide; congruence.
    + destruct (String.eqb_spec k1 k') as [->|Hne']; [|exact IH].
      case_decide; congruence.
Qed.

Lemma get_update k k' (f : V -> V) m :
  JsMap.get k' (JsMap.update k f m)
  = if decide (k = k') then f <$> JsMap.get k m else JsMap.get k' m.
Proof.
  induction m as [|[k1 v1] m IH]; simpl.
  - by case_decide.
  - destruct (String.eqb_spec k1 k) as [->|Hne]; simpl.
    + destruct (String.eqb_spec k k'); case_decide; congruence.
    + destruct (String.eqb_spec k1 k') as [->|Hne'].
      * case_decide; congruence.
      * exact IH.
Qed.

Lemma keys_update k (f : V -> V) m :
  JsMap.keys (JsMap.update k f m) = JsMap.keys m.
Proof.
  induction m as [|[k1 v1] m IH]; simpl; [done|].
  destruct (String.eqb k1 k); simpl; [done|]. by f_equal.
Qed.

Lemma keys_set k v m :
  JsMap.keys (JsMap.set k v m)
  = if JsMap.has k m then JsMap.keys m else JsMap.keys m ++ [k].
Proof.
  unfold JsMap.has.
  induction m as [|[k1 v1] m IH]; simpl; [done|].
  destruct (String.eqb k1 k); simpl; [done|].
  rewrite IH. by destruct (JsMap.get k m).
Qed.

Lemma get_upsert k k' init (f : V -> V) m :
  JsMap.get k' (upsert k init f m)
  = if decide (k = k') then Some (f (default init (JsMap.get k m)))
    else JsMap.get k' m.
Proof.
  unfold upsert, JsMap.has. rewrite get_update.
  destruct (JsMap.get k m) as [v|] eqn:E; simpl.
  - rewrite E. by case_decide.
  - rewrite !get_set. destruct (decide (k = k)); [|done]. simpl.
    by case_decide.
Qed.

Lemma keys_upsert k init (f : V -> V) m :
  JsMap.keys (upsert k init f m)
  = if JsMap.has k m then JsMap.keys m else JsMap.keys m ++ [k].
Proof.
  unfold upsert. rewrite keys_update.
  destruct (JsMap.has k m) eqn:E; simpl; [done|].
  by rewrite keys_set, E.
Qed.

Lemma NoDup_keys_upsert k init (f : V -> V) m :
  NoDup (JsMap.keys m) -> NoDup (JsMap.keys (upsert k init f m)).
Proof.
  intros Hnd. rewrite keys_upsert.
  destruct (JsMap.has k m) eqn:E; [done|].
  apply NoDup_app. split; [done|]. split; [|apply NoDup_singleton].
  intros x Hx ->%list_elem_of_singleton.
  apply get_None_keys in Hx; [done|].
  unfold JsMap.has in E. by destruct (JsMap.get k m).
Qed.

Lemma update_update k (f g : V -> V) m :
  JsMap.update k g (JsMap.update k f m) = JsMap.update k (fun v => g (f v)) m.
Proof.
  induction m as [|[k1 v1] m IH]; simpl; [done|].
  destruct (String.eqb k1 k) eqn:E; simpl; rewrite E; [done|]. by f_equal.
Qed.

(** An entry list with distinct keys is read back by [get]. *)
Lemma get_elem_of k v m :
  NoDup (JsMap.keys m) -> (k, v) ∈ m <-> JsMap.get k m = Some v.
Proof.
  induction m as [|[k1 v1] m IH]; simpl; intros Hnd.
  - split; [by intros ?%elem_of_nil | done].
  - apply NoDup_cons in Hnd as [Hk1 Hnd]. rewrite elem_of_cons.
    destruct (String.eqb_spec k1 k) as [->|Hne].
    + split.
      * intros [[= ->]|Hin]; [done|].
        exfalso. apply Hk1. apply list_elem_of_fmap. by exists (k, v).
      * intros [= ->]. by left.
    + rewrite <- (IH Hnd). split; [intros [[= ? ?]|?]; [congruence|done] | by right].
Qed.
End jsmap_lemmas.

(** ** The detection steps as appends *)

Ltac reporte_eq :=
  simpl; f_equal; rewrite <- ?app_assoc, ?app_nil_r, ?length_app; simpl;
  try done; try lia.

Lemma fold_paso4 config es r :
  NoDup (es.*1) ->
  (forall e, e ∈ es -> ya_registrada (fst e) (ips_sospechosas r) = false) ->
  fold_left (paso4 config) es r
  = {| ips_sospechosas := ips_sospechosas r ++ flat_map (hallazgo4 config) es;
       ataques_fuerza_bruta := ataques_fuerza_bruta r;
       endpoints_bajo_ataque := endpoints_bajo_ataque r;
       anomalias_detectadas := anomalias_detectadas r;
       total_eventos_sospechosos :=
         total_eventos_sospechosos r + length (flat_map (hallazgo4 config) es) |}.
Proof.
  revert r. induction es as [|e es IH]; intros r Hnd Hreg.
  - destruct r. reporte_eq.
  - apply NoDup_cons in Hnd as [He Hnd]. simpl. rewrite IH; [|done|].
    + unfold paso4, hallazgo4.
      destruct (primera_violacion _ _) as [rpm|]; [|reporte_eq].
      rewrite (Hreg e) by left. reporte_eq.
    + intros e' He'. unfold paso4.
      destruct (primera_violacion _ _) as [rpm|]; [|apply Hreg; by right].
      rewrite (Hreg e) by left. simpl.
      unfold ya_registrada. rewrite existsb_app. simpl.
      fold (ya_registrada (fst e') (ips_sospechosas r)).
      rewrite (Hreg e') by (by right). simpl.
      rewrite orb_false_r. apply String.eqb_neq. intros Heq.
      apply He. rewrite Heq. by apply list_elem_of_fmap_2.
Qed.

Lemma fold_paso5 config es r :
  fold_left (paso5 config) es r
  = {| ips_sospechosas := ips_sospechosas r;
       ataques_fuerza_bruta := ataques_fuerza_bruta r ++ flat_map (hallazgo5 config) es;
       endpoints_bajo_ataque := endpoints_bajo_ataque r;
       anomalias_detectadas := anomalias_detectadas r;
       total_eventos_sospechosos :=
         total_eventos_sospechosos r + length (flat_map (hallazgo5 config) es) |}.
Proof.
  revert r. induction es as [|e es IH]; intros r.
  - destruct r. reporte_eq.
  - simpl. rewrite IH. unfold paso5, hallazgo5.
    destruct (_ >? _)%Z; reporte_eq.
Qed.

Lemma fold_paso6 es r :
  fold_left paso6 es r
  = {| ips_sospechosas := ips_sospechosas r;
       ataques_fuerza_bruta := ataques_fuerza_bruta r;
       endpoints_bajo_ataque := endpoints_bajo_ataque r ++ flat_map hallazgo6 es;
       anomalias_detectadas := anomalias_detectadas r;
       total_eventos_sospechosos :=
         total_eventos_sospechosos r + length (flat_map hallazgo6 es) |}.
Proof.
  revert r. induction es as [|e es IH]; intros r.
  - destruct r. reporte_eq.
  - simpl. rewrite IH. unfold paso6, hallazgo6.
    destruct (_ <? _); reporte_eq.
Qed.

Lemma fold_paso7 es r :
  fold_left paso7 es r
  = {| ips_sospechosas := ips_sospechosas r;
       ataques_fuerza_bruta := ataques_fuerza_bruta r;
       endpoints_bajo_ataque := endpoints_bajo_ataque r;
       anomalias_detectadas := anomalias_detectadas r ++ flat_map hallazgo7 es;
       total_eventos_sospechosos :=
         total_eventos_sospechosos r + length (flat_map hallazgo7 es) |}.
Proof.
  revert r. induction es as [|e es IH]; intros r.
  - destruct r. reporte_eq.
  - simpl. rewrite IH. unfold paso7, hallazgo7.
    destruct (_ <? _); reporte_eq.
Qed.

Lemma fold_paso8 es r :
  fold_left paso8 es r
  = {| ips_sospechosas := ips_sospechosas r;
       ataques_fuerza_bruta := ataques_fuerza_bruta r;
       endpoints_bajo_ataque := endpoints_bajo_ataque r;
       anomalias_detectadas := anomalias_detectadas r ++ flat_map hallazgo8 es;
       total_eventos_sospechosos :=
         total_eventos_sospechosos r + length (flat_map hallazgo8 es) |}.
Proof.
  revert r. induction es as [|e es IH]; intros r.
  - destruct r. reporte_eq.
  - simpl. rewrite IH. unfold paso8, hallazgo8.
    destruct (tiempos_irregulares _); reporte_eq.
Qed.

(** ** The tables after the pass over the logs *)

Section tabla_lemmas.
Context {V : Type} (cond : LogRecord -> bool) (clave : LogRecord -> string)
        (init : V) (f : LogRecord -> V -> V).

Lemma tabla_snoc logs log :
  tabla cond clave init f (logs ++ [log])
  = if cond log then upsert (clave log) init (f log) (tabla cond clave init f logs)
    else tabla cond clave init f logs.
Proof. unfold tabla. by rewrite fold_left_app. Qed.

Lemma aportes_snoc k logs log :
  aportes cond clave k (logs ++ [log])
  = aportes cond clave k logs ++ (if cond log && String.eqb (clave log) k then [log] else []).
Proof. unfold aportes. by rewrite List.filter_app. Qed.

Lemma NoDup_keys_tabla logs : NoDup (JsMap.keys (tabla cond clave init f logs)).
Proof.
  induction logs as [|log logs IH] using rev_ind.
  - apply NoDup_nil_2.
  - rewrite tabla_snoc. destruct (cond log); [|done].
    by apply NoDup_keys_upsert.
Qed.

Lemma get_tabla k logs :
  JsMap.get k (tabla cond clave init f logs)
  = match aportes cond clave k logs with
    | [] => None
    | rel => Some (fold_left (fun v log => f log v) rel init)
    end.
Proof.
  induction logs as [|log logs IH] using rev_ind; [done|].
  rewrite tabla_snoc, aportes_snoc.
  destruct (cond log); simpl.
  - rewrite get_upsert. destruct (String.eqb_spec (clave log) k) as [->|Hne].
    + rewrite decide_True by done. rewrite IH.
      destruct (aportes cond clave k logs) as [|l0 rel]; simpl; [done|].
      by rewrite fold_left_app.
    + rewrite decide_False by done. by rewrite app_nil_r.
  - by rewrite app_nil_r.
Qed.
End tabla_lemmas.

Lemma fold_left_proj {A B C : Type} (g : A -> C) (step : A -> B -> A)
    (step' : C -> B -> C) (l : list B) (a : A) (c : C) :
  g a = c ->
  (forall a b, g (step a b) = step' (g a) b) ->
  g (fold_left step l a) = fold_left step' l c.
Proof.
  intros <- H. revert a. induction l as [|b l IH]; intros a; simpl; [done|].
  by rewrite IH, H.
Qed.

Lemma requestsPorIP_agregar config logs :
  requestsPorIP (agregar config logs)
  = tabla (fun _ => true) ip {| req_timestamps := []; req_count := 0 |}
      (fun log d => {| req_timestamps := req_timestamps d ++ [timestamp log];
                       req_count := S (req_count d) |}) logs.
Proof.
  unfold agregar, tabla. apply fold_left_proj; [done|]. intros t log.
  unfold procesar_log, upsert. simpl. by rewrite update_update.
Qed.

Lemma fallosLoginPorIP_agregar config logs :
  fallosLoginPorIP (agregar config logs)
  = tabla (es_fallo config) ip {| fallos_count := 0; fallos_timestamps := [] |}
      (fun log d => {| fallos_count := S (fallos_count d);
                       fallos_timestamps := fallos_timestamps d ++ [timestamp log] |}) logs.
Proof.
  unfold agregar, tabla. apply fold_left_proj; [done|]. intros t log.
  unfold procesar_log, upsert, es_fallo. simpl.
  destruct (_ && _); [|done]. by rewrite update_update.
Qed.

Lemma accesosEndpointSensible_agregar config logs :
  accesosEndpointSensible (agregar config logs)
  = tabla (fun log => includes (suspicious_endpoints config) (endpoint log)) endpoint
      {| accesos_count := 0; accesos_ips := [] |}
      (fun log d => {| accesos_count := S (accesos_count d);
                       accesos_ips := accesos_ips d ++ [ip log] |}) logs.
Proof.
  unfold agregar, tabla. apply fold_left_proj; [done|]. intros t log.
  unfold procesar_log, upsert. simpl.
  destruct (includes _ _); [|done]. by rewrite update_update.
Qed.

Lemma userAgentsPorIP_agregar config logs :
  userAgentsPorIP (agregar config logs)
  = tabla (fun _ => true) ip [] (fun log => contar_agente (user_agent log)) logs.
Proof.
  unfold agregar, tabla. apply fold_left_proj; [done|]. intros t log.
  unfold procesar_log, upsert. simpl. done.
Qed.

Lemma tiemposRespuestaPorIP_agregar config logs :
  tiemposRespuestaPorIP (agregar config logs)
  = tabla (fun _ => true) ip [] (fun log l => l ++ [response_time log]) logs.
Proof.
  unfold agregar, tabla. apply fold_left_proj; [done|]. intros t log.
  unfold procesar_log, upsert. simpl. done.
Qed.

(** ** The report as a function of the tables *)

Lemma reporte_forma logs config :
  let t := agregar config logs in
  detectarActividadSospechosa logs config
  = {| ips_sospechosas := flat_map (hallazgo4 config) (requestsPorIP t);
       ataques_fuerza_bruta := flat_map (hallazgo5 config) (fallosLoginPorIP t);
       endpoints_bajo_ataque := flat_map hallazgo6 (accesosEndpointSensible t);
       anomalias_detectadas :=
         flat_map hallazgo7 (userAgentsPorIP t)
         ++ flat_map hallazgo8 (tiemposRespuestaPorIP t);
       total_eventos_sospechosos :=
         length (flat_map (hallazgo4 config) (requestsPorIP t))
         + length (flat_map (hallazgo5 config) (fallosLoginPorIP t))
         + length (flat_map hallazgo6 (accesosEndpointSensible t))
         + length (flat_map hallazgo7 (userAgentsPorIP t))
         + length (flat_map hallazgo8 (tiemposRespuestaPorIP t)) |}.
Proof.
  intros t. unfold detectarActividadSospechosa. fold t.
  rewrite fold_paso8, fold_paso7, fold_paso6, fold_paso5, fold_paso4.
  - simpl. f_equal.
  - unfold t. rewrite requestsPorIP_agregar. apply NoDup_keys_tabla.
  - done.
Qed.

Lemma filter_all {A : Type} (p : A -> bool) (l : list A) :
  (forall x, x ∈ l -> p x = true) -> List.filter p l = l.
Proof.
  induction l as [|x l IH]; simpl; intros H; [done|].
  rewrite (H x) by left. f_equal. apply IH. intros y Hy. apply H. by right.
Qed.

Lemma filter_none {A : Type} (p : A -> bool) (l : list A) :
  (forall x, x ∈ l -> p x = false) -> List.filter p l = [].
Proof.
  induction l as [|x l IH]; simpl; intros H; [done|].
  rewrite (H x) by left. apply IH. intros y Hy. apply H. by right.
Qed.

(** Findings are keyed like the entries they come from: selecting the
    findings of key [k] selects the findings of the entry of [k]. *)
Lemma filter_flat_map_get {V F : Type} (g : string * V -> list F) (p : F -> bool)
    (k : string) (m : JsMap V) :
  NoDup (JsMap.keys m) ->
  (forall e x, x ∈ g e -> p x = String.eqb (fst e) k) ->
  List.filter p (flat_map g m)
  = match JsMap.get k m with Some v => g (k, v) | None => [] end.
Proof.
  intros Hnd Hp. induction m as [|[k1 v1] m IH]; simpl; [done|].
  simpl in Hnd. apply NoDup_cons in Hnd as [Hk1 Hnd].
  rewrite List.filter_app, (IH Hnd).
  destruct (String.eqb_spec k1 k) as [->|Hne].
  - apply get_None_keys in Hk1. rewrite Hk1, app_nil_r.
    apply filter_all. intros x Hx. rewrite (Hp _ _ Hx). simpl. apply String.eqb_refl.
  - rewrite filter_none; [done|].
    intros x Hx. rewrite (Hp _ _ Hx). simpl. by apply String.eqb_neq.
Qed.

(** ** C8: the counter of the report *)

(** C8.  For every batch and policy, [total_eventos_sospechosos] of the
    returned report is the sum of the lengths of the four collections of
    findings. *)
Theorem C8_total_is_sum_of_lengths (logs : list LogRecord) (config : Config) :
  let r := detectarActividadSospechosa logs config in
  total_eventos_sospechosos r
  = length (ips_sospechosas r) + length (ataques_fuerza_bruta r)
    + length (endpoints_bajo_ataque r) + length (anomalias_detectadas r).
Proof.
  intros r. unfold r. rewrite reporte_forma. simpl.
  rewrite length_app. lia.
Qed.

(** ** Sorting *)

Lemma sort_asc_Sorted (l : list Z) : Sorted Z.le (sort_asc l).
Proof. apply (Sorted_merge_sort Z.le). Qed.

Lemma sort_asc_Permutation (l : list Z) : sort_asc l ≡ₚ l.
Proof. apply (merge_sort_Permutation Z.le). Qed.

(** The ascending arrangement of a list is unique, so [sort_asc] is it. *)
Lemma sort_asc_unique (l ts : list Z) :
  Sorted Z.le ts -> ts ≡ₚ l -> sort_asc l = ts.
Proof.
  intros Hs Hp. apply (Sorted_unique Z.le).
  - apply sort_asc_Sorted.
  - done.
  - by rewrite sort_asc_Permutation.
Qed.

(** ** The sliding window *)

Lemma requests_in_window_filter (window_end : jsnum) (l : list Z) :
  StronglySorted Z.le l ->
  requests_in_window window_end l
  = length (List.filter (fun t => js_le (num t) window_end) l).
Proof.
  induction 1 as [|t l Hs IH Hall]; [done|].
  cbn [requests_in_window List.filter].
  destruct (js_le (num t) window_end) eqn:E; cbn [length].
  - by rewrite IH.
  - rewrite filter_none; [done|].
    intros x Hx. destruct (js_le (num x) window_end) eqn:Ex; [|done].
    rewrite List.Forall_forall in Hall. apply list_elem_of_In, Hall in Hx.
    rewrite (js_le_mono t x window_end Hx Ex) in E. done.
Qed.

Lemma requests_per_minute_tasa (config : Config) (ts : list Z) (i : nat) (x : Z) :
  StronglySorted Z.le ts -> ts !! i = Some x ->
  requests_per_minute config (drop i ts) = tasa config ts i.
Proof.
  intros Hs Hx. unfold tasa, en_ventana.
  assert (Hd : StronglySorted Z.le (drop i ts)).
  { rewrite <- (take_drop i ts) in Hs. by apply StronglySorted_app_1_r in Hs. }
  rewrite (nth_lookup_Some _ _ _ _ Hx).
  rewrite <- (requests_in_window_filter _ _ Hd).
  rewrite (drop_S _ _ _ Hx). done.
Qed.

Lemma primera_violacion_find_from (config : Config) (ts : list Z) (n i : nat) :
  StronglySorted Z.le ts -> n = length ts - i ->
  primera_violacion config (drop i ts)
  = tasa config ts <$> List.find (excede config ts) (seq i n).
Proof.
  intros Hs. revert i. induction n as [|n IH]; intros i Hn.
  - rewrite drop_ge by lia. done.
  - destruct (lookup_lt_is_Some_2 ts i) as [x Hx]; [lia|].
    pose proof (requests_per_minute_tasa config ts i x Hs Hx) as Hrpm.
    rewrite (drop_S _ _ _ Hx) in *. simpl seq. simpl List.find.
    unfold excede at 1. cbn [primera_violacion]. rewrite Hrpm.
    destruct (js_gt _ _); [done|]. apply IH. lia.
Qed.

Lemma primera_violacion_find (config : Config) (ts : list Z) :
  Sorted Z.le ts ->
  primera_violacion config ts = tasa config ts <$> primera_ventana_excedida config ts.
Proof.
  intros Hs. apply Sorted_StronglySorted in Hs; [|apply _].
  unfold primera_ventana_excedida.
  rewrite <- (primera_violacion_find_from config ts (length ts) 0 Hs); [done|lia].
Qed.

(** ** C1, C3: requests per minute *)

Lemma fold_requests (rel : list LogRecord) (d : RequestsEntry) :
  fold_left
    (fun v log => {| req_timestamps := req_timestamps v ++ [timestamp log];
                     req_count := S (req_count v) |}) rel d
  = {| req_timestamps := req_timestamps d ++ List.map timestamp rel;
       req_count := req_count d + length rel |}.
Proof.
  revert d. induction rel as [|log rel IH]; intros d; simpl.
  - destruct d; simpl. by rewrite app_nil_r, Nat.add_0_r.
  - rewrite IH. simpl. rewrite <- app_assoc. simpl. f_equal. lia.
Qed.

Lemma get_requestsPorIP (config : Config) (logs : list LogRecord) (ip0 : string) :
  JsMap.get ip0 (requestsPorIP (agregar config logs))
  = match logs_de_ip ip0 logs with
    | [] => None
    | rel => Some {| req_timestamps := List.map timestamp rel;
                     req_count := length rel |}
    end.
Proof.
  rewrite requestsPorIP_agregar, get_tabla.
  change (aportes (fun _ => true) ip ip0 logs) with (logs_de_ip ip0 logs).
  destruct (logs_de_ip ip0 logs) as [|l0 rel]; [done|].
  by rewrite fold_requests.
Qed.

Lemma sospechas_de_forma (config : Config) (logs : list LogRecord) (ip0 : string) :
  sospechas_de ip0 (detectarActividadSospechosa logs config)
  = match primera_violacion config
            (sort_asc (List.map timestamp (logs_de_ip ip0 logs))) with
    | Some rpm => [hallazgo_tasa config ip0 rpm]
    | None => []
    end.
Proof.
  unfold sospechas_de. rewrite reporte_forma. simpl.
  rewrite (filter_flat_map_get _ _ ip0).
  - rewrite get_requestsPorIP.
    destruct (logs_de_ip ip0 logs) as [|l0 rel]; [done|].
    unfold hallazgo4. simpl. by destruct (primera_violacion _ _).
  - rewrite requestsPorIP_agregar. apply NoDup_keys_tabla.
  - intros e x. unfold hallazgo4.
    destruct (primera_violacion _ _); [|by intros ?%elem_of_nil].
    by intros ->%list_elem_of_singleton.
Qed.

(** C1.  Let [ts] be the timestamps of an IP in ascending order.  The
    report holds exactly one rate finding for the IP when some window start
    is over the limit, and it carries the rate of the smallest such start;
    it holds none when no window is over the limit.  In no case does an IP
    get more than one. *)
Theorem C1_rate_abuse_first_window
    (logs : list LogRecord) (config : Config) (ip0 : string) (ts : list Z) :
  Sorted Z.le ts ->
  ts ≡ₚ List.map timestamp (logs_de_ip ip0 logs) ->
  let r := detectarActividadSospechosa logs config in
  sospechas_de ip0 r
  = match primera_ventana_excedida config ts with
    | Some i => [hallazgo_tasa config ip0 (tasa config ts i)]
    | None => []
    end
  /\ length (sospechas_de ip0 r) <= 1.
Proof.
  intros Hs Hp r. unfold r. rewrite sospechas_de_forma.
  rewrite (sort_asc_unique _ ts Hs Hp), (primera_violacion_find _ _ Hs).
  destruct (primera_ventana_excedida config ts); simpl; split; (done || lia).
Qed.

Lemma C1_rate_abuse_first_window_witness :
  sospechas_de "10.0.0.1"
    (detectarActividadSospechosa lote_rafaga (politica 2 5 60000))
  = [hallazgo_tasa (politica 2 5 60000) "10.0.0.1"
       (tasa (politica 2 5 60000) [0; 1000; 2000]%Z 0)]
  /\ length (sospechas_de "10.0.0.1"
               (detectarActividadSospechosa lote_rafaga (politica 2 5 60000))) <= 1.
Proof.
  apply (C1_rate_abuse_first_window lote_rafaga (politica 2 5 60000) "10.0.0.1"
           [0; 1000; 2000]%Z).
  - repeat constructor; lia.
  - symmetry. apply (Permutation_cons_append [0; 1000]%Z 2000%Z).
Defined.

(** One request per window already gives the rate [1 / window_minutes]:
    with a one-second window and a limit of 10 a lone request is
    reported. *)
Lemma C3_single_request_counterexample :
  ~ (forall (logs : list LogRecord) (config : Config) (ip0 : string),
        (0 < time_window config)%Z ->
        length (logs_de_ip ip0 logs) < 2 ->
        sospechas_de ip0 (detectarActividadSospechosa logs config) = []).
Proof.
  intros H.
  specialize (H lote_unico (politica 10 5 1000) "10.0.0.1").
  assert (Hw : (0 < time_window (politica 10 5 1000))%Z) by (simpl; lia).
  assert (Hn : length (logs_de_ip "10.0.0.1" lote_unico) < 2) by (simpl; lia).
  specialize (H Hw Hn). vm_compute in H. discriminate H.
Qed.

(** The window length in minutes of a window that is not negative is not
    negative. *)
Lemma window_minutes_nonneg (config : Config) :
  (0 <= time_window config)%Z ->
  window_minutes config = PosInfinity
  \/ exists w, window_minutes config = Finite w /\ (0 <= w)%Q.
Proof.
  intros H. unfold window_minutes, js_div, num.
  change (Qeq_bool (inject_Z 60000) 0) with false. cbv iota.
  apply redondear_nonneg. apply Qle_shift_div_l; [reflexivity|].
  rewrite Qmult_0_l. change 0%Q with (inject_Z 0). by rewrite <- Zle_Qle.
Qed.

(** A limit that the rate of one request per window respects is also
    respected by the rate of no request. *)
Lemma tasa_sin_requests (config : Config) :
  (0 <= time_window config)%Z ->
  js_gt (js_div (num 1) (window_minutes config))
    (Finite (max_requests_per_minute config)) = false ->
  js_gt (js_div (num 0) (window_minutes config))
    (Finite (max_requests_per_minute config)) = false.
Proof.
  intros Hw. destruct (window_minutes_nonneg config Hw) as [->|(w & -> & Hw0)]; [done|].
  unfold js_div, num. destruct (Qeq_bool w 0) eqn:E; [done|].
  intros H1.
  rewrite (redondear_0 (inject_Z 0 / w)) by (unfold Qdiv; by rewrite Qmult_0_l).
  assert (Hpos : (0 < w)%Q).
  { apply Qle_lt_or_eq in Hw0 as [?|Heq]; [done|].
    symmetry in Heq. apply Qeq_bool_iff in Heq. congruence. }
  destruct (redondear_nonneg (inject_Z 1 / w)) as [Hinf|(r & Hr & Hr0)].
  - apply Qle_shift_div_l; [done|]. by rewrite Qmult_0_l.
  - by rewrite Hinf in H1.
  - rewrite Hr in H1. unfold js_gt, js_lt in *.
    apply Qlt_bool_false_iff. apply Qlt_bool_false_iff in H1.
    by eapply Qle_trans.
Qed.

(** C3 (amended).  With a positive window in which the rate of one request
    per window, [1 / (time_window / 60000)] as the program computes it,
    stays within the limit, an IP with fewer than two requests gets no rate
    finding. *)
Theorem C3_fewer_than_two_requests
    (logs : list LogRecord) (config : Config) (ip0 : string) :
  (0 < time_window config)%Z ->
  js_gt (js_div (num 1) (js_div (num (time_window config)) (num 60000)))
    (Finite (max_requests_per_minute config)) = false ->
  length (logs_de_ip ip0 logs) < 2 ->
  sospechas_de ip0 (detectarActividadSospechosa logs config) = [].
Proof.
  intros Hw Hlim Hlen. rewrite sospechas_de_forma.
  fold (window_minutes config) in Hlim.
  destruct (logs_de_ip ip0 logs) as [|l0 [|l1 rel]]; simpl in Hlen; [done| |lia].
  change (sort_asc (List.map timestamp [l0])) with [timestamp l0].
  cbn [primera_violacion requests_per_minute requests_in_window].
  destruct (js_le _ _).
  - change (num (Z.of_nat 1)) with (num 1). by rewrite Hlim.
  - change (num (Z.of_nat 0)) with (num 0).
    rewrite tasa_sin_requests; [done | lia | done].
Qed.

Lemma C3_fewer_than_two_requests_witness :
  sospechas_de "10.0.0.1"
    (detectarActividadSospechosa lote_unico (politica 60 5 60000)) = [].
Proof.
  apply (C3_fewer_than_two_requests lote_unico (politica 60 5 60000) "10.0.0.1").
  - simpl. lia.
  - vm_compute. reflexivity.
  - simpl. lia.
Defined.

(** ** C2: brute force *)

Lemma fold_fallos (rel : list LogRecord) (d : FallosEntry) :
  fold_left
    (fun v log => {| fallos_count := S (fallos_count v);
                     fallos_timestamps := fallos_timestamps v ++ [timestamp log] |})
    rel d
  = {| fallos_count := fallos_count d + length rel;
       fallos_timestamps := fallos_timestamps d ++ List.map timestamp rel |}.
Proof.
  revert d. induction rel as [|log rel IH]; intros d; simpl.
  - destruct d; simpl. by rewrite app_nil_r, Nat.add_0_r.
  - rewrite IH. simpl. rewrite <- app_assoc. simpl. f_equal. lia.
Qed.

Lemma get_fallosLoginPorIP (config : Config) (logs : list LogRecord) (ip0 : string) :
  JsMap.get ip0 (fallosLoginPorIP (agregar config logs))
  = match fallos_de config ip0 logs with
    | [] => None
    | rel => Some {| fallos_count := length rel;
                     fallos_timestamps := List.map timestamp rel |}
    end.
Proof.
  rewrite fallosLoginPorIP_agregar, get_tabla. fold (fallos_de config ip0 logs).
  destruct (fallos_de config ip0 logs) as [|l0 rel]; [done|].
  by rewrite fold_fallos.
Qed.

(** What the report holds about the failed logins of an IP: one finding
    when they are more than the limit, with the first and the last recorded
    timestamp as attempt times. *)
Lemma ataques_de_forma (config : Config) (logs : list LogRecord) (ip0 : string) :
  ataques_de ip0 (detectarActividadSospechosa logs config)
  = match fallos_de config ip0 logs with
    | [] => []
    | rel =>
        if (Z.of_nat (length rel) >? max_failed_logins config)%Z then
          [{| ataque_ip := ip0;
              tipo_ataque := "Fuerza Bruta en Login";
              intentos_fallidos := length rel;
              ataque_limite_permitido := max_failed_logins config;
              timestamps_intentos := List.map timestamp rel;
              primera_tentativa := primero (List.map timestamp rel);
              ultima_tentativa := ultimo (List.map timestamp rel) |}]
        else []
    end.
Proof.
  unfold ataques_de. rewrite reporte_forma. simpl.
  rewrite (filter_flat_map_get _ _ ip0).
  - rewrite get_fallosLoginPorIP.
    by destruct (fallos_de config ip0 logs) as [|l0 rel].
  - rewrite fallosLoginPorIP_agregar. apply NoDup_keys_tabla.
  - intros e x. unfold hallazgo5.
    destruct (_ >? _)%Z; [|by intros ?%elem_of_nil].
    by intros ->%list_elem_of_singleton.
Qed.

(** C2.  On three failed logins recorded at 3000, 1000 and 2000 with a
    limit of 2, the one finding gives 3000 as first attempt and 2000 as
    last attempt, the ends of the arrival order, while the earliest attempt
    is 1000 and the latest 3000. *)
Theorem C2_attempt_times_follow_arrival_order :
  exists f : AtaqueFuerzaBruta,
    ataques_de "10.0.0.2"
      (detectarActividadSospechosa lote_fallos_desordenados (politica 60 2 60000))
    = [f]
    /\ intentos_fallidos f = 3
    /\ primera_tentativa f = Some 3000%Z
    /\ ultima_tentativa f = Some 2000%Z
    /\ minimo (timestamps_intentos f) = Some 1000%Z
    /\ maximo (timestamps_intentos f) = Some 3000%Z.
Proof.
  eexists. split; [vm_compute; reflexivity|].
  repeat split; reflexivity.
Qed.

(** ** C4: configuration checks *)

Lemma primero_head (l : list Z) : primero l = head l.
Proof. by destruct l. Qed.

Lemma ultimo_last (l : list Z) : ultimo l = last l.
Proof.
  unfold ultimo. induction l as [|x l IH]; [done|].
  destruct l as [|y l]; [done|].
  simpl in *. by rewrite Nat.sub_0_r in IH.
Qed.

Lemma fold_paso5_fechas_Thrown (config : Config) (es : list (string * FallosEntry))
    (msg : string) :
  fold_left (paso5_fechas config) es (Thrown msg) = Thrown msg.
Proof. induction es as [|e es IH]; [done|]. exact IH. Qed.

(** The brute-force loop with its error: it ends like the loop without
    it when the dates of all its findings render, and throws otherwise. *)
Lemma fold_paso5_fechas (config : Config) (es : list (string * FallosEntry))
    (r : Reporte) :
  fold_left (paso5_fechas config) es (Returned r)
  = if forallb fechas_rinden (flat_map (hallazgo5 config) es)
    then Returned (fold_left (paso5 config) es r)
    else Thrown "Invalid time value".
Proof.
  revert r. induction es as [|e es IH]; intros r; [done|].
  assert (Hstep : paso5_fechas config (Returned r) e
                  = if forallb fechas_rinden (hallazgo5 config e)
                    then Returned (paso5 config r e)
                    else Thrown "Invalid time value").
  { unfold paso5_fechas, hallazgo5, paso5. destruct (_ >? _)%Z; [|done].
    cbn [forallb]. unfold fechas_rinden. cbn [primera_tentativa ultima_tentativa].
    unfold toISOString.
    destruct (primero _) as [t1|]; [destruct (fecha_valida t1)|]; try done.
    destruct (ultimo _) as [t2|]; [destruct (fecha_valida t2)|]; done. }
  cbn [fold_left flat_map]. rewrite forallb_app, Hstep.
  destruct (forallb fechas_rinden (hallazgo5 config e)); cbn [andb].
  - apply IH.
  - apply fold_paso5_fechas_Thrown.
Qed.

(** The outcome of a call: the report, unless a brute-force finding of the
    report has an attempt time that does not render. *)
Lemma detect_forma (logs : list LogRecord) (config : Config) :
  detect logs config
  = if forallb fechas_rinden
         (ataques_fuerza_bruta (detectarActividadSospechosa logs config))
    then Returned (detectarActividadSospechosa logs config)
    else Thrown "Invalid time value".
Proof.
  rewrite reporte_forma. cbn [ataques_fuerza_bruta].
  unfold detect. rewrite fold_paso5_fechas.
  destruct (forallb _ _); [|done].
  by rewrite <- reporte_forma.
Qed.

Lemma elem_of_fallos_de (config : Config) (ip0 : string) (logs : list LogRecord)
    (log : LogRecord) :
  log ∈ fallos_de config ip0 logs -> log ∈ logs.
Proof.
  unfold fallos_de, aportes. intros H%list_elem_of_In%filter_In.
  apply list_elem_of_In, H.
Qed.

(** The attempt times of a finding are timestamps of the batch. *)
Lemma tentativas_del_lote (logs : list LogRecord) (config : Config)
    (f : AtaqueFuerzaBruta) :
  f ∈ ataques_fuerza_bruta (detectarActividadSospechosa logs config) ->
  exists l1 l2,
    l1 ∈ logs /\ l2 ∈ logs
    /\ primera_tentativa f = Some (timestamp l1)
    /\ ultima_tentativa f = Some (timestamp l2).
Proof.
  intros Hin.
  assert (Hin' : f ∈ ataques_de (ataque_ip f) (detectarActividadSospechosa logs config)).
  { apply list_elem_of_In, filter_In. split; [by apply list_elem_of_In|].
    apply String.eqb_refl. }
  clear Hin. rewrite ataques_de_forma in Hin'.
  remember (ataque_ip f) as ip0 eqn:Hip.
  destruct (fallos_de config ip0 logs) as [|l0 rel] eqn:Hrel; [by apply elem_of_nil in Hin'|].
  cbv zeta in Hin'.
  destruct (_ >? _)%Z; [|by apply elem_of_nil in Hin'].
  apply list_elem_of_singleton in Hin'. rewrite Hin'.
  cbn [primera_tentativa ultima_tentativa].
  rewrite ultimo_last.
  destruct (last (List.map timestamp (l0 :: rel))) as [t|] eqn:Hlast.
  - apply last_Some_elem_of, list_elem_of_fmap in Hlast as (l2 & -> & Hl2).
    exists l0, l2. repeat split; try done.
    + apply (elem_of_fallos_de config ip0). rewrite Hrel. by left.
    + apply (elem_of_fallos_de config ip0). by rewrite Hrel.
  - by apply last_None in Hlast.
Qed.

(** The detector accepts a window of length zero: the call returns, and the
    report even holds a finding computed from the batch. *)
Lemma C4_no_configuration_check_counterexample :
  ~ (forall (logs : list LogRecord) (config : Config),
        (time_window config <= 0)%Z ->
        exists msg, detect logs config = Thrown msg).
Proof.
  intros H.
  destruct (H lote_unico (politica 60 5 0)) as [msg Hmsg]; [simpl; lia|].
  vm_compute in Hmsg. discriminate Hmsg.
Qed.

(** C4 (amended).  A capacity that is not positive makes the constructor of
    the cache throw, and no cache is built.  The detector checks nothing
    about its policy: whatever the policy holds, a window that is not
    positive included, a batch whose timestamps are valid dates is
    processed to the end and its report returned. *)
Theorem C4_constructor_rejects_capacity
    (capacity0 : Z) (logs : list LogRecord) (config : Config) :
  (capacity0 <= 0)%Z ->
  (forall log, log ∈ logs -> fecha_valida (timestamp log) = true) ->
  LRU.constructor capacity0 = Thrown "Capacity debe ser mayor a 0"
  /\ detect logs config = Returned (detectarActividadSospechosa logs config).
Proof.
  intros H Hfechas. split.
  - unfold LRU.constructor. by apply Z.leb_le in H as ->.
  - rewrite detect_forma.
    replace (forallb _ _) with true; [done|].
    symmetry. apply forallb_forall. intros f Hf%list_elem_of_In.
    destruct (tentativas_del_lote logs config f Hf) as (l1 & l2 & H1 & H2 & Hp & Hu).
    unfold fechas_rinden, toISOString. rewrite Hp, Hu.
    by rewrite (Hfechas l1 H1), (Hfechas l2 H2).
Qed.

Lemma C4_constructor_rejects_capacity_witness :
  LRU.constructor 0 = Thrown "Capacity debe ser mayor a 0"
  /\ detect lote_unico (politica 60 5 0)
     = Returned (detectarActividadSospechosa lote_unico (politica 60 5 0)).
Proof.
  apply (C4_constructor_rejects_capacity 0 lote_unico (politica 60 5 0)); [lia|].
  intros log Hlog. apply list_elem_of_singleton in Hlog as ->. reflexivity.
Defined.

(** ** C5: mass access to a sensitive endpoint *)

Lemma set_size_distintos (l : list string) : set_size l = distintos l.
Proof.
  unfold set_size, distintos.
  assert (H : (list_to_set l : gset string) = list_to_set (remove_dups l)).
  { apply set_eq. intros x. by rewrite !elem_of_list_to_set, elem_of_remove_dups. }
  rewrite H. apply size_list_to_set, NoDup_remove_dups.
Qed.

Lemma aportes_endpoint (config : Config) (e : string) (logs : list LogRecord) :
  aportes (fun log => includes (suspicious_endpoints config) (endpoint log)) endpoint e logs
  = if includes (suspicious_endpoints config) e then logs_de_endpoint e logs else [].
Proof.
  unfold aportes, logs_de_endpoint.
  induction logs as [|log logs IH]; simpl; [by destruct (includes _ _)|].
  rewrite IH. destruct (String.eqb_spec (endpoint log) e) as [->|Hne].
  - rewrite andb_true_r. by destruct (includes _ e).
  - rewrite andb_false_r. done.
Qed.

Lemma fold_accesos (rel : list LogRecord) (d : AccesosEntry) :
  fold_left
    (fun v log => {| accesos_count := S (accesos_count v);
                     accesos_ips := accesos_ips v ++ [ip log] |})
    rel d
  = {| accesos_count := accesos_count d + length rel;
       accesos_ips := accesos_ips d ++ List.map ip rel |}.
Proof.
  revert d. induction rel as [|log rel IH]; intros d; simpl.
  - destruct d; simpl. by rewrite app_nil_r, Nat.add_0_r.
  - rewrite IH. simpl. rewrite <- app_assoc. simpl. f_equal. lia.
Qed.

Lemma get_accesosEndpointSensible (config : Config) (logs : list LogRecord) (e : string) :
  JsMap.get e (accesosEndpointSensible (agregar config logs))
  = if includes (suspicious_endpoints config) e then
      match logs_de_endpoint e logs with
      | [] => None
      | rel => Some {| accesos_count := length rel; accesos_ips := List.map ip rel |}
      end
    else None.
Proof.
  rewrite accesosEndpointSensible_agregar, get_tabla, aportes_endpoint.
  destruct (includes _ e); [|done].
  destruct (logs_de_endpoint e logs) as [|l0 rel]; [done|].
  by rewrite fold_accesos.
Qed.


(** ** C6: many user agents *)

Lemma apariciones_snoc (uas : list string) (ua a : string) :
  apariciones (uas ++ [ua]) a
  = apariciones uas a + (if String.eqb a ua then 1 else 0).
Proof.
  unfold apariciones. rewrite List.filter_app, length_app. simpl.
  by destruct (String.eqb a ua).
Qed.

Lemma apariciones_0 (uas : list string) (a : string) :
  apariciones uas a = 0 <-> a ∉ uas.
Proof.
  unfold apariciones. induction uas as [|u uas IH]; simpl.
  - split; [intros _; apply not_elem_of_nil | done].
  - rewrite not_elem_of_cons. destruct (String.eqb_spec a u) as [->|Hne]; simpl.
    + split; [done | intros [? _]; done].
    + rewrite IH. tauto.
Qed.

Lemma primeras_apariciones_snoc (uas : list string) (ua : string) :
  primeras_apariciones (uas ++ [ua])
  = if decide (ua ∈ uas) then primeras_apariciones uas
    else primeras_apariciones uas ++ [ua].
Proof.
  unfold primeras_apariciones. rewrite reverse_snoc. simpl.
  destruct (decide_rel elem_of ua (reverse uas)) as [Hin|Hnin].
  - rewrite decide_True; [done|]. by apply elem_of_reverse.
  - rewrite decide_False; [|by rewrite <- elem_of_reverse].
    by rewrite reverse_cons.
Qed.

Lemma elem_of_primeras_apariciones (uas : list string) (a : string) :
  a ∈ primeras_apariciones uas <-> a ∈ uas.
Proof.
  unfold primeras_apariciones.
  by rewrite elem_of_reverse, elem_of_remove_dups, elem_of_reverse.
Qed.

Lemma NoDup_primeras_apariciones (uas : list string) :
  NoDup (primeras_apariciones uas).
Proof.
  unfold primeras_apariciones. rewrite reverse_Permutation. apply NoDup_remove_dups.
Qed.

Lemma length_primeras_apariciones (uas : list string) :
  length (primeras_apariciones uas) = distintos uas.
Proof.
  unfold distintos. apply Permutation_length, NoDup_Permutation.
  - apply NoDup_primeras_apariciones.
  - apply NoDup_remove_dups.
  - intros a. by rewrite elem_of_primeras_apariciones, elem_of_remove_dups.
Qed.

Lemma tabla_agentes_snoc (uas : list string) (ua : string) :
  tabla_agentes (uas ++ [ua]) = contar_agente ua (tabla_agentes uas).
Proof. unfold tabla_agentes. by rewrite fold_left_app. Qed.

Lemma set_update_get {V : Type} (k : string) (f : V -> V) (v : V) (m : JsMap V) :
  JsMap.get k m = Some v -> JsMap.set k (f v) m = JsMap.update k f m.
Proof.
  induction m as [|[k1 v1] m IH]; simpl; [done|].
  destruct (String.eqb k1 k); [by intros [= ->]|].
  intros H. by rewrite IH.
Qed.

Lemma heredada_proto (ua : string) : heredada ua = false -> String.eqb ua "__proto__" = false.
Proof.
  intros H. destruct (String.eqb_spec ua "__proto__") as [->|]; [|done].
  by vm_compute in H.
Qed.

(** A table whose counters are positive counts is updated like any other
    table by an agent that names no inherited member. *)
Lemma contar_agente_upsert (ua : string) (m : Objeto) :
  heredada ua = false ->
  (forall c, JsMap.get ua m = Some c -> exists n, c = Cuenta (S n)) ->
  contar_agente ua m = upsert ua (Cuenta 0) sucesor m.
Proof.
  intros Hh Hc. pose proof (heredada_proto ua Hh) as Hp.
  unfold contar_agente, upsert, leer, escribir, JsMap.has.
  destruct (JsMap.get ua m) as [c|] eqn:E.
  - destruct (Hc c eq_refl) as [n ->]. cbn [falsy negb andb]. rewrite E.
    cbn [negb andb a_numero]. by apply set_update_get.
  - rewrite Hh. cbn [falsy negb andb]. rewrite Hp. cbn [negb andb].
    rewrite !get_set. destruct (decide (ua = ua)); [|done].
    cbn [negb andb a_numero].
    apply (set_update_get ua sucesor (Cuenta 0)).
    rewrite get_set. by destruct (decide (ua = ua)).
Qed.

(** The table of agents that name no inherited member holds the distinct
    agents by first appearance, each with the number of its occurrences. *)
Lemma tabla_agentes_spec (uas : list string) :
  Forall (fun ua => heredada ua = false) uas ->
  JsMap.keys (tabla_agentes uas) = primeras_apariciones uas
  /\ forall a, JsMap.get a (tabla_agentes uas)
               = if apariciones uas a =? 0 then None
                 else Some (Cuenta (apariciones uas a)).
Proof.
  induction uas as [|ua uas IH] using rev_ind; [done|].
  intros [Huas Hua]%Forall_app. rewrite Forall_singleton in Hua.
  destruct (IH Huas) as [IHk IHg]. clear IH.
  rewrite tabla_agentes_snoc.
  rewrite (contar_agente_upsert _ _ Hua).
  2:{ intros c. rewrite IHg. destruct (apariciones uas ua) as [|n]; [done|].
      intros [= <-]. by exists n. }
  split.
  - rewrite keys_upsert, primeras_apariciones_snoc, IHk.
    unfold JsMap.has. rewrite IHg.
    destruct (Nat.eqb_spec (apariciones uas ua) 0) as [H0|H0].
    + apply apariciones_0 in H0. by rewrite decide_False.
    + rewrite decide_True; [done|].
      destruct (decide (ua ∈ uas)) as [|Hn]; [done|].
      by apply apariciones_0 in Hn.
  - intros a. rewrite get_upsert, apariciones_snoc, !IHg.
    destruct (String.eqb_spec a ua) as [->|Hne].
    + rewrite decide_True by done.
      destruct (Nat.eqb_spec (apariciones uas ua) 0) as [->|H0]; simpl; [done|].
      destruct (Nat.eqb_spec (apariciones uas ua + 1) 0); [lia|].
      do 2 f_equal. lia.
    + rewrite decide_False by done. by rewrite Nat.add_0_r.
Qed.

Lemma values_get {V : Type} (m : JsMap V) (g : string -> V) :
  NoDup (JsMap.keys m) ->
  (forall k v, JsMap.get k m = Some v -> v = g k) ->
  JsMap.values m = List.map g (JsMap.keys m).
Proof.
  intros Hnd Hg.
  assert (H : forall k v, (k, v) ∈ m -> v = g k).
  { intros k v Hin. apply Hg. by apply get_elem_of. }
  clear Hnd Hg. induction m as [|[k v] m IH]; simpl; [done|].
  f_equal.
  - apply H. by left.
  - apply IH. intros k' v' Hin. apply H. by right.
Qed.

Lemma values_tabla_agentes (uas : list string) :
  Forall (fun ua => heredada ua = false) uas ->
  JsMap.values (tabla_agentes uas)
  = List.map (fun a => Cuenta (apariciones uas a)) (primeras_apariciones uas).
Proof.
  intros Huas. destruct (tabla_agentes_spec uas Huas) as [Hk Hg].
  rewrite <- Hk. apply values_get.
  - rewrite Hk. apply NoDup_primeras_apariciones.
  - intros k v. rewrite Hg. destruct (_ =? 0); congruence.
Qed.

(** An object without array indices among its keys is enumerated in
    creation order. *)
Lemma propiedades_sin_indices (o : Objeto) :
  Forall (fun k => es_indice k = false) (JsMap.keys o) -> propiedades o = o.
Proof.
  intros H. unfold propiedades.
  assert (Hom : omap (fun e : string * contador =>
                        match indice (fst e) with
                        | Some n => Some (n, e)
                        | None => None
                        end) o = []).
  { induction o as [|[k c] o IH]; [done|].
    simpl in H. apply Forall_cons in H as [Hk Ho]. simpl.
    unfold es_indice in Hk. destruct (indice k); [done|]. by apply IH. }
  rewrite Hom. simpl. apply filter_all.
  intros [k c] Hin. apply negb_true_iff.
  rewrite List.Forall_forall in H. apply H.
  apply list_elem_of_In. apply list_elem_of_fmap. by exists (k, c).
Qed.

Lemma elemento_indexOf {A : Type} (g : A -> nat) (l : list A) (x : nat) :
  elemento l (indexOf (List.map (fun a => Cuenta (g a)) l) (Cuenta x))
  = List.find (fun a => g a =? x) l.
Proof.
  unfold elemento. induction l as [|a l IH]; simpl; [done|].
  destruct (g a =? x); [done|].
  set (i := indexOf (List.map (fun a => Cuenta (g a)) l) (Cuenta x)) in *.
  destruct (Z.ltb_spec i 0) as [Hlt|Hge].
  - simpl. by rewrite <- IH.
  - rewrite <- IH.
    destruct (Z.ltb_spec (i + 1) 0) as [?|_]; [lia|].
    replace (Z.to_nat (i + 1)) with (S (Z.to_nat i)) by lia.
    done.
Qed.

Lemma suma_frecuencias_Cuenta (l : list nat) :
  suma_frecuencias (List.map Cuenta l) = Cuenta (sum_list l).
Proof.
  unfold suma_frecuencias.
  assert (H : forall n, fold_left suma_contador (List.map Cuenta l) (Cuenta n)
                        = Cuenta (n + sum_list l)).
  { induction l as [|x l IH]; intros n; simpl; [by rewrite Nat.add_0_r|].
    rewrite IH. f_equal. lia. }
  apply H.
Qed.

Lemma Math_max_Cuenta (l : list nat) :
  l <> [] -> Math_max (List.map Cuenta l) = Cuenta (list_max l).
Proof.
  unfold Math_max.
  assert (H : forall l n, fold_left max_contador (List.map Cuenta l) (Cuenta n)
                          = Cuenta (Nat.max n (list_max l))).
  { clear l. induction l as [|x l IH]; intros n; simpl; [by rewrite Nat.max_0_r|].
    rewrite IH. f_equal. lia. }
  destruct l as [|x l]; [done|]. intros _. simpl. by rewrite H.
Qed.

Lemma get_userAgentsPorIP (config : Config) (logs : list LogRecord) (ip0 : string) :
  JsMap.get ip0 (userAgentsPorIP (agregar config logs))
  = match logs_de_ip ip0 logs with
    | [] => None
    | rel => Some (tabla_agentes (List.map user_agent rel))
    end.
Proof.
  rewrite userAgentsPorIP_agregar, get_tabla.
  change (aportes (fun _ => true) ip ip0 logs) with (logs_de_ip ip0 logs).
  destruct (logs_de_ip ip0 logs) as [|l0 rel]; [done|].
  f_equal. unfold tabla_agentes.
  generalize (@nil (string * contador)). generalize (l0 :: rel).
  induction l as [|x l IH]; intros m; simpl; [done|]. apply IH.
Qed.

Lemma find_first_split {A : Type} (p : A -> bool) (l : list A) (x : A) :
  x ∈ l -> p x = true ->
  exists a l1 l2,
    List.find p l = Some a /\ l = l1 ++ a :: l2 /\ p a = true
    /\ forall b, b ∈ l1 -> p b = false.
Proof.
  induction l as [|y l IH]; intros Hin Hp; [by apply elem_of_nil in Hin|].
  simpl. destruct (p y) eqn:Ey.
  - exists y, [], l. repeat split; try done. by intros b ?%elem_of_nil.
  - apply elem_of_cons in Hin as [->|Hin]; [congruence|].
    destruct (IH Hin Hp) as (a & l1 & l2 & Hf & -> & Ha & Hl1).
    exists a, (y :: l1), l2. repeat split; try done.
    intros b [->|Hb]%elem_of_cons; [done | by apply Hl1].
Qed.

Lemma list_max_attained {A : Type} (g : A -> nat) (l : list A) :
  l <> [] -> exists x, x ∈ l /\ g x = list_max (List.map g l).
Proof.
  induction l as [|y l IH]; [done|]. intros _.
  destruct l as [|z l].
  - exists y. split; [by left|]. simpl. lia.
  - destruct IH as (x & Hx & Hgx); [done|].
    change (list_max (List.map g (y :: z :: l)))
      with (Nat.max (g y) (list_max (List.map g (z :: l)))).
    destruct (Nat.max_spec (g y) (list_max (List.map g (z :: l)))) as [[_ ->]|[_ ->]].
    + exists x. split; [by right | done].
    + exists y. split; [by left | done].
Qed.

(** The most common agent has the largest count, and every agent that
    entered the table before it has a strictly smaller one. *)
Lemma agente_mas_comun_spec (uas : list string) :
  uas <> [] ->
  exists a antes despues,
    agente_mas_comun uas = Some a
    /\ primeras_apariciones uas = antes ++ a :: despues
    /\ (forall b, b ∈ antes -> apariciones uas b < apariciones uas a)
    /\ (forall b, b ∈ despues -> apariciones uas b <= apariciones uas a).
Proof.
  intros Hne. unfold agente_mas_comun, frecuencias_de.
  set (l := primeras_apariciones uas). set (g := apariciones uas).
  assert (Hl : l <> []).
  { destruct uas as [|u uas]; [done|]. intros Hnil.
    assert (Hu : u ∈ l) by (apply elem_of_primeras_apariciones; by left).
    rewrite Hnil in Hu. by apply elem_of_nil in Hu. }
  assert (Hmax : forall b, b ∈ l -> g b <= list_max (List.map g l)).
  { intros b Hb. pose proof (proj1 (list_max_le (List.map g l) _) (Nat.le_refl _)) as Hall.
    rewrite List.Forall_forall in Hall. apply Hall, in_map. by apply list_elem_of_In. }
  destruct (list_max_attained g l Hl) as (x & Hx & Hgx).
  destruct (find_first_split (fun a => g a =? list_max (List.map g l)) l x Hx)
    as (a & l1 & l2 & Hf & Hsplit & Ha & Hl1); [by apply Nat.eqb_eq|].
  apply Nat.eqb_eq in Ha. exists a, l1, l2. repeat split; try done.
  - intros b Hb. pose proof (Hl1 b Hb) as Hneq. apply Nat.eqb_neq in Hneq.
    assert (g b <= list_max (List.map g l)).
    { apply Hmax. rewrite Hsplit. apply elem_of_app. by left. }
    lia.
  - intros b Hb. rewrite Ha. apply Hmax. rewrite Hsplit.
    apply elem_of_app. right. by right.
Qed.

Lemma multiples_agentes_de_forma (config : Config) (logs : list LogRecord) (ip0 : string) :
  multiples_agentes_de ip0 (detectarActividadSospechosa logs config)
  = match JsMap.get ip0 (userAgentsPorIP (agregar config logs)) with
    | Some ua_map => hallazgo7 (ip0, ua_map)
    | None => []
    end.
Proof.
  unfold multiples_agentes_de. rewrite reporte_forma. simpl.
  rewrite List.filter_app.
  rewrite (filter_none _ (flat_map hallazgo8 _)), app_nil_r.
  - apply filter_flat_map_get.
    + rewrite userAgentsPorIP_agregar. apply NoDup_keys_tabla.
    + intros e x. unfold hallazgo7.
      destruct (_ <? _); [|by intros ?%elem_of_nil].
      by intros ->%list_elem_of_singleton.
  - intros x [e [_ Hx]]%list_elem_of_In%in_flat_map. revert Hx. unfold hallazgo8.
    destruct (tiempos_irregulares _); [|done]. by intros [<-|[]].
Qed.

Lemma apariciones_cons (a : string) (l : list string) (u : string) :
  apariciones (a :: l) u = (if String.eqb u a then 1 else 0) + apariciones l u.
Proof. unfold apariciones. simpl. by destruct (String.eqb u a). Qed.

Lemma apariciones_NoDup (l : list string) (a : string) :
  NoDup l -> a ∈ l -> apariciones l a = 1.
Proof.
  induction 1 as [|x l Hx Hnd IH]; intros Hin; [by apply elem_of_nil in Hin|].
  rewrite apariciones_cons. destruct (String.eqb_spec a x) as [->|Hne].
  - apply apariciones_0 in Hx. lia.
  - apply elem_of_cons in Hin as [?|Hin]; [done|]. by rewrite IH.
Qed.

Lemma sum_list_apariciones (uas : list string) :
  sum_list (List.map (apariciones uas) (primeras_apariciones uas)) = length uas.
Proof.
  induction uas as [|ua uas IH] using rev_ind; [done|].
  rewrite length_app, Nat.add_comm. cbn [length]. rewrite <- IH.
  assert (Hsum : forall l, sum_list (List.map (apariciones (uas ++ [ua])) l)
                           = sum_list (List.map (apariciones uas) l)
                             + apariciones l ua).
  { induction l as [|a l IHl]; [done|]. cbn [List.map sum_list].
    rewrite IHl, apariciones_snoc, apariciones_cons, (String.eqb_sym ua a).
    unfold id. destruct (String.eqb a ua); lia. }
  rewrite primeras_apariciones_snoc, Hsum.
  destruct (decide (ua ∈ uas)) as [Hin|Hnin].
  - assert (Hone : apariciones (primeras_apariciones uas) ua = 1); [|lia].
    apply apariciones_NoDup; [apply NoDup_primeras_apariciones|].
    by apply elem_of_primeras_apariciones.
  - rewrite map_app, sum_list_with_app.
    assert (H0 : apariciones uas ua = 0) by (by apply apariciones_0).
    simpl (sum_list (List.map (apariciones uas) [ua])). rewrite H0.
    assert (H1 : apariciones (primeras_apariciones uas ++ [ua]) ua = 1).
    { apply apariciones_NoDup.
      - rewrite <- (decide_False (P := ua ∈ uas) (primeras_apariciones uas)
                      (primeras_apariciones uas ++ [ua]) Hnin).
        rewrite <- primeras_apariciones_snoc. apply NoDup_primeras_apariciones.
      - apply elem_of_app. right. by left. }
    unfold id. lia.
Qed.

(** The finding computed from the table of agents that are ordinary keys:
    one anomaly when they are more than 5 distinct agents, with their
    number, the number of requests, and the first agent, by first
    appearance, whose count is the largest. *)
Lemma hallazgo7_tabla_ordinaria (ip0 : string) (l : list string) :
  Forall (fun ua => ordinario ua = true) l ->
  hallazgo7 (ip0, tabla_agentes l)
  = if 5 <? distintos l then
      [MultiplesUserAgents ip0 (distintos l) (agente_mas_comun l) (Cuenta (length l))]
    else [].
Proof.
  intros Hord.
  assert (Hh : Forall (fun ua => heredada ua = false) l).
  { eapply Forall_impl; [exact Hord|]. intros ua H. unfold ordinario in H.
    apply andb_true_iff in H as [H _]. by apply negb_true_iff. }
  destruct (tabla_agentes_spec l Hh) as [Hk _].
  assert (Hprop : propiedades (tabla_agentes l) = tabla_agentes l).
  { apply propiedades_sin_indices. rewrite Hk.
    apply Forall_forall. intros a Ha.
    apply (proj1 (elem_of_primeras_apariciones _ _)) in Ha.
    rewrite Forall_forall in Hord. specialize (Hord a Ha).
    unfold ordinario in Hord. apply andb_true_iff in Hord as [_ H].
    by apply negb_true_iff. }
  unfold hallazgo7, Object_keys, Object_values. cbn [fst snd]. rewrite Hprop.
  fold (JsMap.keys (tabla_agentes l)). fold (JsMap.values (tabla_agentes l)).
  rewrite Hk, (values_tabla_agentes l Hh), length_primeras_apariciones.
  destruct (5 <? distintos l) eqn:E; [|done].
  rewrite <- (map_map (apariciones l) Cuenta).
  rewrite suma_frecuencias_Cuenta, sum_list_apariciones.
  rewrite Math_max_Cuenta.
  - rewrite (map_map (apariciones l) Cuenta), elemento_indexOf. done.
  - intros Hnil. apply map_eq_nil in Hnil.
    assert (Hlen : length (primeras_apariciones l) = 0) by (by rewrite Hnil).
    rewrite length_primeras_apariciones in Hlen. rewrite Hlen in E. done.
Qed.

(** For an IP whose user agents are ordinary keys the report holds one
    many-agents anomaly exactly when the IP used more than 5 distinct user
    agents. *)
Lemma multiples_agentes_ordinarios
    (logs : list LogRecord) (config : Config) (ip0 : string) :
  let uas := List.map user_agent (logs_de_ip ip0 logs) in
  Forall (fun ua => ordinario ua = true) uas ->
  multiples_agentes_de ip0 (detectarActividadSospechosa logs config)
  = if 5 <? distintos uas then
      [MultiplesUserAgents ip0 (distintos uas) (agente_mas_comun uas)
         (Cuenta (length uas))]
    else [].
Proof.
  intros uas Hord.
  rewrite multiples_agentes_de_forma, get_userAgentsPorIP. unfold uas in *.
  destruct (logs_de_ip ip0 logs) as [|l0 rel]; [done|].
  by apply hallazgo7_tabla_ordinaria.
Qed.






(** C6.  Six requests of one IP carry six distinct user agents, one of
    them [constructor], each once.  The anomaly of the report counts the
    six agents, but its total is NaN instead of 6 and it names no most
    common agent: the table is a plain object, whose inherited member
    [constructor] is taken for a counter. *)
Theorem C6_inherited_agent_name :
  let uas := List.map user_agent (logs_de_ip "10.0.0.9" lote_agente_heredado) in
  distintos uas = 6
  /\ sum_list (frecuencias_de uas) = 6
  /\ agente_mas_comun uas = Some "constructor"
  /\ detect lote_agente_heredado (politica 60 5 60000)
     = Returned (detectarActividadSospechosa lote_agente_heredado (politica 60 5 60000))
  /\ multiples_agentes_de "10.0.0.9"
       (detectarActividadSospechosa lote_agente_heredado (politica 60 5 60000))
     = [MultiplesUserAgents "10.0.0.9" 6 None NoNumero].
Proof.
  repeat split; vm_compute; reflexivity.
Qed.

(** ** C7: irregular response times *)









(** Four samples of 3 followed by nine of 0: the deviation rounds to
    1.3846153846153848, above the threshold 1.3846153846153846, although
    the exact deviation equals the exact threshold; with the zeros first
    the two round to the same double. *)
Example muestras_en_el_umbral :
  let xs := [3; 3; 3; 3; 0; 0; 0; 0; 0; 0; 0; 0; 0]%Q in
  let ys := [0; 0; 0; 0; 0; 0; 0; 0; 0; 3; 3; 3; 3]%Q in
  desv_estandar xs = Finite (6235753330205303 # 4503599627370496)
  /\ js_mul (promedio xs) (Finite (3 # 2)) = Finite (3117876665102651 # 2251799813685248)
  /\ tiempos_irregulares xs = true
  /\ tiempos_irregulares ys = false.
Proof. repeat split; vm_compute; reflexivity. Qed.

(** Six equal samples of 1e200: their mean rounds below the sample, and
    the squared deviation overflows. *)
Example muestras_iguales_grandes :
  let x := inject_Z 99999999999999996973312221251036165947450327545502362648241750950346848435554075534196338404706251868027512415973882408182135734368278484639385041047239877871023591066789981811181813306167128854888448 in
  es_double x = true
  /\ desv_estandar [x; x; x; x; x; x] = PosInfinity
  /\ tiempos_irregulares [x; x; x; x; x; x] = true.
Proof. repeat split; vm_compute; reflexivity. Qed.




(** ** The cache: writes to the store *)

Lemma shell_refl (c : LRU.LRUCache) : shell c c.
Proof. by repeat split. Qed.

Lemma shell_trans (c1 c2 c3 : LRU.LRUCache) : shell c1 c2 -> shell c2 c3 -> shell c1 c3.
Proof.
  intros (H1 & H2 & H3 & H4 & H5) (G1 & G2 & G3 & G4 & G5).
  repeat split; congruence.
Qed.

Section store_writes.
Variables (c : LRU.LRUCache) (a : nat) (nd : LRU.Node).
Hypothesis Ha : a < length (LRU.nodes c).

Local Abbreviation c' := (LRU.with_nodes c (<[a := nd]> (LRU.nodes c))).

Lemma shell_insert : shell c c'.
Proof. repeat split. apply length_insert. Qed.

Lemma next_at_insert x :
  next_at c' x = if decide (x = a) then LRU.next nd else next_at c x.
Proof.
  unfold next_at. simpl. case_decide as Hx.
  - subst x. by rewrite list_lookup_insert_eq.
  - by rewrite list_lookup_insert_ne.
Qed.

Lemma prev_at_insert x :
  prev_at c' x = if decide (x = a) then LRU.prev nd else prev_at c x.
Proof.
  unfold prev_at. simpl. case_decide as Hx.
  - subst x. by rewrite list_lookup_insert_eq.
  - by rewrite list_lookup_insert_ne.
Qed.

Lemma entry_at_insert x :
  entry_at c' x
  = if decide (x = a) then Some (LRU.key nd, LRU.value nd) else entry_at c x.
Proof.
  unfold entry_at. simpl. case_decide as Hx.
  - subst x. by rewrite list_lookup_insert_eq.
  - by rewrite list_lookup_insert_ne.
Qed.
End store_writes.

Lemma write_next_spec (c : LRU.LRUCache) (a : nat) (v : option nat) :
  a < length (LRU.nodes c) ->
  exists c', LRU.write_next (Some a) v c = Some c'
    /\ shell c c'
    /\ (forall x, next_at c' x = if decide (x = a) then v else next_at c x)
    /\ (forall x, prev_at c' x = prev_at c x)
    /\ (forall x, entry_at c' x = entry_at c x).
Proof.
  intros Ha. destruct (lookup_lt_is_Some_2 _ _ Ha) as [nd Hnd].
  unfold LRU.write_next. simpl. rewrite Hnd. simpl. eexists. split; [done|].
  split; [by apply shell_insert|]. repeat split; intros x.
  - by rewrite next_at_insert.
  - rewrite prev_at_insert by done. case_decide; [subst x|done].
    unfold prev_at. by rewrite Hnd.
  - rewrite entry_at_insert by done. case_decide; [subst x|done].
    unfold entry_at. by rewrite Hnd.
Qed.

Lemma write_prev_spec (c : LRU.LRUCache) (a : nat) (v : option nat) :
  a < length (LRU.nodes c) ->
  exists c', LRU.write_prev (Some a) v c = Some c'
    /\ shell c c'
    /\ (forall x, next_at c' x = next_at c x)
    /\ (forall x, prev_at c' x = if decide (x = a) then v else prev_at c x)
    /\ (forall x, entry_at c' x = entry_at c x).
Proof.
  intros Ha. destruct (lookup_lt_is_Some_2 _ _ Ha) as [nd Hnd].
  unfold LRU.write_prev. simpl. rewrite Hnd. simpl. eexists. split; [done|].
  split; [by apply shell_insert|]. repeat split; intros x.
  - rewrite next_at_insert by done. case_decide; [subst x|done].
    unfold next_at. by rewrite Hnd.
  - by rewrite prev_at_insert.
  - rewrite entry_at_insert by done. case_decide; [subst x|done].
    unfold entry_at. by rewrite Hnd.
Qed.

Lemma write_value_spec (c : LRU.LRUCache) (a : nat) (v : Z) (k : string) (v0 : Z) :
  entry_at c a = Some (k, v0) ->
  exists c', LRU.write_value (Some a) v c = Some c'
    /\ shell c c'
    /\ (forall x, next_at c' x = next_at c x)
    /\ (forall x, prev_at c' x = prev_at c x)
    /\ (forall x, entry_at c' x = if decide (x = a) then Some (k, v) else entry_at c x).
Proof.
  intros He. unfold entry_at in He.
  destruct (LRU.nodes c !! a) as [nd|] eqn:Hnd; [|done].
  assert (Ha : a < length (LRU.nodes c)) by (by eapply lookup_lt_Some).
  injection He as Hk _.
  unfold LRU.write_value. simpl. rewrite Hnd. simpl. eexists. split; [done|].
  split; [by apply shell_insert|]. repeat split; intros x.
  - rewrite next_at_insert by done. case_decide; [subst x|done].
    unfold next_at. by rewrite Hnd.
  - rewrite prev_at_insert by done. case_decide; [subst x|done].
    unfold prev_at. by rewrite Hnd.
  - rewrite entry_at_insert by done. simpl. by rewrite Hk.
Qed.

Lemma read_prev (c : LRU.LRUCache) (a : nat) (p : option nat) :
  a < length (LRU.nodes c) -> prev_at c a = p ->
  exists nd, LRU.read c (Some a) = Some nd /\ LRU.prev nd = p.
Proof.
  intros Ha Hp. destruct (lookup_lt_is_Some_2 _ _ Ha) as [nd Hnd].
  exists nd. unfold prev_at in Hp. rewrite Hnd in Hp. by split.
Qed.

(** ** The cache: unlinking and appending a node *)

#[local] Arguments LRU.write_prev : simpl never.
#[local] Arguments LRU.write_next : simpl never.
#[local] Arguments LRU.write_value : simpl never.
#[local] Arguments LRU.read : simpl never.

Lemma removeNode_spec (c : LRU.LRUCache) (a p q : nat) :
  a < length (LRU.nodes c) -> p < length (LRU.nodes c) -> q < length (LRU.nodes c) ->
  prev_at c a = Some p -> next_at c a = Some q ->
  exists c', LRU._removeNode c (Some a) = Some c'
    /\ shell c c'
    /\ (forall x, next_at c' x = if decide (x = p) then Some q else next_at c x)
    /\ (forall x, prev_at c' x = if decide (x = q) then Some p else prev_at c x)
    /\ (forall x, entry_at c' x = entry_at c x).
Proof.
  intros Ha Hp Hq Hprev Hnext.
  destruct (lookup_lt_is_Some_2 _ _ Ha) as [nd Hnd].
  unfold prev_at in Hprev. unfold next_at in Hnext. rewrite Hnd in Hprev, Hnext.
  simpl in Hprev, Hnext.
  destruct (write_next_spec c p (Some q) Hp) as (c1 & Hw1 & Hs1 & Hn1 & Hp1 & He1).
  assert (Hq1 : q < length (LRU.nodes c1)) by (destruct Hs1 as (_ & _ & _ & _ & ->); done).
  destruct (write_prev_spec c1 q (Some p) Hq1) as (c2 & Hw2 & Hs2 & Hn2 & Hp2 & He2).
  exists c2. unfold LRU._removeNode.
  replace (LRU.read c (Some a)) with (Some nd) by (by unfold LRU.read; simpl).
  simpl. rewrite Hprev, Hnext, Hw1. simpl. rewrite Hw2.
  split; [done|]. split; [by eapply shell_trans|]. repeat split; intros x.
  - by rewrite Hn2, Hn1.
  - by rewrite Hp2, Hp1.
  - by rewrite He2, He1.
Qed.

Lemma addToEnd_spec (c : LRU.LRUCache) (a p : nat) :
  a < length (LRU.nodes c) -> p < length (LRU.nodes c) ->
  LRU.tail c < length (LRU.nodes c) ->
  a <> LRU.tail c ->
  prev_at c (LRU.tail c) = Some p ->
  exists c', LRU._addToEnd c (Some a) = Some c'
    /\ shell c c'
    /\ (forall x, next_at c' x
                  = if decide (x = p) then Some a
                    else if decide (x = a) then Some (LRU.tail c)
                    else next_at c x)
    /\ (forall x, prev_at c' x
                  = if decide (x = LRU.tail c) then Some a
                    else if decide (x = a) then Some p
                    else prev_at c x)
    /\ (forall x, entry_at c' x = entry_at c x).
Proof.
  intros Ha Hp Ht Hat Hprev.
  destruct (read_prev c (LRU.tail c) (Some p) Ht Hprev) as (t & Hrt & Hpt).
  destruct (write_prev_spec c a (Some p) Ha) as (c1 & Hw1 & Hs1 & Hn1 & Hp1 & He1).
  pose proof Hs1 as (_ & _ & _ & Ht1 & Hl1).
  assert (Ha1 : a < length (LRU.nodes c1)) by (by rewrite Hl1).
  destruct (write_next_spec c1 a (Some (LRU.tail c1)) Ha1)
    as (c2 & Hw2 & Hs2 & Hn2 & Hp2 & He2).
  pose proof Hs2 as (_ & _ & _ & Ht2 & Hl2).
  assert (Hprev2 : prev_at c2 (LRU.tail c2) = Some p).
  { rewrite Hp2, Hp1, Ht2, Ht1. by rewrite decide_False. }
  assert (Htl2 : LRU.tail c2 < length (LRU.nodes c2)) by (by rewrite Ht2, Ht1, Hl2, Hl1).
  destruct (read_prev c2 (LRU.tail c2) (Some p) Htl2 Hprev2) as (t2 & Hrt2 & Hpt2).
  assert (Hp2' : p < length (LRU.nodes c2)) by (by rewrite Hl2, Hl1).
  destruct (write_next_spec c2 p (Some a) Hp2') as (c3 & Hw3 & Hs3 & Hn3 & Hp3 & He3).
  pose proof Hs3 as (_ & _ & _ & Ht3 & Hl3).
  assert (Htl3 : LRU.tail c3 < length (LRU.nodes c3)) by (by rewrite Ht3, Hl3).
  destruct (write_prev_spec c3 (LRU.tail c3) (Some a) Htl3)
    as (c4 & Hw4 & Hs4 & Hn4 & Hp4 & He4).
  exists c4. unfold LRU._addToEnd.
  rewrite Hrt. simpl. rewrite Hpt, Hw1. simpl. rewrite Hw2. simpl.
  rewrite Hrt2. simpl. rewrite Hpt2, Hw3. simpl. rewrite Hw4.
  split; [done|].
  split; [eauto using shell_trans|]. repeat split; intros x.
  - rewrite Hn4, Hn3, Hn2, Hn1, Ht1. done.
  - rewrite Hp4, Hp3, Hp2, Hp1, Ht3, Ht2, Ht1. done.
  - by rewrite He4, He3, He2, He1.
Qed.

(** ** The cache: the list after unlinking and appending *)

Lemma linked_delete (c c' : LRU.LRUCache) (l : list nat) (i p a q : nat) :
  NoDup l -> linked c l ->
  l !! i = Some p -> l !! S i = Some a -> l !! S (S i) = Some q ->
  (forall x, next_at c' x = if decide (x = p) then Some q else next_at c x) ->
  (forall x, prev_at c' x = if decide (x = q) then Some p else prev_at c x) ->
  linked c' (delete (S i) l).
Proof.
  intros Hnd Hl Hp Ha Hq Hn Hpr j x y Hx Hy.
  rewrite Hn, Hpr.
  destruct (decide (j < i)) as [Hlt|Hge].
  - rewrite list_lookup_delete_lt in Hx, Hy by lia.
    destruct (Hl j x y Hx Hy) as [Hxy Hyx].
    rewrite decide_False, decide_False; [done| |].
    + intros ->. pose proof (NoDup_lookup _ _ _ _ Hnd Hy Hq). lia.
    + intros ->. pose proof (NoDup_lookup _ _ _ _ Hnd Hx Hp). lia.
  - destruct (decide (j = i)) as [->|Hne].
    + rewrite list_lookup_delete_lt in Hx by lia.
      rewrite list_lookup_delete_ge in Hy by lia.
      assert (x = p) as -> by congruence. assert (y = q) as -> by congruence.
      by rewrite !decide_True.
    + rewrite list_lookup_delete_ge in Hx, Hy by lia.
      destruct (Hl (S j) x y Hx Hy) as [Hxy Hyx].
      rewrite decide_False, decide_False; [done| |].
      * intros ->. pose proof (NoDup_lookup _ _ _ _ Hnd Hy Hq). lia.
      * intros ->. pose proof (NoDup_lookup _ _ _ _ Hnd Hx Hp). lia.
Qed.

Lemma linked_snoc (c c' : LRU.LRUCache) (pre : list nat) (t a p : nat) :
  NoDup (pre ++ [t]) -> a ∉ pre ++ [t] -> linked c (pre ++ [t]) ->
  last pre = Some p ->
  (forall x, next_at c' x
             = if decide (x = p) then Some a
               else if decide (x = a) then Some t else next_at c x) ->
  (forall x, prev_at c' x
             = if decide (x = t) then Some a
               else if decide (x = a) then Some p else prev_at c x) ->
  linked c' (pre ++ [a; t]).
Proof.
  intros Hnd Ha Hl Hlast Hn Hpr j x y Hx Hy.
  rewrite last_lookup in Hlast.
  assert (Hpre : 0 < length pre).
  { destruct pre; [done|simpl; lia]. }
  apply NoDup_app in Hnd as (Hndpre & Hdisj & _).
  assert (Hat : a <> t).
  { intros ->. apply Ha. apply elem_of_app. right. by left. }
  assert (Hapre : a ∉ pre).
  { intros Hin. apply Ha. apply elem_of_app. by left. }
  assert (Htpre : t ∉ pre).
  { intros Hin. apply (Hdisj t Hin). by left. }
  assert (Hppre : p ∈ pre) by (by eapply list_elem_of_lookup_2).
  rewrite Hn, Hpr.
  destruct (decide (S j < length pre)) as [Hlt|Hge].
  - rewrite lookup_app_l in Hx, Hy by lia.
    destruct (Hl j x y) as [Hxy Hyx]; [by rewrite lookup_app_l by lia..|].
    assert (x ∈ pre) by (by eapply list_elem_of_lookup_2).
    assert (y ∈ pre) by (by eapply list_elem_of_lookup_2).
    rewrite (decide_False (P := x = p)), (decide_False (P := x = a)),
      (decide_False (P := y = t)), (decide_False (P := y = a)); try done;
      try (intros ->; done).
    intros ->. pose proof (NoDup_lookup _ _ _ _ Hndpre Hx Hlast). lia.
  - destruct (decide (S j = length pre)) as [Heq|Hne].
    + rewrite lookup_app_l in Hx by lia.
      rewrite lookup_app_r in Hy by lia.
      replace (S j - length pre) with 0 in Hy by lia. simpl in Hy.
      replace (pred (length pre)) with j in Hlast by lia.
      assert (x = p) as -> by congruence. assert (y = a) as -> by congruence.
      rewrite decide_True by done. rewrite (decide_False (P := a = t)) by done.
      by rewrite decide_True.
    + rewrite lookup_app_r in Hx, Hy by lia.
      destruct (decide (j = length pre)) as [->|Hne'].
      * replace (length pre - length pre) with 0 in Hx by lia.
        replace (S (length pre) - length pre) with 1 in Hy by lia.
        simpl in Hx, Hy.
        assert (x = a) as -> by congruence. assert (y = t) as -> by congruence.
        rewrite (decide_False (P := a = p)) by (intros ->; done).
        by rewrite !decide_True.
      * apply lookup_lt_Some in Hy. simpl in Hy. lia.
Qed.

Lemma delete_snoc_lt {A : Type} (l : list A) (x : A) (j : nat) :
  j < length l -> delete j (l ++ [x]) = delete j l ++ [x].
Proof.
  revert j. induction l as [|y l IH]; intros j Hj; simpl in *; [lia|].
  destruct j as [|j]; [done|]. simpl. f_equal. apply IH. lia.
Qed.

Lemma cadena_shell (c c' : LRU.LRUCache) (ns : list nat) :
  shell c c' -> cadena c' ns = cadena c ns.
Proof. intros (_ & _ & Hh & Ht & _). unfold cadena. by rewrite Hh, Ht. Qed.

Lemma chain_ok_removeNode (c : LRU.LRUCache) (ns : list nat) (j a : nat) :
  chain_ok c ns -> ns !! j = Some a ->
  exists c', LRU._removeNode c (Some a) = Some c'
    /\ shell c c'
    /\ (forall x, entry_at c' x = entry_at c x)
    /\ chain_ok c' (delete j ns).
Proof.
  intros (Hnd & Hvalid & Hl) Ha.
  assert (Hj : j < length ns) by (by eapply lookup_lt_Some).
  assert (Hca : cadena c ns !! S j = Some a).
  { unfold cadena. simpl. by apply lookup_app_l_Some. }
  destruct (lookup_lt_is_Some_2 (cadena c ns) j) as [p Hp].
  { unfold cadena. simpl. rewrite length_app. simpl. lia. }
  destruct (lookup_lt_is_Some_2 (cadena c ns) (S (S j))) as [q Hq].
  { unfold cadena. simpl. rewrite length_app. simpl. lia. }
  destruct (Hl j p a Hp Hca) as [_ Hprev].
  destruct (Hl (S j) a q Hca Hq) as [Hnext _].
  destruct (removeNode_spec c a p q) as (c' & Hrm & Hs & Hn & Hpr & He); try done;
    try (apply Hvalid; by eapply list_elem_of_lookup_2).
  exists c'. split; [done|]. split; [done|]. split; [done|].
  assert (Hcad : cadena c' (delete j ns) = delete (S j) (cadena c ns)).
  { rewrite (cadena_shell c c') by done. unfold cadena. simpl.
    by rewrite delete_snoc_lt. }
  unfold chain_ok. rewrite Hcad. split; [|split].
  - eapply sublist_NoDup; [done | apply sublist_delete].
  - intros x Hx. destruct Hs as (_ & _ & _ & _ & ->).
    apply Hvalid. by eapply list_elem_of_delete_inv.
  - by eapply linked_delete.
Qed.

Lemma chain_ok_addToEnd (c : LRU.LRUCache) (ns : list nat) (a : nat) :
  chain_ok c ns -> a < length (LRU.nodes c) -> a ∉ cadena c ns ->
  exists c', LRU._addToEnd c (Some a) = Some c'
    /\ shell c c'
    /\ (forall x, entry_at c' x = entry_at c x)
    /\ chain_ok c' (ns ++ [a]).
Proof.
  intros (Hnd & Hvalid & Hl) Ha Hnotin.
  set (pre := LRU.head c :: ns).
  assert (Hcad : cadena c ns = pre ++ [LRU.tail c]) by done.
  destruct (lookup_lt_is_Some_2 pre (pred (length pre))) as [p Hp].
  { simpl. lia. }
  assert (Hlast : last pre = Some p) by (by rewrite last_lookup).
  assert (Hprev : prev_at c (LRU.tail c) = Some p).
  { apply (Hl (pred (length pre)) p (LRU.tail c)).
    - rewrite Hcad. by apply lookup_app_l_Some.
    - rewrite Hcad. replace (S (pred (length pre))) with (length pre) by (simpl; lia).
      by rewrite list_lookup_middle. }
  assert (Hpin : p ∈ cadena c ns).
  { rewrite Hcad. apply elem_of_app. left. by eapply list_elem_of_lookup_2. }
  assert (Htin : LRU.tail c ∈ cadena c ns).
  { rewrite Hcad. apply elem_of_app. right. by left. }
  destruct (addToEnd_spec c a p) as (c' & Hadd & Hs & Hn & Hpr & He); try done;
    try (by apply Hvalid).
  { intros ->. done. }
  exists c'. split; [done|]. split; [done|]. split; [done|].
  assert (Hcad' : cadena c' (ns ++ [a]) = pre ++ [a; LRU.tail c]).
  { rewrite (cadena_shell c c') by done. unfold cadena, pre. simpl.
    by rewrite <- app_assoc. }
  unfold chain_ok. rewrite Hcad'. split; [|split].
  - rewrite <- Permutation_middle. apply NoDup_cons. by rewrite <- Hcad.
  - intros x Hx. destruct Hs as (_ & _ & _ & _ & ->).
    apply elem_of_app in Hx as [Hx|Hx].
    + apply Hvalid. rewrite Hcad. apply elem_of_app. by left.
    + apply elem_of_cons in Hx as [->|Hx]; [done|].
      apply Hvalid. rewrite Hcad. apply elem_of_app. by right.
  - rewrite Hcad in Hnd, Hnotin, Hl. by eapply linked_snoc.
Qed.

(** ** The cache: the invariant and the list of pairs *)

Lemma chain_ok_ext (c c' : LRU.LRUCache) (ns : list nat) :
  LRU.head c' = LRU.head c -> LRU.tail c' = LRU.tail c ->
  length (LRU.nodes c) <= length (LRU.nodes c') ->
  (forall x, x < length (LRU.nodes c) ->
     next_at c' x = next_at c x /\ prev_at c' x = prev_at c x) ->
  chain_ok c ns -> chain_ok c' ns.
Proof.
  intros Hh Ht Hlen Hsame (Hnd & Hvalid & Hl).
  assert (Hcad : cadena c' ns = cadena c ns) by (unfold cadena; by rewrite Hh, Ht).
  unfold chain_ok. rewrite Hcad. split; [done|]. split.
  - intros a Ha. specialize (Hvalid a Ha). lia.
  - intros i a b Ha Hb. destruct (Hl i a b Ha Hb) as [Hn Hp].
    destruct (Hsame a) as [-> _]; [apply Hvalid; by eapply list_elem_of_lookup_2|].
    destruct (Hsame b) as [_ ->]; [apply Hvalid; by eapply list_elem_of_lookup_2|].
    done.
Qed.

Lemma contenido_ext (c c' : LRU.LRUCache) (ns : list nat) :
  (forall x, x ∈ ns -> entry_at c' x = entry_at c x) ->
  contenido c' ns = contenido c ns.
Proof.
  intros H. unfold contenido. apply map_ext_in. intros a Ha.
  rewrite H; [done|]. by apply list_elem_of_In.
Qed.

Lemma inv_entry (c : LRU.LRUCache) (ns : list nat) (a : nat) :
  chain_ok c ns -> a ∈ ns -> exists k v, entry_at c a = Some (k, v).
Proof.
  intros (_ & Hvalid & _) Ha.
  destruct (lookup_lt_is_Some_2 (LRU.nodes c) a) as [nd Hnd].
  { apply Hvalid. unfold cadena. right. apply elem_of_app. by left. }
  exists (LRU.key nd), (LRU.value nd). unfold entry_at. by rewrite Hnd.
Qed.

Lemma read_entry (c : LRU.LRUCache) (a : nat) (k : string) (v : Z) :
  entry_at c a = Some (k, v) ->
  exists nd, LRU.read c (Some a) = Some nd /\ LRU.key nd = k /\ LRU.value nd = v.
Proof.
  unfold entry_at, LRU.read. simpl.
  destruct (LRU.nodes c !! a) as [nd|]; [|done].
  intros [= <- <-]. by exists nd.
Qed.

Lemma read_next (c : LRU.LRUCache) (a : nat) (n : option nat) :
  a < length (LRU.nodes c) -> next_at c a = n ->
  exists nd, LRU.read c (Some a) = Some nd /\ LRU.next nd = n.
Proof.
  intros Ha Hn. destruct (lookup_lt_is_Some_2 _ _ Ha) as [nd Hnd].
  exists nd. unfold next_at in Hn. rewrite Hnd in Hn. by split.
Qed.

(** Looking a key up among the pairs of distinct nodes. *)
Lemma get_map_unique {A : Type} (f : A -> string * Z) (l : list A) (a : A) (k : string) :
  a ∈ l -> fst (f a) = k ->
  (forall b, b ∈ l -> fst (f b) = k -> b = a) ->
  JsMap.get k (List.map f l) = Some (snd (f a)).
Proof.
  intros Ha Hk Huniq. induction l as [|b l IH]; [by apply elem_of_nil in Ha|].
  simpl. destruct (f b) as [kb vb] eqn:Eb.
  destruct (String.eqb_spec kb k) as [Hkb|Hkb].
  - rewrite <- (Huniq b); [by rewrite Eb | by left | by rewrite Eb].
  - apply IH.
    + apply elem_of_cons in Ha as [->|Ha]; [|done]. rewrite Eb in Hk. done.
    + intros b' Hb'. apply Huniq. by right.
Qed.

Lemma get_map_none {A : Type} (f : A -> string * Z) (l : list A) (k : string) :
  (forall b, b ∈ l -> fst (f b) <> k) -> JsMap.get k (List.map f l) = None.
Proof.
  intros H. induction l as [|b l IH]; [done|]. simpl.
  destruct (f b) as [kb vb] eqn:Eb.
  destruct (String.eqb_spec kb k) as [Hkb|Hkb].
  - exfalso. apply (H b); [by left | by rewrite Eb].
  - apply IH. intros b' Hb'. apply H. by right.
Qed.

Lemma quitar_map_delete {A : Type} (f : A -> string * Z) (l : list A)
    (j : nat) (a : A) (k : string) :
  NoDup l -> l !! j = Some a -> fst (f a) = k ->
  (forall b, b ∈ l -> fst (f b) = k -> b = a) ->
  quitar k (List.map f l) = List.map f (delete j l).
Proof.
  intros Hnd. revert j. induction l as [|b l IH]; intros j Hj Hk Huniq; [done|].
  apply NoDup_cons in Hnd as [Hb Hnd]. destruct j as [|j]; simpl in *.
  - injection Hj as ->. rewrite Hk, String.eqb_refl. simpl.
    apply filter_all. intros e He. apply negb_true_iff, String.eqb_neq. intros Hek.
    apply list_elem_of_In, in_map_iff in He as (b & <- & Hbin).
    apply list_elem_of_In in Hbin.
    assert (b = a) as -> by (apply Huniq; [by right | done]). done.
  - destruct (String.eqb_spec (fst (f b)) k) as [Hbk|Hbk]; simpl.
    + assert (b = a) as -> by (apply Huniq; [by left | done]).
      exfalso. apply Hb. by eapply list_elem_of_lookup_2.
    + f_equal. apply (IH Hnd j Hj Hk). intros b' Hb'. apply Huniq. by right.
Qed.

Section inv_facts.
Variables (c : LRU.LRUCache) (ns : list nat).
Hypothesis Hinv : inv c ns.

Lemma inv_NoDup_ns : NoDup ns.
Proof.
  destruct Hinv as [(Hnd & _ & _) _ _ _]. unfold cadena in Hnd.
  apply NoDup_cons in Hnd as [_ Hnd]. by apply NoDup_app in Hnd as (? & _ & _).
Qed.

Lemma inv_key_unique (a b : nat) (k : string) :
  a ∈ ns -> b ∈ ns ->
  fst (default ("", 0%Z) (entry_at c a)) = k ->
  fst (default ("", 0%Z) (entry_at c b)) = k -> b = a.
Proof.
  intros Ha Hb Hka Hkb.
  destruct (inv_entry c ns a (inv_chain _ _ Hinv) Ha) as (ka & va & Hea).
  destruct (inv_entry c ns b (inv_chain _ _ Hinv) Hb) as (kb & vb & Heb).
  rewrite Hea in Hka. rewrite Heb in Hkb. simpl in *. subst ka kb.
  assert (H1 : LRU.cache c !! k = Some a) by (apply (inv_cache _ _ Hinv); eauto).
  assert (H2 : LRU.cache c !! k = Some b) by (apply (inv_cache _ _ Hinv); eauto).
  congruence.
Qed.

Lemma inv_get_hit (k : string) (a : nat) :
  LRU.cache c !! k = Some a ->
  exists j v, ns !! j = Some a /\ entry_at c a = Some (k, v)
    /\ JsMap.get k (contenido c ns) = Some v
    /\ quitar k (contenido c ns) = contenido c (delete j ns).
Proof.
  intros Hk. apply (inv_cache _ _ Hinv) in Hk as (Ha & v & He).
  destruct (list_elem_of_lookup_1 _ _ Ha) as [j Hj].
  exists j, v. split; [done|]. split; [done|].
  assert (Hfa : fst (default ("", 0%Z) (entry_at c a)) = k) by (by rewrite He).
  split.
  - unfold contenido.
    rewrite (get_map_unique _ ns a k Ha Hfa); [by rewrite He|].
    intros b Hb Hkb. by eapply inv_key_unique.
  - unfold contenido. apply (quitar_map_delete _ ns j a k); try done.
    + apply inv_NoDup_ns.
    + intros b Hb Hkb. by eapply inv_key_unique.
Qed.

Lemma inv_get_miss (k : string) :
  LRU.cache c !! k = None -> JsMap.get k (contenido c ns) = None.
Proof.
  intros Hk. unfold contenido. apply get_map_none. intros b Hb Hkb.
  destruct (inv_entry c ns b (inv_chain _ _ Hinv) Hb) as (kb & vb & Heb).
  rewrite Heb in Hkb. simpl in Hkb. subst kb.
  assert (LRU.cache c !! k = Some b) by (apply (inv_cache _ _ Hinv); eauto).
  congruence.
Qed.

Lemma length_contenido : length (contenido c ns) = length ns.
Proof. unfold contenido. apply length_map. Qed.
End inv_facts.

(** ** The cache: [get] and [put] against the list of pairs *)

Lemma not_elem_of_delete_NoDup {A : Type} (l : list A) (j : nat) (a : A) :
  NoDup l -> l !! j = Some a -> a ∉ delete j l.
Proof.
  intros Hnd Hj. rewrite (delete_Permutation l j a Hj) in Hnd.
  by apply NoDup_cons in Hnd as [? _].
Qed.

Lemma delete_snoc_Permutation {A : Type} (l : list A) (j : nat) (a : A) :
  l !! j = Some a -> delete j l ++ [a] ≡ₚ l.
Proof.
  intros Hj. rewrite (delete_Permutation l j a Hj) at 2.
  by rewrite <- Permutation_cons_append.
Qed.

Lemma chain_ok_moveToEnd (c : LRU.LRUCache) (ns : list nat) (j a : nat) :
  chain_ok c ns -> ns !! j = Some a ->
  exists c', LRU._moveToEnd c (Some a) = Some c'
    /\ shell c c'
    /\ (forall x, entry_at c' x = entry_at c x)
    /\ chain_ok c' (delete j ns ++ [a]).
Proof.
  intros Hok Hj.
  destruct (chain_ok_removeNode c ns j a Hok Hj) as (c1 & Hrm & Hs1 & He1 & Hok1).
  pose proof Hok as (Hnd & Hvalid & _).
  assert (Ha : a ∈ ns) by (by eapply list_elem_of_lookup_2).
  assert (Hnotin : a ∉ cadena c1 (delete j ns)).
  { rewrite (cadena_shell c c1) by done.
    assert (Hca : cadena c ns !! S j = Some a).
    { unfold cadena. simpl. by apply lookup_app_l_Some. }
    assert (Hj' : j < length ns) by (by eapply lookup_lt_Some).
    replace (cadena c (delete j ns)) with (delete (S j) (cadena c ns))
      by (unfold cadena; simpl; by rewrite delete_snoc_lt).
    by apply not_elem_of_delete_NoDup. }
  assert (Hav : a < length (LRU.nodes c1)).
  { destruct Hs1 as (_ & _ & _ & _ & ->). apply Hvalid.
    unfold cadena. right. apply elem_of_app. by left. }
  destruct (chain_ok_addToEnd c1 (delete j ns) a Hok1 Hav Hnotin)
    as (c2 & Hadd & Hs2 & He2 & Hok2).
  exists c2. unfold LRU._moveToEnd. rewrite Hrm. simpl. rewrite Hadd.
  split; [done|]. split; [by eapply shell_trans|]. split; [|done].
  intros x. by rewrite He2, He1.
Qed.

Lemma get_refines (c : LRU.LRUCache) (ns : list nat) (k : string) :
  inv c ns ->
  exists c' ns',
    LRU.get c k = Some (fst (modelo_get k (contenido c ns)), c')
    /\ inv c' ns'
    /\ contenido c' ns' = snd (modelo_get k (contenido c ns))
    /\ LRU.capacity c' = LRU.capacity c
    /\ (LRU.cache c !! k = None -> c' = c).
Proof.
  intros Hinv. unfold LRU.get, modelo_get.
  destruct (LRU.cache c !! k) as [a|] eqn:Hk.
  - destruct (inv_get_hit c ns Hinv k a Hk) as (j & v & Hj & He & Hget & Hquitar).
    rewrite Hget. simpl.
    destruct (chain_ok_moveToEnd c ns j a (inv_chain _ _ Hinv) Hj)
      as (c' & Hmv & Hs & Hent & Hok).
    rewrite Hmv. simpl.
    destruct (read_entry c' a k v) as (nd & Hrd & _ & Hv); [by rewrite Hent|].
    rewrite Hrd. simpl. rewrite Hv.
    exists c', (delete j ns ++ [a]). split; [done|].
    pose proof Hs as (Hcap & Hcache & _ & _ & _).
    split; [|split; [|split; [done|done]]].
    + constructor.
      * done.
      * intros k' a'. rewrite Hcache, (inv_cache _ _ Hinv), Hent.
        by rewrite (delete_snoc_Permutation ns j a Hj).
      * rewrite Hcache, (inv_size _ _ Hinv).
        by rewrite (delete_snoc_Permutation ns j a Hj).
      * rewrite Hcap. apply (inv_capacity _ _ Hinv).
    + rewrite Hquitar. unfold contenido. rewrite map_app. simpl.
      rewrite Hent, He. simpl. f_equal.
      apply map_ext. intros x. by rewrite Hent.
  - rewrite (inv_get_miss c ns Hinv k Hk). simpl.
    exists c, ns. split; [done|]. split; [done|]. split; [done|]. by split.
Qed.

Lemma put_hit (c : LRU.LRUCache) (ns : list nat) (k : string) (v : Z) (a : nat) :
  inv c ns -> LRU.cache c !! k = Some a ->
  exists c' ns',
    LRU.put c k v = Some c'
    /\ inv c' ns'
    /\ contenido c' ns' = quitar k (contenido c ns) ++ [(k, v)]
    /\ LRU.capacity c' = LRU.capacity c.
Proof.
  intros Hinv Hk.
  destruct (inv_get_hit c ns Hinv k a Hk) as (j & v0 & Hj & He & _ & Hquitar).
  destruct (write_value_spec c a v k v0 He) as (c1 & Hw & Hs1 & Hn1 & Hp1 & He1).
  pose proof Hs1 as (Hcap1 & Hcache1 & Hh1 & Ht1 & Hl1).
  assert (Hok1 : chain_ok c1 ns).
  { apply (chain_ok_ext c c1); [done | done | lia | | apply (inv_chain _ _ Hinv)].
    intros x _. by rewrite Hn1, Hp1. }
  destruct (chain_ok_moveToEnd c1 ns j a Hok1 Hj) as (c2 & Hmv & Hs2 & He2 & Hok2).
  pose proof Hs2 as (Hcap2 & Hcache2 & _ & _ & _).
  assert (Hent : forall x, entry_at c2 x
                           = if decide (x = a) then Some (k, v) else entry_at c x).
  { intros x. by rewrite He2, He1. }
  assert (Hperm : delete j ns ++ [a] ≡ₚ ns) by (by apply delete_snoc_Permutation).
  exists c2, (delete j ns ++ [a]).
  unfold LRU.put. rewrite Hk, Hw. simpl. rewrite Hmv.
  split; [done|]. split; [|split].
  - constructor.
    + done.
    + intros k' a'. rewrite Hcache2, Hcache1, Hperm, Hent. split.
      * intros Hk'. pose proof Hk' as Hk''.
        apply (inv_cache _ _ Hinv) in Hk' as (Ha' & v' & He').
        split; [done|]. case_decide as Haa; [|eauto]. subst a'.
        exists v. rewrite He in He'. by injection He' as -> _.
      * intros (Ha' & v' & He'). case_decide as Haa.
        -- subst a'. by injection He' as <- _.
        -- apply (inv_cache _ _ Hinv). eauto.
    + by rewrite Hcache2, Hcache1, Hperm, (inv_size _ _ Hinv).
    + rewrite Hcap2, Hcap1. apply (inv_capacity _ _ Hinv).
  - rewrite Hquitar. unfold contenido. rewrite map_app. simpl.
    rewrite (Hent a), decide_True by done. simpl. f_equal.
    apply map_ext_in. intros x Hx%list_elem_of_In. rewrite Hent.
    rewrite decide_False; [done|]. intros ->.
    by apply (not_elem_of_delete_NoDup ns j a (inv_NoDup_ns c ns Hinv) Hj).
  - by rewrite Hcap2, Hcap1.
Qed.

Lemma entry_at_with_cache (c : LRU.LRUCache) (m : gmap string nat) (x : nat) :
  entry_at (LRU.with_cache c m) x = entry_at c x.
Proof. done. Qed.

(** Dropping the least recently used pair of a full cache (lines 105-116). *)
Lemma evict_spec (c : LRU.LRUCache) (ns : list nat) :
  inv c ns ->
  (Z.of_nat (size (LRU.cache c)) >= LRU.capacity c)%Z ->
  exists c1 a0 ns1,
    ns = a0 :: ns1
    /\ (h ← LRU.read c (Some (LRU.head c));
        c' ← LRU._removeNode c (LRU.next h);
        l ← LRU.read c' (LRU.next h);
        Some (LRU.with_cache c' (delete (LRU.key l) (LRU.cache c')))) = Some c1
    /\ inv c1 ns1
    /\ (forall x, entry_at c1 x = entry_at c x)
    /\ LRU.capacity c1 = LRU.capacity c
    /\ length (LRU.nodes c1) = length (LRU.nodes c)
    /\ (forall k, LRU.cache c !! k = None -> LRU.cache c1 !! k = None).
Proof.
  intros Hinv Hfull.
  pose proof (inv_capacity _ _ Hinv) as Hcap.
  pose proof (inv_size _ _ Hinv) as Hsize.
  destruct ns as [|a0 ns1]; [simpl in Hsize; lia|].
  pose proof (inv_chain _ _ Hinv) as Hok.
  pose proof Hok as (Hnd & Hvalid & Hl).
  assert (Hnext : next_at c (LRU.head c) = Some a0) by (by apply (Hl 0 _ a0)).
  destruct (read_next c (LRU.head c) (Some a0)) as (h & Hrh & Hnh); [|done|].
  { apply Hvalid. by left. }
  destruct (chain_ok_removeNode c (a0 :: ns1) 0 a0 Hok eq_refl)
    as (c1 & Hrm & Hs & Hent & Hok1).
  simpl in Hok1.
  pose proof Hs as (Hcap1 & Hcache1 & _ & _ & Hlen1).
  destruct (inv_entry c (a0 :: ns1) a0 Hok) as (k0 & v0 & He0); [by left|].
  destruct (read_entry c1 a0 k0 v0) as (l & Hrl & Hkl & _); [by rewrite Hent|].
  assert (Hk0 : LRU.cache c !! k0 = Some a0).
  { apply (inv_cache _ _ Hinv). split; [by left | eauto]. }
  assert (Ha0 : a0 ∉ ns1).
  { pose proof (inv_NoDup_ns _ _ Hinv) as Hnd'. by apply NoDup_cons in Hnd' as [? _]. }
  exists (LRU.with_cache c1 (delete k0 (LRU.cache c1))), a0, ns1.
  split; [done|]. rewrite Hrh. simpl. rewrite Hnh, Hrm. simpl. rewrite Hrl. simpl.
  rewrite Hkl. split; [done|]. split; [|split; [done|split; [done|split; [done|]]]].
  - constructor.
    + exact Hok1.
    + intros k a. simpl. rewrite Hcache1. split.
      * intros Hk. apply lookup_delete_Some in Hk as [Hne Hk].
        apply (inv_cache _ _ Hinv) in Hk as (Ha & v & He).
        apply elem_of_cons in Ha as [->|Ha].
        -- rewrite He0 in He. by injection He as -> _.
        -- split; [done|]. exists v. by rewrite entry_at_with_cache, Hent.
      * intros (Ha & v & He). rewrite entry_at_with_cache, Hent in He.
        apply lookup_delete_Some. split.
        -- intros <-. assert (LRU.cache c !! k0 = Some a).
           { apply (inv_cache _ _ Hinv). split; [by right | eauto]. }
           congruence.
        -- apply (inv_cache _ _ Hinv). split; [by right | eauto].
    + simpl. rewrite Hcache1, map_size_delete_Some by eauto.
      rewrite Hsize. done.
    + simpl. by rewrite Hcap1.
  - intros k Hk. simpl. rewrite Hcache1. apply lookup_delete_None. by right.
Qed.

(** Allocating the node of a new key and appending it (lines 118-125). *)
Lemma put_fresh (c : LRU.LRUCache) (ns : list nat) (k : string) (v : Z) :
  inv c ns -> LRU.cache c !! k = None ->
  let a := length (LRU.nodes c) in
  let c2 :=
    LRU.with_cache
      (LRU.with_nodes c
         (LRU.nodes c
          ++ [ {| LRU.key := k; LRU.value := v; LRU.prev := None; LRU.next := None |} ]))
      (<[k := a]> (LRU.cache c)) in
  exists c3,
    LRU._addToEnd c2 (Some a) = Some c3
    /\ inv c3 (ns ++ [a])
    /\ contenido c3 (ns ++ [a]) = contenido c ns ++ [(k, v)]
    /\ LRU.capacity c3 = LRU.capacity c.
Proof.
  intros Hinv Hk a c2.
  pose proof (inv_chain _ _ Hinv) as Hok.
  pose proof Hok as (Hnd & Hvalid & Hl).
  assert (Hold : forall x, x < a ->
            next_at c2 x = next_at c x /\ prev_at c2 x = prev_at c x
            /\ entry_at c2 x = entry_at c x).
  { intros x Hx. unfold next_at, prev_at, entry_at, c2. simpl.
    by rewrite lookup_app_l. }
  assert (Hnew : entry_at c2 a = Some (k, v)).
  { unfold entry_at, c2. simpl. by rewrite list_lookup_middle. }
  assert (Hok2 : chain_ok c2 ns).
  { apply (chain_ok_ext c c2); [done | done | | | done].
    - unfold c2. simpl. rewrite length_app. lia.
    - intros x Hx. by destruct (Hold x Hx) as (? & ? & _). }
  assert (Hav : a < length (LRU.nodes c2)).
  { unfold c2. simpl. rewrite length_app. simpl. lia. }
  assert (Hnotin : a ∉ cadena c2 ns).
  { intros Hin. apply Hvalid in Hin. unfold a in Hin. lia. }
  destruct (chain_ok_addToEnd c2 ns a Hok2 Hav Hnotin) as (c3 & Hadd & Hs & Hent & Hok3).
  pose proof Hs as (Hcap3 & Hcache3 & _ & _ & _).
  assert (Hns : forall x, x ∈ ns -> entry_at c3 x = entry_at c x).
  { intros x Hx. rewrite Hent. apply Hold, Hvalid.
    unfold cadena. right. apply elem_of_app. by left. }
  exists c3. split; [done|]. split; [|split].
  - constructor.
    + done.
    + intros k' a'. rewrite Hcache3. unfold c2 at 1. simpl.
      rewrite lookup_insert_Some, elem_of_app, list_elem_of_singleton. split.
      * intros [[<- <-]|[Hne Hk']].
        -- split; [by right|]. exists v. by rewrite Hent.
        -- apply (inv_cache _ _ Hinv) in Hk' as (Ha' & v' & He').
           split; [by left|]. exists v'. by rewrite Hns.
      * intros ([Ha'| ->] & v' & He').
        -- rewrite (Hns a' Ha') in He'. right.
           assert (LRU.cache c !! k' = Some a') by (apply (inv_cache _ _ Hinv); eauto).
           split; [congruence|done].
        -- rewrite Hent, Hnew in He'. injection He' as <- _. by left.
    + rewrite Hcache3. unfold c2 at 1. simpl.
      rewrite map_size_insert_None by done.
      rewrite length_app, (inv_size _ _ Hinv). simpl. lia.
    + rewrite Hcap3. apply (inv_capacity _ _ Hinv).
  - unfold contenido. rewrite map_app. simpl. rewrite Hent, Hnew. simpl.
    f_equal. apply map_ext_in. intros x Hx%list_elem_of_In. by rewrite Hns.
  - by rewrite Hcap3.
Qed.

Lemma put_refines (c : LRU.LRUCache) (ns : list nat) (k : string) (v : Z) :
  inv c ns ->
  exists c' ns',
    LRU.put c k v = Some c'
    /\ inv c' ns'
    /\ contenido c' ns' = modelo_put (LRU.capacity c) k v (contenido c ns)
    /\ LRU.capacity c' = LRU.capacity c.
Proof.
  intros Hinv. unfold modelo_put.
  destruct (LRU.cache c !! k) as [a|] eqn:Hk.
  - destruct (inv_get_hit c ns Hinv k a Hk) as (j & v0 & _ & _ & -> & _).
    by apply (put_hit c ns k v a).
  - rewrite (inv_get_miss c ns Hinv k Hk), (length_contenido c ns).
    rewrite <- (inv_size _ _ Hinv).
    unfold LRU.put. rewrite Hk.
    destruct (Z.of_nat (size (LRU.cache c)) >=? LRU.capacity c)%Z eqn:Hfull.
    + destruct (evict_spec c ns Hinv) as (c1 & a0 & ns1 & -> & Hev & Hinv1 & Hent1
                                            & Hcap1 & Hlen1 & Hnone); [lia|].
      rewrite Hev. simpl.
      destruct (put_fresh c1 ns1 k v Hinv1 (Hnone k Hk)) as (c3 & Hadd & Hinv3 & Hcont & Hcap3).
      exists c3, (ns1 ++ [length (LRU.nodes c1)]).
      split; [done|]. split; [done|]. split; [|congruence].
      rewrite Hcont. f_equal. by apply contenido_ext.
    + simpl.
      destruct (put_fresh c ns k v Hinv Hk) as (c3 & Hadd & Hinv3 & Hcont & Hcap3).
      by exists c3, (ns ++ [length (LRU.nodes c)]).
Qed.

(** ** The cache: construction, [keys] and reachable states *)

Lemma constructor_inv (capacity0 : Z) (c : LRU.LRUCache) :
  LRU.constructor capacity0 = Returned c ->
  inv c [] /\ LRU.capacity c = capacity0 /\ (0 < capacity0)%Z.
Proof.
  unfold LRU.constructor. destruct (Z.leb_spec capacity0 0) as [|Hpos]; [done|].
  intros [= <-]. split; [|done]. constructor; simpl.
  - split; [|split].
    + unfold cadena. simpl. apply NoDup_cons. split.
      * by intros ?%list_elem_of_singleton.
      * apply NoDup_singleton.
    + unfold cadena. simpl. intros a [->|[->|?%elem_of_nil]%elem_of_cons]%elem_of_cons;
        [lia | lia | done].
    + intros i a b. unfold cadena. simpl.
      destruct i as [|[|i]]; simpl; [|done..].
      by intros [= <-] [= <-].
  - intros k a. rewrite lookup_empty. split; [done|].
    by intros [?%elem_of_nil _].
  - done.
  - done.
Qed.

Lemma linked_tail (c : LRU.LRUCache) (x : nat) (l : list nat) :
  linked c (x :: l) -> linked c l.
Proof. intros H i a b Ha Hb. by apply (H (S i)). Qed.

Lemma keys_loop_spec (c : LRU.LRUCache) (l : list nat) :
  forall (fuel p : nat),
    length l < fuel ->
    linked c (p :: l ++ [LRU.tail c]) ->
    (forall a, a ∈ l -> a < length (LRU.nodes c) /\ a <> LRU.tail c) ->
    LRU.keys_loop fuel c (next_at c p) = Some (List.map fst (contenido c l)).
Proof.
  induction l as [|a l IH]; intros fuel p Hfuel Hl Hvalid.
  - destruct fuel as [|fuel]; [simpl in Hfuel; lia|].
    destruct (Hl 0 p (LRU.tail c)) as [-> _]; [done..|].
    simpl. by rewrite decide_True.
  - destruct fuel as [|fuel]; [simpl in Hfuel; lia|].
    destruct (Hl 0 p a) as [-> _]; [done..|].
    destruct (Hvalid a) as [Hav Hat]; [by left|].
    destruct (lookup_lt_is_Some_2 _ _ Hav) as [nd Hnd].
    cbn [LRU.keys_loop]. rewrite decide_False by congruence.
    unfold LRU.read. simpl. rewrite Hnd. simpl.
    change (LRU.next nd) with (Some nd ≫= LRU.next). rewrite <- Hnd.
    fold (next_at c a).
    rewrite (IH fuel a); [|simpl in Hfuel; lia|by eapply linked_tail|].
    + simpl. unfold entry_at. by rewrite Hnd.
    + intros b Hb. apply Hvalid. by right.
Qed.

Lemma NoDup_bounded_length (l : list nat) (n : nat) :
  NoDup l -> (forall x, x ∈ l -> x < n) -> length l <= n.
Proof.
  intros Hnd Hb. transitivity (length (seq 0 n)); [|by rewrite length_seq].
  apply submseteq_length, NoDup_submseteq; [done|].
  intros x Hx. apply elem_of_seq. specialize (Hb x Hx). lia.
Qed.

Lemma keys_refines (c : LRU.LRUCache) (ns : list nat) :
  inv c ns -> LRU.keys c = Some (List.map fst (contenido c ns)).
Proof.
  intros Hinv. pose proof (inv_chain _ _ Hinv) as (Hnd & Hvalid & Hl).
  unfold LRU.keys.
  destruct (lookup_lt_is_Some_2 (LRU.nodes c) (LRU.head c)) as [h Hh].
  { apply Hvalid. by left. }
  unfold LRU.read. simpl. rewrite Hh. simpl.
  change (LRU.next h) with (Some h ≫= LRU.next). rewrite <- Hh.
  fold (next_at c (LRU.head c)).
  apply (keys_loop_spec c ns (S (length (LRU.nodes c))) (LRU.head c)); [|done|].
  - assert (length ns <= length (LRU.nodes c)); [|lia].
    apply NoDup_bounded_length; [by eapply inv_NoDup_ns|].
    intros x Hx. apply Hvalid. right. apply elem_of_app. by left.
  - intros a Ha. split.
    + apply Hvalid. right. apply elem_of_app. by left.
    + intros ->. unfold cadena in Hnd. apply NoDup_cons in Hnd as [_ Hnd].
      apply NoDup_app in Hnd as (_ & Hdisj & _). apply (Hdisj _ Ha). by left.
Qed.

Lemma reachable_inv (c : LRU.LRUCache) : reachable c -> exists ns, inv c ns.
Proof.
  induction 1 as [capacity0 c Hnew | c k v c' _ [ns Hinv] Hget
                 | c k v c' _ [ns Hinv] Hput].
  - exists []. by apply constructor_inv in Hnew as [? _].
  - destruct (get_refines c ns k Hinv) as (c'' & ns' & Hget' & Hinv' & _).
    exists ns'. congruence.
  - destruct (put_refines c ns k v Hinv) as (c'' & ns' & Hput' & Hinv' & _).
    exists ns'. congruence.
Qed.

(** ** The cache: sequences of calls *)

Lemma run_snoc (ops : list LRU.op) (o : LRU.op) (c : LRU.LRUCache) :
  LRU.run (ops ++ [o]) c = LRU.run ops c ≫= fun c' => LRU.step c' o.
Proof. unfold LRU.run. by rewrite foldl_snoc. Qed.

Lemma modelo_run_snoc (cap : Z) (ops : list LRU.op) (o : LRU.op) :
  modelo_run cap (ops ++ [o]) = modelo_step cap (modelo_run cap ops) o.
Proof. unfold modelo_run. by rewrite fold_left_app. Qed.

(** Every sequence of calls on a fresh cache runs to the end, and the
    pairs in the list are those of the list model. *)
Lemma run_refines (capacity0 : Z) (c0 : LRU.LRUCache) (ops : list LRU.op) :
  LRU.constructor capacity0 = Returned c0 ->
  exists c ns,
    LRU.run ops c0 = Some c
    /\ inv c ns
    /\ contenido c ns = modelo_run capacity0 ops
    /\ LRU.capacity c = capacity0.
Proof.
  intros Hnew. induction ops as [|o ops IH] using rev_ind.
  - exists c0, []. apply constructor_inv in Hnew as (? & ? & _).
    split; [done|]. split; [done|]. by split.
  - destruct IH as (c & ns & Hrun & Hinv & Hcont & Hcap).
    rewrite run_snoc, modelo_run_snoc, Hrun, <- Hcont. simpl.
    destruct o as [k|k v]; simpl.
    + destruct (get_refines c ns k Hinv) as (c' & ns' & -> & Hinv' & Hc' & Hcap' & _).
      exists c', ns'. simpl. split; [done|]. split; [done|]. split; [done|]. congruence.
    + destruct (put_refines c ns k v Hinv) as (c' & ns' & -> & Hinv' & Hc' & Hcap').
      exists c', ns'. split; [done|]. split; [done|]. split; congruence.
Qed.

Lemma ultimo_toque_snoc (ops : list LRU.op) (o : LRU.op) (k : string) :
  ultimo_toque (ops ++ [o]) k
  = if String.eqb (LRU.op_key o) k then S (length ops) else ultimo_toque ops k.
Proof.
  unfold ultimo_toque. rewrite rev_unit. simpl. by rewrite length_rev.
Qed.

Lemma ultimo_toque_le (ops : list LRU.op) (k : string) :
  ultimo_toque ops k <= length ops.
Proof.
  unfold ultimo_toque. rewrite <- (length_rev ops).
  induction (rev ops) as [|o r IH]; simpl; [lia|].
  destruct (String.eqb _ _); simpl; lia.
Qed.

Lemma StronglySorted_filter {A : Type} (R : A -> A -> Prop) (p : A -> bool) (l : list A) :
  StronglySorted R l -> StronglySorted R (List.filter p l).
Proof.
  induction 1 as [|x l Hs IH Hall]; simpl; [constructor|].
  destruct (p x); [|done]. constructor; [done|].
  rewrite List.Forall_forall in *. intros y [Hy _]%filter_In. by apply Hall.
Qed.

Lemma StronglySorted_tl {A : Type} (R : A -> A -> Prop) (l : list A) :
  StronglySorted R l -> StronglySorted R (List.tl l).
Proof. destruct 1; [constructor | done]. Qed.

Lemma StronglySorted_ext {A : Type} (R R' : A -> A -> Prop) (l : list A) :
  (forall x y, x ∈ l -> y ∈ l -> R x y -> R' x y) ->
  StronglySorted R l -> StronglySorted R' l.
Proof.
  intros Himp Hs. induction Hs as [|x l Hs IH Hall]; constructor.
  - apply IH. intros a b Ha Hb. apply Himp; by right.
  - rewrite List.Forall_forall in *. intros y Hy.
    apply Himp; [by left | right; by apply list_elem_of_In | by apply Hall].
Qed.

Lemma keys_quitar (k : string) (l : list (string * Z)) :
  List.map fst (quitar k l)
  = List.filter (fun x => negb (String.eqb x k)) (List.map fst l).
Proof.
  unfold quitar. induction l as [|[k' v'] l IH]; simpl; [done|].
  destruct (String.eqb k' k); simpl; by rewrite IH.
Qed.

(** A list of keys that does not hold the key of the latest call stays
    in order, and that key goes after all of them. *)
Lemma antes_que_snoc (ops : list LRU.op) (o : LRU.op) (ks : list string) :
  LRU.op_key o ∉ ks ->
  StronglySorted (antes_que ops) ks ->
  StronglySorted (antes_que (ops ++ [o])) ks
  /\ forall x, x ∈ ks -> antes_que (ops ++ [o]) x (LRU.op_key o).
Proof.
  intros Hk Hs.
  assert (Hother : forall x, x ∈ ks -> ultimo_toque (ops ++ [o]) x = ultimo_toque ops x).
  { intros x Hx. rewrite ultimo_toque_snoc.
    destruct (String.eqb_spec (LRU.op_key o) x) as [Heq|]; [|done].
    by rewrite Heq in Hk. }
  split.
  - apply (StronglySorted_ext (antes_que ops)); [|done].
    intros x y Hx Hy. unfold antes_que. by rewrite !Hother.
  - intros x Hx. unfold antes_que. rewrite (Hother x Hx).
    rewrite ultimo_toque_snoc, String.eqb_refl.
    pose proof (ultimo_toque_le ops x). lia.
Qed.

Lemma StronglySorted_snoc_key (ops : list LRU.op) (o : LRU.op) (ks : list string) :
  LRU.op_key o ∉ ks ->
  StronglySorted (antes_que ops) ks ->
  StronglySorted (antes_que (ops ++ [o])) (ks ++ [LRU.op_key o]).
Proof.
  intros Hk Hs. destruct (antes_que_snoc ops o ks Hk Hs) as [Hs' Hlt].
  apply StronglySorted_app. split; [|split; [done|]].
  - intros x1 x2 Hx1 ->%list_elem_of_singleton. by apply Hlt.
  - repeat constructor.
Qed.

(** The stored keys are in the order of their last call: the head of the
    list is the key least recently named by a [get] or a [put]. *)
Lemma modelo_run_sorted (cap : Z) (ops : list LRU.op) :
  StronglySorted (antes_que ops) (List.map fst (modelo_run cap ops)).
Proof.
  induction ops as [|o ops IH] using rev_ind; [constructor|].
  rewrite modelo_run_snoc. set (l := modelo_run cap ops) in *.
  assert (Hfilter : forall k,
            k ∉ List.filter (fun x => negb (String.eqb x k)) (List.map fst l)).
  { intros k [_ Hk]%list_elem_of_In%filter_In.
    by rewrite String.eqb_refl in Hk. }
  destruct o as [k|k v]; unfold modelo_step, modelo_get, modelo_put.
  - destruct (JsMap.get k l) as [v|] eqn:Hget; simpl.
    + rewrite map_app, keys_quitar. simpl.
      apply (StronglySorted_snoc_key ops (LRU.Get k)); [apply Hfilter|].
      by apply StronglySorted_filter.
    + apply (antes_que_snoc ops (LRU.Get k)); [|done].
      by apply get_None_keys.
  - destruct (JsMap.get k l) as [v0|] eqn:Hget.
    + rewrite map_app, keys_quitar. simpl.
      apply (StronglySorted_snoc_key ops (LRU.Put k v)); [apply Hfilter|].
      by apply StronglySorted_filter.
    + apply get_None_keys in Hget. rewrite map_app. simpl.
      destruct (_ >=? _)%Z.
      * replace (List.map fst (List.tl l)) with (List.tl (List.map fst l))
          by (by destruct l).
        apply (StronglySorted_snoc_key ops (LRU.Put k v)).
        -- intros Hin. apply Hget. unfold JsMap.keys.
           destruct (List.map fst l); [done | by right].
        -- by apply StronglySorted_tl.
      * by apply (StronglySorted_snoc_key ops (LRU.Put k v)).
Qed.

Lemma cache_None_keys (c : LRU.LRUCache) (ns : list nat) (k : string) :
  inv c ns -> LRU.cache c !! k = None <-> k ∉ List.map fst (contenido c ns).
Proof.
  intros Hinv. rewrite <- (get_None_keys k (contenido c ns)). split.
  - by apply inv_get_miss.
  - intros Hget. destruct (LRU.cache c !! k) as [a|] eqn:Hk; [|done].
    destruct (inv_get_hit c ns Hinv k a Hk) as (_ & v & _ & _ & Hget' & _).
    congruence.
Qed.

Lemma get_snoc_fresh {V : Type} (k : string) (v : V) (l : JsMap V) :
  k ∉ JsMap.keys l -> JsMap.get k (l ++ [(k, v)]) = Some v.
Proof.
  induction l as [|[k' v'] l IH]; simpl; intros Hk.
  - by rewrite String.eqb_refl.
  - apply not_elem_of_cons in Hk as [Hne Hk].
    destruct (String.eqb_spec k' k); [congruence|]. by apply IH.
Qed.

Lemma modelo_put_last (cap : Z) (k : string) (v : Z) (l : list (string * Z)) :
  exists l', modelo_put cap k v l = l' ++ [(k, v)] /\ k ∉ JsMap.keys l'.
Proof.
  unfold modelo_put. destruct (JsMap.get k l) as [v0|] eqn:Hget.
  - exists (quitar k l). split; [done|]. unfold JsMap.keys. rewrite keys_quitar.
    intros [_ Hk]%list_elem_of_In%filter_In. by rewrite String.eqb_refl in Hk.
  - apply get_None_keys in Hget. destruct (_ >=? _)%Z.
    + exists (List.tl l). split; [done|]. intros Hin. apply Hget.
      destruct l; [done|]. by right.
    + by exists l.
Qed.

Lemma keys_modelo_step (cap : Z) (l : list (string * Z)) (o : LRU.op) (x : string) :
  x ∈ List.map fst (modelo_step cap l o) ->
  x ∈ List.map fst l \/ x = LRU.op_key o.
Proof.
  assert (Hq : forall k, x ∈ List.map fst (quitar k l) -> x ∈ List.map fst l).
  { intros k. rewrite keys_quitar. intros [Hx _]%list_elem_of_In%filter_In.
    by apply list_elem_of_In. }
  destruct o as [k|k v]; unfold modelo_step, modelo_get, modelo_put; simpl.
  - destruct (JsMap.get k l) as [v|]; simpl; [|by left].
    rewrite map_app. intros [Hx|Hx%list_elem_of_singleton]%elem_of_app; eauto.
  - destruct (JsMap.get k l) as [v0|]; rewrite map_app;
      intros [Hx|Hx%list_elem_of_singleton]%elem_of_app; eauto.
    left. destruct (_ >=? _)%Z; [|done]. destruct l; [done|]. by right.
Qed.

(** The last call that names a stored key touches it: it is a [put], or a
    [get] issued while the key was stored. *)
Lemma stored_key_last_call (capacity0 : Z) (c0 c : LRU.LRUCache)
    (ops : list LRU.op) (ks : list string) (x : string) :
  LRU.constructor capacity0 = Returned c0 ->
  LRU.run ops c0 = Some c ->
  LRU.keys c = Some ks ->
  x ∈ ks ->
  exists ops1 o ops2 c1,
    ops = ops1 ++ o :: ops2
    /\ LRU.op_key o = x
    /\ ultimo_toque ops x = S (length ops1)
    /\ LRU.run ops1 c0 = Some c1
    /\ toca c1 o.
Proof.
  intros Hnew. revert c ks.
  induction ops as [|o ops IH] using rev_ind; intros c ks Hrun Hkeys Hx.
  - destruct (run_refines capacity0 c0 [] Hnew) as (c' & ns & Hrun' & Hinv & Hcont & _).
    assert (c' = c) as -> by congruence.
    rewrite (keys_refines c ns Hinv), Hcont in Hkeys. injection Hkeys as <-.
    by apply elem_of_nil in Hx.
  - destruct (run_refines capacity0 c0 ops Hnew) as (c1 & ns1 & Hrun1 & Hinv1 & Hcont1 & _).
    destruct (run_refines capacity0 c0 (ops ++ [o]) Hnew)
      as (c' & ns & Hrun' & Hinv & Hcont & _).
    assert (c' = c) as -> by congruence.
    rewrite (keys_refines c ns Hinv), Hcont, modelo_run_snoc in Hkeys.
    injection Hkeys as <-.
    destruct (String.eqb_spec (LRU.op_key o) x) as [Heq|Hne].
    + exists ops, o, [], c1. split; [done|]. split; [done|].
      split; [by rewrite ultimo_toque_snoc, Heq, String.eqb_refl|].
      split; [done|].
      destruct o as [k|k v]; [|done]. simpl in *. subst k.
      unfold modelo_get in Hx.
      destruct (JsMap.get x (modelo_run capacity0 ops)) as [v|] eqn:Hget.
      * destruct (LRU.cache c1 !! x) eqn:Hc; [done|].
        apply (inv_get_miss c1 ns1 Hinv1) in Hc. congruence.
      * simpl in Hx. apply get_None_keys in Hget. done.
    + apply keys_modelo_step in Hx as [Hx|Hx]; [|congruence].
      destruct (IH c1 (List.map fst (modelo_run capacity0 ops)) Hrun1)
        as (ops1 & o1 & ops2 & c2 & -> & Hk & Hlast & Hrun2 & Htoca); [|done|].
      { by rewrite (keys_refines c1 ns1 Hinv1), Hcont1. }
      exists ops1, o1, (ops2 ++ [o]), c2. split; [by rewrite <- app_assoc|].
      split; [done|]. split; [|done].
      rewrite ultimo_toque_snoc. by apply String.eqb_neq in Hne as ->.
Qed.

(** ** C9: eviction *)

(** C9.  On a full cache that any sequence of calls has produced, [put]
    of a key that is not stored removes the first key of [keys()], and only
    that one, and appends the new key.  The removed key is the least
    recently touched: the last call naming it comes before the last call
    naming any other stored key, and for a stored key that last call is a
    touch (a [put], or a [get] that found the key).  In particular, with
    capacity 3, after put(a), put(b), put(c), get(a), put(d) the keys are
    c, a, d and b is gone. *)
Theorem C9_put_evicts_least_recently_used
    (capacity0 : Z) (c0 c : LRU.LRUCache) (ops : list LRU.op)
    (e : string) (rest : list string) (k : string) (v : Z) :
  LRU.constructor capacity0 = Returned c0 ->
  LRU.run ops c0 = Some c ->
  LRU.keys c = Some (e :: rest) ->
  k ∉ e :: rest ->
  (Z.of_nat (LRU.size_ c) >= LRU.capacity c)%Z ->
  (exists c',
      LRU.put c k v = Some c'
      /\ LRU.keys c' = Some (rest ++ [k])
      /\ (e ∉ rest ++ [k])
      /\ fst <$> LRU.get c' e = Some (-1)%Z)
  /\ (forall k', k' ∈ rest -> antes_que ops e k')
  /\ (forall x, x ∈ e :: rest ->
        exists ops1 o ops2 c1,
          ops = ops1 ++ o :: ops2
          /\ LRU.op_key o = x
          /\ ultimo_toque ops x = S (length ops1)
          /\ LRU.run ops1 c0 = Some c1
          /\ toca c1 o)
  /\ (exists c3 c5,
        LRU.constructor 3 = Returned c3
        /\ LRU.run [LRU.Put "a" 1; LRU.Put "b" 2; LRU.Put "c" 3;
                    LRU.Get "a"; LRU.Put "d" 4] c3 = Some c5
        /\ LRU.keys c5 = Some ["c"; "a"; "d"]
        /\ fst <$> LRU.get c5 "b" = Some (-1)%Z).
Proof.
  intros Hnew Hrun Hkeys Hk Hfull.
  pose proof (fun x => stored_key_last_call capacity0 c0 c ops (e :: rest) x
                         Hnew Hrun Hkeys) as Htouch.
  destruct (run_refines capacity0 c0 ops Hnew) as (c1 & ns & Hrun1 & Hinv & Hcont & Hcap).
  assert (c1 = c) as -> by congruence.
  rewrite (keys_refines c ns Hinv) in Hkeys. injection Hkeys as Hkeys.
  pose proof (modelo_run_sorted capacity0 ops) as Hsorted.
  rewrite <- Hcont, Hkeys in Hsorted.
  apply StronglySorted_cons in Hsorted as [Hall _].
  rewrite List.Forall_forall in Hall.
  assert (Hlater : forall k', k' ∈ rest -> antes_que ops e k').
  { intros k' Hk'. by apply Hall, list_elem_of_In. }
  split; [|split; [done|split; [done|]]].
  - destruct (put_refines c ns k v Hinv) as (c' & ns' & Hput & Hinv' & Hcont' & _).
    exists c'. split; [done|].
    assert (Hmodel : List.map fst (contenido c' ns') = rest ++ [k]).
    { rewrite Hcont'. unfold modelo_put.
      replace (JsMap.get k (contenido c ns)) with (@None Z)
        by (symmetry; apply get_None_keys; unfold JsMap.keys; by rewrite Hkeys).
      rewrite (length_contenido c ns), <- (inv_size _ _ Hinv).
      unfold LRU.size_ in Hfull.
      destruct (Z.geb_spec (Z.of_nat (size (LRU.cache c))) (LRU.capacity c)); [|lia].
      rewrite map_app. simpl. f_equal.
      destruct (contenido c ns); [done|]. simpl in Hkeys. by injection Hkeys. }
    assert (He : e ∉ rest ++ [k]).
    { rewrite not_elem_of_app. split.
      - intros Hin. specialize (Hlater e Hin). unfold antes_que in Hlater. lia.
      - intros ->%list_elem_of_singleton. apply Hk. by left. }
    split; [by rewrite (keys_refines c' ns' Hinv'), Hmodel|]. split; [done|].
    unfold LRU.get.
    replace (LRU.cache c' !! e) with (@None nat); [done|].
    symmetry. apply (cache_None_keys c' ns' e Hinv'). by rewrite Hmodel.
  - eexists _, _. split; [reflexivity|]. split; [vm_compute; reflexivity|].
    split; vm_compute; reflexivity.
Qed.

Lemma C9_put_evicts_least_recently_used_witness :
  exists c3 c4,
    LRU.constructor 3 = Returned c3
    /\ LRU.run [LRU.Put "a" 1; LRU.Put "b" 2; LRU.Put "c" 3; LRU.Get "a"] c3 = Some c4
    /\ LRU.keys c4 = Some ["b"; "c"; "a"]
    /\ (exists c',
          LRU.put c4 "d" 4 = Some c'
          /\ LRU.keys c' = Some (["c"; "a"] ++ ["d"])
          /\ ("b" ∉ ["c"; "a"] ++ ["d"])
          /\ fst <$> LRU.get c' "b" = Some (-1)%Z)
    /\ (forall k', k' ∈ ["c"; "a"] ->
          antes_que [LRU.Put "a" 1; LRU.Put "b" 2; LRU.Put "c" 3; LRU.Get "a"] "b" k').
Proof.
  eexists _, _. split; [reflexivity|]. split; [vm_compute; reflexivity|].
  split; [vm_compute; reflexivity|].
  refine ((fun H => conj (proj1 H) (proj1 (proj2 H)))
            (C9_put_evicts_least_recently_used 3 _ _
               [LRU.Put "a" 1; LRU.Put "b" 2; LRU.Put "c" 3; LRU.Get "a"]
               "b" ["c"; "a"] "d" 4 eq_refl _ _ _ _)).
  - vm_compute. reflexivity.
  - vm_compute. reflexivity.
  - intros Hin. repeat (apply elem_of_cons in Hin as [Hin|Hin]; [discriminate Hin|]).
    by apply elem_of_nil in Hin.
  - vm_compute. discriminate.
Defined.

Lemma run_reachable (capacity0 : Z) (c0 : LRU.LRUCache) (ops : list LRU.op)
    (c : LRU.LRUCache) :
  LRU.constructor capacity0 = Returned c0 -> LRU.run ops c0 = Some c -> reachable c.
Proof.
  intros Hnew. revert c. induction ops as [|o ops IH] using rev_ind; intros c Hrun.
  - injection Hrun as <-. by eapply reachable_new.
  - rewrite run_snoc in Hrun.
    destruct (LRU.run ops c0) as [c'|]; [|done]. simpl in Hrun.
    specialize (IH c' eq_refl). destruct o as [k|k v]; simpl in Hrun.
    + destruct (LRU.get c' k) as [[v c'']|] eqn:Hget; [|done].
      injection Hrun as <-. by eapply reachable_get.
    + by eapply reachable_put.
Qed.

(** ** C10: a miss *)

(** C10.  In every reachable state, [get] of a key that [keys()] does not
    list answers [-1] and returns the very same state: same [Map], same
    nodes, same links.  A key stored with the value [-1] is listed by
    [keys()], and [get] answers [-1] for it as well. *)
Theorem C10_get_miss_returns_sentinel
    (c c1 : LRU.LRUCache) (ks : list string) (k k1 : string) :
  reachable c ->
  LRU.keys c = Some ks ->
  k ∉ ks ->
  LRU.put c k1 (-1) = Some c1 ->
  LRU.get c k = Some ((-1)%Z, c)
  /\ exists ks1 c2,
       LRU.keys c1 = Some ks1 /\ k1 ∈ ks1
       /\ LRU.get c1 k1 = Some ((-1)%Z, c2).
Proof.
  intros Hreach Hkeys Hk Hput.
  destruct (reachable_inv c Hreach) as [ns Hinv].
  rewrite (keys_refines c ns Hinv) in Hkeys. injection Hkeys as <-.
  split.
  - unfold LRU.get. by apply (cache_None_keys c ns k Hinv) in Hk as ->.
  - destruct (put_refines c ns k1 (-1) Hinv) as (c1' & ns1 & Hput' & Hinv1 & Hcont1 & _).
    assert (c1' = c1) as -> by congruence.
    destruct (modelo_put_last (LRU.capacity c) k1 (-1) (contenido c ns))
      as (l' & Hl' & Hfresh).
    rewrite Hl' in Hcont1.
    destruct (get_refines c1 ns1 k1 Hinv1) as (c2 & ns2 & Hget & _).
    exists (List.map fst (contenido c1 ns1)), c2.
    split; [by apply keys_refines|]. split.
    + rewrite Hcont1, map_app. apply elem_of_app. right. by left.
    + rewrite Hget. unfold modelo_get.
      by rewrite Hcont1, (get_snoc_fresh k1 (-1)%Z l' Hfresh).
Qed.

Lemma C10_get_miss_returns_sentinel_witness :
  LRU.get cache_ab "x" = Some ((-1)%Z, cache_ab)
  /\ exists ks1 c2,
       LRU.keys cache_bz = Some ks1 /\ "z" ∈ ks1
       /\ LRU.get cache_bz "z" = Some ((-1)%Z, c2).
Proof.
  apply (C10_get_miss_returns_sentinel cache_ab cache_bz ["a"; "b"] "x" "z").
  - apply (run_reachable 2 _ [LRU.Put "a" 1; LRU.Put "b" 2] _ eq_refl).
    vm_compute. reflexivity.
  - vm_compute. reflexivity.
  - intros Hin. repeat (apply elem_of_cons in Hin as [Hin|Hin]; [discriminate Hin|]).
    by apply elem_of_nil in Hin.
  - vm_compute. reflexivity.
Defined.

(* ================================================================= *)
(** * Part IV: further properties of the cache *)

(** ** Reachable states and the list of pairs *)

Lemma inv_NoDup_keys (c : LRU.LRUCache) (ns : list nat) :
  inv c ns -> NoDup (List.map fst (contenido c ns)).
Proof.
  intros Hinv. unfold contenido. rewrite List.map_map.
  apply (NoDup_fmap_2_strong (fun a => fst (default ("", 0%Z) (entry_at c a)))).
  - intros a b Ha Hb Hab. symmetry. by eapply (inv_key_unique c ns Hinv a b).
  - by eapply inv_NoDup_ns.
Qed.

Lemma size_contenido (c : LRU.LRUCache) (ns : list nat) :
  inv c ns -> LRU.size_ c = length (contenido c ns).
Proof.
  intros Hinv. unfold LRU.size_. by rewrite (inv_size _ _ Hinv), length_contenido.
Qed.

Lemma get_model (c : LRU.LRUCache) (ns : list nat) (k : string) (v : Z)
    (c' : LRU.LRUCache) :
  inv c ns -> LRU.get c k = Some (v, c') ->
  exists ns', inv c' ns'
    /\ v = fst (modelo_get k (contenido c ns))
    /\ contenido c' ns' = snd (modelo_get k (contenido c ns))
    /\ LRU.capacity c' = LRU.capacity c.
Proof.
  intros Hinv Hget.
  destruct (get_refines c ns k Hinv) as (c'' & ns' & Hget' & Hinv' & Hc & Hcap & _).
  rewrite Hget in Hget'. injection Hget' as -> ->. by exists ns'.
Qed.

Lemma put_model (c : LRU.LRUCache) (ns : list nat) (k : string) (v : Z)
    (c' : LRU.LRUCache) :
  inv c ns -> LRU.put c k v = Some c' ->
  exists ns', inv c' ns'
    /\ contenido c' ns' = modelo_put (LRU.capacity c) k v (contenido c ns)
    /\ LRU.capacity c' = LRU.capacity c.
Proof.
  intros Hinv Hput.
  destruct (put_refines c ns k v Hinv) as (c'' & ns' & Hput' & Hinv' & Hc & Hcap).
  rewrite Hput in Hput'. injection Hput' as ->. by exists ns'.
Qed.

(** What [get] answers is what the list of pairs holds for the key. *)
Lemma get_value (c : LRU.LRUCache) (ns : list nat) (k : string) :
  inv c ns ->
  fst <$> LRU.get c k = Some (default (-1)%Z (JsMap.get k (contenido c ns))).
Proof.
  intros Hinv.
  destruct (get_refines c ns k Hinv) as (c' & ns' & -> & _).
  simpl. unfold modelo_get. by destruct (JsMap.get k (contenido c ns)).
Qed.

Lemma length_quitar (k : string) (v : Z) (l : list (string * Z)) :
  NoDup (List.map fst l) -> JsMap.get k l = Some v ->
  S (length (quitar k l)) = length l.
Proof.
  unfold quitar. induction l as [|[k' v'] l IH]; simpl; [done|].
  intros [Hk' Hnd]%NoDup_cons.
  destruct (String.eqb_spec k' k) as [->|Hne]; simpl.
  - intros _. f_equal. f_equal. apply filter_all. intros [k1 v1] Hin.
    apply negb_true_iff, String.eqb_neq. simpl. intros ->.
    apply Hk'. apply list_elem_of_fmap. by exists (k, v1).
  - intros Hget. f_equal. by apply IH.
Qed.

Lemma length_modelo_get (k : string) (l : list (string * Z)) :
  NoDup (List.map fst l) -> length (snd (modelo_get k l)) = length l.
Proof.
  intros Hnd. unfold modelo_get. destruct (JsMap.get k l) as [v|] eqn:Hget; [|done].
  simpl. rewrite length_app. simpl. rewrite <- (length_quitar k v l Hnd Hget). lia.
Qed.

Lemma length_modelo_put (cap : Z) (k : string) (v : Z) (l : list (string * Z)) :
  NoDup (List.map fst l) -> (0 < cap)%Z -> (Z.of_nat (length l) <= cap)%Z ->
  (Z.of_nat (length (modelo_put cap k v l)) <= cap)%Z.
Proof.
  intros Hnd Hcap Hlen. unfold modelo_put.
  destruct (JsMap.get k l) as [v0|] eqn:Hget.
  - rewrite length_app. simpl. rewrite <- (length_quitar k v0 l Hnd Hget) in Hlen. lia.
  - destruct (Z.geb_spec (Z.of_nat (length l)) cap); rewrite length_app; simpl.
    + destruct l; simpl in *; lia.
    + lia.
Qed.

(** Every reachable state is represented, within its capacity. *)
Lemma reachable_repr (c : LRU.LRUCache) :
  reachable c ->
  exists ns, inv c ns /\ (Z.of_nat (length ns) <= LRU.capacity c)%Z.
Proof.
  induction 1 as [capacity0 c Hnew | c k v c' _ (ns & Hinv & Hlen) Hget
                 | c k v c' _ (ns & Hinv & Hlen) Hput].
  - exists []. apply constructor_inv in Hnew as (Hinv & -> & Hpos).
    split; [done|]. simpl. lia.
  - destruct (get_model c ns k v c' Hinv Hget) as (ns' & Hinv' & _ & Hc & Hcap).
    exists ns'. split; [done|].
    rewrite <- (length_contenido c' ns'), Hc, Hcap.
    rewrite length_modelo_get by (by apply inv_NoDup_keys).
    by rewrite length_contenido.
  - destruct (put_model c ns k v c' Hinv Hput) as (ns' & Hinv' & Hc & Hcap).
    exists ns'. split; [done|].
    rewrite <- (length_contenido c' ns'), Hc, Hcap.
    apply length_modelo_put.
    + by apply inv_NoDup_keys.
    + apply (inv_capacity _ _ Hinv).
    + by rewrite length_contenido.
Qed.

Lemma get_snoc_ne {V : Type} (k k' : string) (v : V) (l : JsMap V) :
  k <> k' -> JsMap.get k' (l ++ [(k, v)]) = JsMap.get k' l.
Proof.
  intros Hne. induction l as [|[k1 v1] l IH]; simpl.
  - by destruct (String.eqb_spec k k').
  - by destruct (String.eqb k1 k').
Qed.

Lemma get_quitar_ne (k k' : string) (l : list (string * Z)) :
  k <> k' -> JsMap.get k' (quitar k l) = JsMap.get k' l.
Proof.
  intros Hne. unfold quitar. induction l as [|[k1 v1] l IH]; simpl; [done|].
  destruct (String.eqb_spec k1 k) as [->|Hk1]; simpl.
  - destruct (String.eqb_spec k k'); [done|]. exact IH.
  - destruct (String.eqb k1 k'); [done|]. exact IH.
Qed.

Lemma not_elem_of_keys_quitar (k : string) (l : list (string * Z)) :
  k ∉ JsMap.keys (quitar k l).
Proof.
  unfold JsMap.keys. rewrite keys_quitar.
  intros [_ Hk]%list_elem_of_In%filter_In. by rewrite String.eqb_refl in Hk.
Qed.

(** [get] changes no stored value. *)
Lemma get_modelo_get (k k' : string) (l : list (string * Z)) :
  JsMap.get k' (snd (modelo_get k l)) = JsMap.get k' l.
Proof.
  unfold modelo_get. destruct (JsMap.get k l) as [v|] eqn:Hget; [|done]. simpl.
  destruct (decide (k = k')) as [<-|Hne].
  - rewrite Hget. apply get_snoc_fresh, not_elem_of_keys_quitar.
  - by rewrite get_snoc_ne, get_quitar_ne.
Qed.

(** [put] changes no value of another key that is still stored. *)
Lemma get_modelo_put (cap : Z) (k k' : string) (v : Z) (l : list (string * Z)) :
  NoDup (List.map fst l) -> k <> k' ->
  k' ∈ List.map fst (modelo_put cap k v l) ->
  JsMap.get k' (modelo_put cap k v l) = JsMap.get k' l.
Proof.
  intros Hnd Hne. unfold modelo_put.
  destruct (JsMap.get k l) as [v0|] eqn:Hget.
  - intros _. by rewrite get_snoc_ne, get_quitar_ne.
  - rewrite map_app, elem_of_app, get_snoc_ne by done. simpl.
    intros [Hin|Hin%list_elem_of_singleton]; [|congruence].
    destruct (_ >=? _)%Z; [|done].
    destruct l as [|[k1 v1] l]; [done|]. simpl in *.
    apply NoDup_cons in Hnd as [Hk1 _].
    destruct (String.eqb_spec k1 k') as [->|]; [done|done].
Qed.

Lemma cache_ab_reachable : reachable cache_ab.
Proof.
  apply (run_reachable 2 _ [LRU.Put "a" 1; LRU.Put "b" 2] _ eq_refl).
  vm_compute. reflexivity.
Qed.

Lemma keys_cache_ab : LRU.keys cache_ab = Some ["a"; "b"].
Proof. vm_compute. reflexivity. Qed.

Lemma not_elem_of_strings_ab (k : string) :
  String.eqb k "a" = false -> String.eqb k "b" = false -> k ∉ ["a"; "b"].
Proof.
  intros Ha Hb [->|[->|?%elem_of_nil]%elem_of_cons]%elem_of_cons; done.
Qed.

(** ** No call fails *)

(** In every reachable state [get], [put] and [keys] return: no link that
    they follow is [null], and the loop of [keys] ends. *)
Theorem lru_calls_return (c : LRU.LRUCache) (k : string) (v : Z) :
  reachable c ->
  (exists w c', LRU.get c k = Some (w, c'))
  /\ (exists c', LRU.put c k v = Some c')
  /\ (exists ks, LRU.keys c = Some ks).
Proof.
  intros Hreach. destruct (reachable_inv c Hreach) as [ns Hinv].
  split; [|split].
  - destruct (get_refines c ns k Hinv) as (c' & _ & Hget & _). eauto.
  - destruct (put_refines c ns k v Hinv) as (c' & _ & Hput & _). eauto.
  - rewrite (keys_refines c ns Hinv). eauto.
Qed.

Lemma lru_calls_return_witness :
  (exists w c', LRU.get cache_ab "a" = Some (w, c'))
  /\ (exists c', LRU.put cache_ab "a" 7 = Some c')
  /\ (exists ks, LRU.keys cache_ab = Some ks).
Proof. apply (lru_calls_return cache_ab "a" 7 cache_ab_reachable). Defined.

(** ** The size stays within the capacity *)

(** In every reachable state [keys()] lists each stored key once, as many
    keys as [size()] counts, and never more than the capacity. *)
Theorem lru_size_within_capacity (c : LRU.LRUCache) (ks : list string) :
  reachable c ->
  LRU.keys c = Some ks ->
  NoDup ks
  /\ length ks = LRU.size_ c
  /\ (Z.of_nat (LRU.size_ c) <= LRU.capacity c)%Z.
Proof.
  intros Hreach Hkeys. destruct (reachable_repr c Hreach) as (ns & Hinv & Hlen).
  rewrite (keys_refines c ns Hinv) in Hkeys. injection Hkeys as <-.
  split; [by apply inv_NoDup_keys|]. split.
  - by rewrite length_map, (size_contenido c ns Hinv).
  - by rewrite (size_contenido c ns Hinv), length_contenido.
Qed.

Lemma lru_size_within_capacity_witness :
  NoDup ["a"; "b"]
  /\ length ["a"; "b"] = LRU.size_ cache_ab
  /\ (Z.of_nat (LRU.size_ cache_ab) <= LRU.capacity cache_ab)%Z.
Proof.
  apply (lru_size_within_capacity cache_ab ["a"; "b"] cache_ab_reachable keys_cache_ab).
Defined.

(** ** Reading back what was stored *)

(** After [put(k, v)], [get(k)] answers [v]. *)
Theorem lru_put_then_get (c c' : LRU.LRUCache) (k : string) (v : Z) :
  reachable c ->
  LRU.put c k v = Some c' ->
  exists c'', LRU.get c' k = Some (v, c'').
Proof.
  intros Hreach Hput. destruct (reachable_inv c Hreach) as [ns Hinv].
  destruct (put_model c ns k v c' Hinv Hput) as (ns' & Hinv' & Hc & _).
  destruct (get_refines c' ns' k Hinv') as (c'' & _ & Hget & _).
  exists c''. rewrite Hget. f_equal. f_equal.
  destruct (modelo_put_last (LRU.capacity c) k v (contenido c ns)) as (l' & Hl' & Hfresh).
  unfold modelo_get. by rewrite Hc, Hl', (get_snoc_fresh k v l' Hfresh).
Qed.

Lemma lru_put_then_get_witness :
  exists c'', LRU.get cache_bz "z" = Some ((-1)%Z, c'').
Proof.
  apply (lru_put_then_get cache_ab cache_bz "z" (-1) cache_ab_reachable).
  vm_compute. reflexivity.
Defined.

(** ** How the calls reorder the keys *)

Lemma get_Some_keys {V : Type} (k : string) (l : JsMap V) :
  k ∈ JsMap.keys l -> exists v, JsMap.get k l = Some v.
Proof.
  intros Hin. destruct (JsMap.get k l) as [v|] eqn:Hget; [eauto|].
  by apply get_None_keys in Hget.
Qed.

(** [get] of a stored key answers without changing the size and moves the
    key to the most recent end; the other keys keep their order. *)
Theorem lru_get_hit_moves_to_end (c : LRU.LRUCache) (ks : list string) (k : string) :
  reachable c ->
  LRU.keys c = Some ks ->
  k ∈ ks ->
  exists v c',
    LRU.get c k = Some (v, c')
    /\ LRU.keys c' = Some (sin_clave k ks ++ [k])
    /\ LRU.size_ c' = LRU.size_ c.
Proof.
  intros Hreach Hkeys Hk. destruct (reachable_inv c Hreach) as [ns Hinv].
  rewrite (keys_refines c ns Hinv) in Hkeys. injection Hkeys as <-.
  destruct (get_Some_keys k (contenido c ns) Hk) as [v Hv].
  destruct (get_refines c ns k Hinv) as (c' & ns' & Hget & Hinv' & Hc & _).
  unfold modelo_get in Hget, Hc. rewrite Hv in Hget, Hc. simpl in Hget, Hc.
  exists v, c'. split; [done|]. split.
  - rewrite (keys_refines c' ns' Hinv'), Hc, map_app, keys_quitar. done.
  - rewrite (size_contenido c' ns' Hinv'), (size_contenido c ns Hinv), Hc.
    rewrite length_app. simpl.
    rewrite <- (length_quitar k v (contenido c ns)); [lia | by apply inv_NoDup_keys | done].
Qed.

Lemma lru_get_hit_moves_to_end_witness :
  exists v c',
    LRU.get cache_ab "a" = Some (v, c')
    /\ LRU.keys c' = Some (sin_clave "a" ["a"; "b"] ++ ["a"])
    /\ LRU.size_ c' = LRU.size_ cache_ab.
Proof.
  apply (lru_get_hit_moves_to_end cache_ab ["a"; "b"] "a"
           cache_ab_reachable keys_cache_ab).
  by left.
Defined.

(** [put] of a stored key evicts nothing, also when the cache is full: the
    size stays, and the key moves to the most recent end. *)
Theorem lru_put_stored_key (c : LRU.LRUCache) (ks : list string) (k : string) (v : Z) :
  reachable c ->
  LRU.keys c = Some ks ->
  k ∈ ks ->
  exists c',
    LRU.put c k v = Some c'
    /\ LRU.keys c' = Some (sin_clave k ks ++ [k])
    /\ LRU.size_ c' = LRU.size_ c.
Proof.
  intros Hreach Hkeys Hk. destruct (reachable_inv c Hreach) as [ns Hinv].
  rewrite (keys_refines c ns Hinv) in Hkeys. injection Hkeys as <-.
  destruct (get_Some_keys k (contenido c ns) Hk) as [v0 Hv0].
  destruct (put_refines c ns k v Hinv) as (c' & ns' & Hput & Hinv' & Hc & _).
  unfold modelo_put in Hc. rewrite Hv0 in Hc.
  exists c'. split; [done|]. split.
  - rewrite (keys_refines c' ns' Hinv'), Hc, map_app, keys_quitar. done.
  - rewrite (size_contenido c' ns' Hinv'), (size_contenido c ns Hinv), Hc.
    rewrite length_app. simpl.
    rewrite <- (length_quitar k v0 (contenido c ns)); [lia | by apply inv_NoDup_keys | done].
Qed.

Lemma lru_put_stored_key_witness :
  exists c',
    LRU.put cache_ab "a" 9 = Some c'
    /\ LRU.keys c' = Some (sin_clave "a" ["a"; "b"] ++ ["a"])
    /\ LRU.size_ c' = LRU.size_ cache_ab.
Proof.
  apply (lru_put_stored_key cache_ab ["a"; "b"] "a" 9
           cache_ab_reachable keys_cache_ab).
  by left.
Defined.

(** [put] of a new key into a cache with room evicts nothing: the key is
    appended and the size grows by one. *)
Theorem lru_put_new_key_with_room
    (c : LRU.LRUCache) (ks : list string) (k : string) (v : Z) :
  reachable c ->
  LRU.keys c = Some ks ->
  k ∉ ks ->
  (Z.of_nat (LRU.size_ c) < LRU.capacity c)%Z ->
  exists c',
    LRU.put c k v = Some c'
    /\ LRU.keys c' = Some (ks ++ [k])
    /\ LRU.size_ c' = S (LRU.size_ c).
Proof.
  intros Hreach Hkeys Hk Hroom. destruct (reachable_inv c Hreach) as [ns Hinv].
  rewrite (keys_refines c ns Hinv) in Hkeys. injection Hkeys as <-.
  apply (get_None_keys k (contenido c ns)) in Hk.
  destruct (put_refines c ns k v Hinv) as (c' & ns' & Hput & Hinv' & Hc & _).
  unfold modelo_put in Hc. rewrite Hk in Hc.
  rewrite (size_contenido c ns Hinv) in Hroom.
  destruct (Z.geb_spec (Z.of_nat (length (contenido c ns))) (LRU.capacity c)); [lia|].
  exists c'. split; [done|]. split.
  - by rewrite (keys_refines c' ns' Hinv'), Hc, map_app.
  - rewrite (size_contenido c' ns' Hinv'), (size_contenido c ns Hinv), Hc.
    rewrite length_app. simpl. lia.
Qed.

Lemma lru_put_new_key_with_room_witness :
  exists c',
    LRU.put (default sin_cache (estado_tras 3 [LRU.Put "a" 1; LRU.Put "b" 2])) "z" 5
    = Some c'
    /\ LRU.keys c' = Some (["a"; "b"] ++ ["z"])
    /\ LRU.size_ c'
       = S (LRU.size_ (default sin_cache (estado_tras 3 [LRU.Put "a" 1; LRU.Put "b" 2]))).
Proof.
  apply (lru_put_new_key_with_room _ ["a"; "b"] "z" 5).
  - apply (run_reachable 3 _ [LRU.Put "a" 1; LRU.Put "b" 2] _ eq_refl).
    vm_compute. reflexivity.
  - vm_compute. reflexivity.
  - by apply not_elem_of_strings_ab.
  - vm_compute. reflexivity.
Defined.

(** ** What the calls leave alone *)

(** [get] changes no stored value: after it every key answers as before. *)
Theorem lru_get_keeps_values (c c' : LRU.LRUCache) (k k' : string) (v : Z) :
  reachable c ->
  LRU.get c k = Some (v, c') ->
  fst <$> LRU.get c' k' = fst <$> LRU.get c k'.
Proof.
  intros Hreach Hget. destruct (reachable_inv c Hreach) as [ns Hinv].
  destruct (get_model c ns k v c' Hinv Hget) as (ns' & Hinv' & _ & Hc & _).
  rewrite (get_value c' ns' k' Hinv'), (get_value c ns k' Hinv), Hc.
  by rewrite get_modelo_get.
Qed.

Lemma lru_get_keeps_values_witness :
  fst <$> LRU.get (default sin_cache (snd <$> LRU.get cache_ab "a")) "b"
  = fst <$> LRU.get cache_ab "b".
Proof.
  apply (lru_get_keeps_values cache_ab _ "a" "b" 1 cache_ab_reachable).
  vm_compute. reflexivity.
Defined.

(** [put(k, v)] changes no value of another key that is still stored. *)
Theorem lru_put_keeps_other_values
    (c c' : LRU.LRUCache) (ks' : list string) (k k' : string) (v : Z) :
  reachable c ->
  LRU.put c k v = Some c' ->
  LRU.keys c' = Some ks' ->
  k' ∈ ks' ->
  k <> k' ->
  fst <$> LRU.get c' k' = fst <$> LRU.get c k'.
Proof.
  intros Hreach Hput Hkeys Hk' Hne. destruct (reachable_inv c Hreach) as [ns Hinv].
  destruct (put_model c ns k v c' Hinv Hput) as (ns' & Hinv' & Hc & _).
  rewrite (keys_refines c' ns' Hinv') in Hkeys. injection Hkeys as <-.
  rewrite (get_value c' ns' k' Hinv'), (get_value c ns k' Hinv).
  rewrite Hc in Hk' |- *.
  rewrite get_modelo_put; [done | by apply inv_NoDup_keys | done | done].
Qed.

Lemma lru_put_keeps_other_values_witness :
  fst <$> LRU.get cache_bz "b" = fst <$> LRU.get cache_ab "b".
Proof.
  apply (lru_put_keeps_other_values cache_ab cache_bz ["b"; "z"] "z" "b" (-1)
           cache_ab_reachable).
  - vm_compute. reflexivity.
  - vm_compute. reflexivity.
  - by left.
  - discriminate.
Defined.

(** ** A run of new keys *)

Lemma tl_drop {A : Type} (i : nat) (l : list A) : List.tl (drop i l) = drop (S i) l.
Proof.
  revert i. induction l as [|x l IH]; intros i; [by destruct i|].
  destruct i as [|i]; simpl; [by rewrite drop_0|]. apply IH.
Qed.

Lemma get_None_drop {V : Type} (k : string) (i : nat) (l : JsMap V) :
  k ∉ JsMap.keys l -> JsMap.get k (drop i l) = None.
Proof.
  intros Hk. apply get_None_keys. intros Hin. apply Hk.
  unfold JsMap.keys in *. apply list_elem_of_fmap in Hin as (e & -> & He).
  apply list_elem_of_fmap. exists e. split; [done|].
  rewrite <- (take_drop i l). apply elem_of_app. by right.
Qed.

Lemma modelo_run_puts (cap : nat) (kvs : list (string * Z)) :
  0 < cap -> NoDup (List.map fst kvs) ->
  modelo_run (Z.of_nat cap) (puts kvs) = drop (length kvs - cap) kvs.
Proof.
  intros Hcap. induction kvs as [|[k v] kvs IH] using rev_ind; intros Hnd.
  - by rewrite drop_nil.
  - rewrite map_app in Hnd. apply NoDup_app in Hnd as (Hnd & Hdisj & _).
    assert (Hk : k ∉ JsMap.keys kvs).
    { intros Hin. apply (Hdisj k Hin). by left. }
    unfold puts. rewrite map_app. simpl. rewrite modelo_run_snoc.
    fold (puts kvs). rewrite (IH Hnd). unfold modelo_step, modelo_put. simpl.
    rewrite (get_None_drop k _ kvs Hk), length_drop, length_app. simpl.
    destruct (Z.geb_spec (Z.of_nat (length kvs - (length kvs - cap))) (Z.of_nat cap))
      as [Hfull|Hroom].
    + rewrite tl_drop.
      replace (length kvs + 1 - cap) with (S (length kvs - cap)) by lia.
      rewrite drop_app_le by lia. done.
    + replace (length kvs - cap) with 0 by lia.
      replace (length kvs + 1 - cap) with 0 by lia. by rewrite !drop_0.
Qed.

(** Storing pairs with distinct keys into a fresh cache keeps the last
    [capacity] of them, in the order they were stored, each with its
    value. *)
Theorem lru_distinct_puts_keep_last
    (cap : nat) (c0 : LRU.LRUCache) (kvs : list (string * Z)) :
  LRU.constructor (Z.of_nat cap) = Returned c0 ->
  NoDup (List.map fst kvs) ->
  exists c,
    LRU.run (puts kvs) c0 = Some c
    /\ LRU.keys c = Some (drop (length kvs - cap) (List.map fst kvs))
    /\ forall k, fst <$> LRU.get c k
                 = Some (default (-1)%Z (JsMap.get k (drop (length kvs - cap) kvs))).
Proof.
  intros Hnew Hnd.
  destruct (run_refines (Z.of_nat cap) c0 (puts kvs) Hnew)
    as (c & ns & Hrun & Hinv & Hc & _).
  apply constructor_inv in Hnew as (_ & _ & Hpos).
  rewrite modelo_run_puts in Hc by (done || lia).
  exists c. split; [done|]. split.
  - rewrite (keys_refines c ns Hinv), Hc. unfold drop. by rewrite <- skipn_map.
  - intros k. by rewrite (get_value c ns k Hinv), Hc.
Qed.

Lemma lru_distinct_puts_keep_last_witness :
  exists c,
    LRU.run (puts [("k1", 10); ("k2", 20); ("k3", 30)]%Z)
      (default sin_cache (estado_tras 2 [])) = Some c
    /\ LRU.keys c
       = Some (drop (length [("k1", 10); ("k2", 20); ("k3", 30)]%Z - 2)
                 (List.map fst [("k1", 10); ("k2", 20); ("k3", 30)]%Z))
    /\ forall k, fst <$> LRU.get c k
                 = Some (default (-1)%Z
                           (JsMap.get k
                              (drop (length [("k1", 10); ("k2", 20); ("k3", 30)]%Z - 2)
                                 [("k1", 10); ("k2", 20); ("k3", 30)]%Z))).
Proof.
  apply (lru_distinct_puts_keep_last 2 _ [("k1", 10); ("k2", 20); ("k3", 30)]%Z).
  - reflexivity.
  - simpl. repeat (apply NoDup_cons; split;
      [intros Hin; repeat (apply elem_of_cons in Hin as [Hin|Hin]; [discriminate Hin|]);
       by apply elem_of_nil in Hin|]).
    apply NoDup_nil_2.
Defined.

(* ================================================================= *)
(** * Part V: further properties of the detector *)

(** ** The order of the findings *)

Lemma has_keys {V : Type} (k : string) (m : JsMap V) :
  JsMap.has k m = true <-> k ∈ JsMap.keys m.
Proof.
  unfold JsMap.has. destruct (JsMap.get k m) as [v|] eqn:Hget.
  - split; [|done]. intros _. destruct (decide (k ∈ JsMap.keys m)) as [|Hn]; [done|].
    apply get_None_keys in Hn. congruence.
  - apply get_None_keys in Hget. split; [done|]. by intros ?.
Qed.

(** The keys of a table are the keys of the records that reach it, by first
    appearance. *)
Lemma keys_tabla {V : Type} (cond : LogRecord -> bool) (clave : LogRecord -> string)
    (init : V) (f : LogRecord -> V -> V) (logs : list LogRecord) :
  JsMap.keys (tabla cond clave init f logs)
  = primeras_apariciones (List.map clave (List.filter cond logs)).
Proof.
  induction logs as [|log logs IH] using rev_ind; [done|].
  rewrite tabla_snoc, List.filter_app. simpl.
  destruct (cond log); simpl; [|by rewrite app_nil_r].
  rewrite map_app. simpl. rewrite primeras_apariciones_snoc, keys_upsert, IH.
  destruct (JsMap.has (clave log) (tabla cond clave init f logs)) eqn:Hhas.
  - apply has_keys in Hhas. rewrite IH, elem_of_primeras_apariciones in Hhas.
    by rewrite decide_True.
  - rewrite decide_False; [done|]. intros Hin.
    assert (JsMap.has (clave log) (tabla cond clave init f logs) = true); [|congruence].
    apply has_keys. by rewrite IH, elem_of_primeras_apariciones.
Qed.

Lemma filter_true {A : Type} (l : list A) : List.filter (fun _ => true) l = l.
Proof. induction l as [|x l IH]; simpl; by f_equal. Qed.

(** Findings keyed like their entries come in the order of the entries. *)
Lemma sublist_flat_map_keys {V F : Type} (g : string * V -> list F) (clave : F -> string)
    (m : JsMap V) :
  (forall e, g e = [] \/ exists x, g e = [x] /\ clave x = fst e) ->
  List.map clave (flat_map g m) `sublist_of` JsMap.keys m.
Proof.
  intros Hg. induction m as [|e m IH]; simpl; [constructor|].
  rewrite map_app. destruct (Hg e) as [->|(x & -> & <-)]; simpl.
  - by apply sublist_cons.
  - by apply sublist_skip.
Qed.

Lemma hallazgo4_shape (config : Config) (e : string * RequestsEntry) :
  hallazgo4 config e = [] \/ exists x, hallazgo4 config e = [x] /\ sospechosa_ip x = fst e.
Proof. unfold hallazgo4. destruct (primera_violacion _ _); eauto. Qed.

Lemma hallazgo5_shape (config : Config) (e : string * FallosEntry) :
  hallazgo5 config e = [] \/ exists x, hallazgo5 config e = [x] /\ ataque_ip x = fst e.
Proof. unfold hallazgo5. destruct (_ >? _)%Z; eauto. Qed.

Lemma hallazgo6_shape (e : string * AccesosEntry) :
  hallazgo6 e = [] \/ exists x, hallazgo6 e = [x] /\ ataque_endpoint x = fst e.
Proof. unfold hallazgo6. destruct (_ <? _); eauto. Qed.

Lemma hallazgo7_shape (e : string * Objeto) :
  hallazgo7 e = [] \/ exists x, hallazgo7 e = [x] /\ anomalia_ip x = fst e.
Proof. unfold hallazgo7. destruct (_ <? _); eauto. Qed.

Lemma hallazgo8_shape (e : string * list Q) :
  hallazgo8 e = [] \/ exists x, hallazgo8 e = [x] /\ anomalia_ip x = fst e.
Proof. unfold hallazgo8. destruct (tiempos_irregulares _); eauto. Qed.

(** The rate findings list their IPs in the order the IPs first appear in
    the batch; the brute-force findings in the order of the first failed
    login of each IP; the mass-access findings in the order of the first
    access to each suspicious endpoint.  No IP or endpoint occurs twice in
    its collection. *)
Theorem findings_follow_first_appearance (logs : list LogRecord) (config : Config) :
  let r := detectarActividadSospechosa logs config in
  let sensible log := includes (suspicious_endpoints config) (endpoint log) in
  (List.map sospechosa_ip (ips_sospechosas r)
     `sublist_of` primeras_apariciones (List.map ip logs)
   /\ NoDup (List.map sospechosa_ip (ips_sospechosas r)))
  /\ (List.map ataque_ip (ataques_fuerza_bruta r)
        `sublist_of`
        primeras_apariciones (List.map ip (List.filter (es_fallo config) logs))
      /\ NoDup (List.map ataque_ip (ataques_fuerza_bruta r)))
  /\ (List.map ataque_endpoint (endpoints_bajo_ataque r)
        `sublist_of`
        primeras_apariciones (List.map endpoint (List.filter sensible logs))
      /\ NoDup (List.map ataque_endpoint (endpoints_bajo_ataque r))).
Proof.
  intros r sensible. unfold r. rewrite reporte_forma. simpl.
  assert (Hsub : forall (l k : list string),
             l `sublist_of` primeras_apariciones k ->
             l `sublist_of` primeras_apariciones k /\ NoDup l).
  { intros l k Hl. split; [done|].
    eapply sublist_NoDup; [apply NoDup_primeras_apariciones | done]. }
  split; [|split]; apply Hsub.
  - rewrite <- (filter_true logs) at 2.
    rewrite <- (keys_tabla (fun _ => true) ip
                  {| req_timestamps := []; req_count := 0 |}
                  (fun log d => {| req_timestamps := req_timestamps d ++ [timestamp log];
                                   req_count := S (req_count d) |})).
    rewrite <- (requestsPorIP_agregar config).
    apply sublist_flat_map_keys, hallazgo4_shape.
  - rewrite <- (keys_tabla (es_fallo config) ip
                  {| fallos_count := 0; fallos_timestamps := [] |}
                  (fun log d => {| fallos_count := S (fallos_count d);
                                   fallos_timestamps :=
                                     fallos_timestamps d ++ [timestamp log] |})).
    rewrite <- fallosLoginPorIP_agregar.
    apply sublist_flat_map_keys, hallazgo5_shape.
  - rewrite <- (keys_tabla sensible endpoint
                  {| accesos_count := 0; accesos_ips := [] |}
                  (fun log d => {| accesos_count := S (accesos_count d);
                                   accesos_ips := accesos_ips d ++ [ip log] |})).
    unfold sensible. rewrite <- accesosEndpointSensible_agregar.
    apply sublist_flat_map_keys, hallazgo6_shape.
Qed.

(** The anomalies are the many-agents findings of all IPs followed by the
    irregular-times findings of all IPs, each group in the order the IPs
    first appear in the batch and with no IP twice. *)
Theorem anomalies_are_grouped_by_kind (logs : list LogRecord) (config : Config) :
  exists agentes tiempos,
    anomalias_detectadas (detectarActividadSospechosa logs config) = agentes ++ tiempos
    /\ (forall a, a ∈ agentes -> es_multiples_user_agents a = true)
    /\ (forall a, a ∈ tiempos -> es_tiempos_irregulares a = true)
    /\ List.map anomalia_ip agentes `sublist_of` primeras_apariciones (List.map ip logs)
    /\ List.map anomalia_ip tiempos `sublist_of` primeras_apariciones (List.map ip logs).
Proof.
  rewrite reporte_forma. simpl. eexists _, _. split; [reflexivity|].
  split; [|split; [|split]].
  - intros a [e [_ Ha]]%list_elem_of_In%in_flat_map. revert Ha. unfold hallazgo7.
    destruct (_ <? _); [|done]. by intros [<-|[]].
  - intros a [e [_ Ha]]%list_elem_of_In%in_flat_map. revert Ha. unfold hallazgo8.
    destruct (tiempos_irregulares _); [|done]. by intros [<-|[]].
  - rewrite <- (filter_true logs) at 2.
    rewrite <- (keys_tabla (fun _ => true) ip []
                  (fun log => contar_agente (user_agent log))).
    rewrite <- (userAgentsPorIP_agregar config).
    apply sublist_flat_map_keys, hallazgo7_shape.
  - rewrite <- (filter_true logs) at 2.
    rewrite <- (keys_tabla (fun _ => true) ip []
                  (fun log l => l ++ [response_time log])).
    rewrite <- (tiemposRespuestaPorIP_agregar config).
    apply sublist_flat_map_keys, hallazgo8_shape.
Qed.

(** ** Brute force: what is counted and which times are reported *)

(** The brute-force findings about an IP, read off the batch.  The failed
    logins of the IP are its records with status 401 or 403 on a suspicious
    endpoint.  When they are more than the limit the report holds one
    finding with their number, their timestamps in arrival order, and the
    first and the last of these as attempt times; otherwise it holds
    none. *)
Theorem brute_force_finding (logs : list LogRecord) (config : Config) (ip0 : string) :
  let fallos := fallos_de config ip0 logs in
  ataques_de ip0 (detectarActividadSospechosa logs config)
  = if negb (Nat.eqb (length fallos) 0)
       && (Z.of_nat (length fallos) >? max_failed_logins config)%Z
    then
      [{| ataque_ip := ip0;
          tipo_ataque := "Fuerza Bruta en Login";
          intentos_fallidos := length fallos;
          ataque_limite_permitido := max_failed_logins config;
          timestamps_intentos := List.map timestamp fallos;
          primera_tentativa := head (List.map timestamp fallos);
          ultima_tentativa := last (List.map timestamp fallos) |}]
    else [].
Proof.
  intros fallos. rewrite ataques_de_forma. fold fallos.
  destruct fallos as [|l0 rel]; [done|].
  cbn [length Nat.eqb negb andb].
  by rewrite primero_head, ultimo_last.
Qed.

Lemma fold_left_min_head (x : Z) (l : list Z) :
  Forall (Z.le x) l -> fold_left Z.min l x = x.
Proof.
  induction 1 as [|y l Hy _ IH]; simpl; [done|].
  by rewrite Z.min_l.
Qed.

Lemma fold_left_max_last (x : Z) (l : list Z) :
  StronglySorted Z.le (x :: l) -> Some (fold_left Z.max l x) = last (x :: l).
Proof.
  revert x. induction l as [|y l IH]; intros x Hs; [done|].
  apply StronglySorted_cons in Hs as [Hall Hs]. simpl.
  rewrite Z.max_r by (by apply Forall_cons in Hall as [? _]).
  by rewrite (IH y Hs).
Qed.

(** When the failed logins of an IP arrive in the order of their
    timestamps, the attempt times of its finding are the earliest and the
    latest failed login. *)
Theorem brute_force_times_when_chronological
    (logs : list LogRecord) (config : Config) (ip0 : string) (f : AtaqueFuerzaBruta) :
  Sorted Z.le (List.map timestamp (fallos_de config ip0 logs)) ->
  f ∈ ataques_de ip0 (detectarActividadSospechosa logs config) ->
  primera_tentativa f = minimo (timestamps_intentos f)
  /\ ultima_tentativa f = maximo (timestamps_intentos f).
Proof.
  intros Hs. rewrite ataques_de_forma.
  destruct (fallos_de config ip0 logs) as [|l0 rel]; [by intros ?%elem_of_nil|].
  cbv zeta. destruct (_ >? _)%Z; [|by intros ?%elem_of_nil].
  intros ->%list_elem_of_singleton. simpl.
  apply Sorted_StronglySorted in Hs; [|apply _]. simpl in Hs. split.
  - unfold primero. simpl. f_equal. symmetry. apply fold_left_min_head.
    by apply StronglySorted_cons in Hs as [? _].
  - rewrite ultimo_last. symmetry. by apply fold_left_max_last.
Qed.

Lemma brute_force_times_when_chronological_witness :
  primera_tentativa
    {| ataque_ip := "10.0.0.2"; tipo_ataque := "Fuerza Bruta en Login";
       intentos_fallidos := 3; ataque_limite_permitido := 2;
       timestamps_intentos := [1000; 2000; 3000]%Z;
       primera_tentativa := Some 1000%Z; ultima_tentativa := Some 3000%Z |}
  = minimo [1000; 2000; 3000]%Z
  /\ ultima_tentativa
       {| ataque_ip := "10.0.0.2"; tipo_ataque := "Fuerza Bruta en Login";
          intentos_fallidos := 3; ataque_limite_permitido := 2;
          timestamps_intentos := [1000; 2000; 3000]%Z;
          primera_tentativa := Some 1000%Z; ultima_tentativa := Some 3000%Z |}
     = maximo [1000; 2000; 3000]%Z.
Proof.
  apply (brute_force_times_when_chronological
           [ registro "10.0.0.2" "/api/login" 1000 401 "Mozilla/5.0" 150;
             registro "10.0.0.2" "/api/login" 2000 401 "Mozilla/5.0" 150;
             registro "10.0.0.2" "/api/login" 3000 403 "Mozilla/5.0" 150 ]
           (politica 60 2 60000) "10.0.0.2").
  - simpl. repeat constructor; lia.
  - vm_compute. by left.
Defined.

(** ** The rate check at the edges of the window length *)

Lemma logs_de_ip_nonempty (ip0 : string) (logs : list LogRecord) :
  ip0 ∈ List.map ip logs -> logs_de_ip ip0 logs <> [].
Proof.
  intros (log & -> & Hin)%list_elem_of_fmap Hnil.
  assert (Hlog : In log (logs_de_ip (ip log) logs)).
  { apply filter_In. split; [by apply list_elem_of_In | apply String.eqb_refl]. }
  by rewrite Hnil in Hlog.
Qed.

Lemma sort_asc_nonempty (l : list Z) : l <> [] -> sort_asc l <> [].
Proof.
  intros Hl Hnil. pose proof (sort_asc_Permutation l) as Hp.
  rewrite Hnil in Hp. by apply Permutation_nil_l in Hp.
Qed.

(** A positive count over a zero divisor is [+Infinity]. *)
Lemma js_div_count_zero (n : nat) : js_div (num (Z.of_nat (S n))) (Finite 0) = PosInfinity.
Proof.
  unfold js_div, num. change (Qeq_bool 0 0) with true. cbv iota.
  replace (inject_Z (Z.of_nat (S n)) ?= 0)%Q with Gt; [done|].
  symmetry. apply Qgt_alt. unfold Qlt. simpl. lia.
Qed.

(** With a window of length zero the rate is a division by zero: every IP
    of the batch is reported, with an infinite rate, whatever the limit. *)
Theorem zero_window_reports_every_ip
    (logs : list LogRecord) (config : Config) (ip0 : string) :
  time_window config = 0%Z ->
  ip0 ∈ List.map ip logs ->
  sospechas_de ip0 (detectarActividadSospechosa logs config)
  = [hallazgo_tasa config ip0 PosInfinity].
Proof.
  intros Hw Hip. rewrite sospechas_de_forma.
  pose proof (logs_de_ip_nonempty ip0 logs Hip) as Hne.
  assert (Hts : List.map timestamp (logs_de_ip ip0 logs) <> []).
  { by destruct (logs_de_ip ip0 logs). }
  apply sort_asc_nonempty in Hts.
  destruct (sort_asc (List.map timestamp (logs_de_ip ip0 logs))) as [|t rest]; [done|].
  cbn [primera_violacion requests_per_minute requests_in_window].
  unfold window_minutes. rewrite Hw.
  change (js_add (num t) (num 0)) with (num t).
  change (js_div (num 0) (num 60000)) with (Finite 0).
  rewrite js_le_refl, js_div_count_zero. done.
Qed.

Lemma zero_window_reports_every_ip_witness :
  sospechas_de "10.0.0.1" (detectarActividadSospechosa lote_unico (politica 1000000 5 0))
  = [hallazgo_tasa (politica 1000000 5 0) "10.0.0.1" PosInfinity].
Proof.
  apply (zero_window_reports_every_ip lote_unico (politica 1000000 5 0) "10.0.0.1").
  - reflexivity.
  - by left.
Defined.

Lemma window_minutes_neg (config : Config) :
  (time_window config < 0)%Z ->
  window_minutes config = NegInfinity
  \/ exists w, window_minutes config = Finite w /\ (w < 0)%Q.
Proof.
  intros H. unfold window_minutes, js_div, num.
  change (Qeq_bool (inject_Z 60000) 0) with false. cbv iota.
  set (q := (inject_Z (time_window config) / inject_Z 60000)%Q).
  assert (Hq : (q < 0)%Q).
  { unfold q. apply Qlt_shift_div_r; [reflexivity|].
    rewrite Qmult_0_l. change 0%Q with (inject_Z 0). by rewrite <- Zlt_Qlt. }
  assert (Hden : (Qden (Qred q) <= 60000)%positive).
  { pose proof (Qden_Qred_le q) as Hle. unfold q in Hle at 2.
    destruct (time_window config); exact Hle. }
  unfold redondear. pose proof (Qred_correct q) as Hred.
  destruct (Qred q) as [[|n|n] d]; simpl in Hden.
  - exfalso. rewrite <- Hred in Hq. unfold Qlt in Hq. simpl in Hq. lia.
  - exfalso. rewrite <- Hred in Hq. unfold Qlt in Hq. simpl in Hq. lia.
  - destruct (redondear_pos n d) as [r|] eqn:E; [|by left].
    right. exists (- r)%Q. split; [done|].
    apply redondear_pos_positive in E.
    + change 0%Q with (- 0)%Q. by apply Qopp_lt_compat.
    + pose proof (Z.log2_nonneg (Zpos n)).
      assert (Z.log2 (Zpos d) <= Z.log2 60000)%Z.
      { apply Z.log2_le_mono. lia. }
      change (Z.log2 60000) with 15%Z in *. lia.
Qed.

Lemma primera_violacion_negative_window (config : Config) (l : list Z) :
  (time_window config < 0)%Z ->
  (0 <= max_requests_per_minute config)%Q ->
  primera_violacion config l = None.
Proof.
  intros Hw Hmax.
  assert (Hrpm : forall n : nat,
             js_gt (js_div (num (Z.of_nat n)) (window_minutes config))
               (Finite (max_requests_per_minute config)) = false).
  { intros n. apply Qlt_bool_false_iff in Hmax.
    destruct (window_minutes_neg config Hw) as [->|(w & -> & Hneg)]; [done|].
    unfold js_div, num. destruct (Qeq_bool w 0) eqn:E.
    - apply Qeq_bool_iff in E. rewrite E in Hneg. by apply Qlt_irrefl in Hneg.
    - destruct (redondear_nonpos (inject_Z (Z.of_nat n) / w)) as [->|(r & -> & Hr)].
      + apply Qdiv_nonneg_neg; [|done].
        change 0%Q with (inject_Z 0). rewrite <- Zle_Qle. lia.
      + done.
      + unfold js_gt, js_lt. apply Qlt_bool_false_iff.
        apply Qlt_bool_false_iff in Hmax. by eapply Qle_trans. }
  induction l as [|t l IH]; [done|].
  cbn [primera_violacion requests_per_minute]. by rewrite Hrpm.
Qed.

(** With a negative window the window length in minutes is negative, no
    computed rate is positive, and under a limit that is not negative
    nothing is reported. *)
Theorem negative_window_reports_nothing (logs : list LogRecord) (config : Config) :
  (time_window config < 0)%Z ->
  (0 <= max_requests_per_minute config)%Q ->
  ips_sospechosas (detectarActividadSospechosa logs config) = [].
Proof.
  intros Hw Hmax. rewrite reporte_forma. simpl.
  induction (requestsPorIP (agregar config logs)) as [|e m IH]; [done|].
  simpl. rewrite IH, app_nil_r. unfold hallazgo4.
  by rewrite primera_violacion_negative_window.
Qed.

Lemma negative_window_reports_nothing_witness :
  ips_sospechosas (detectarActividadSospechosa lote_rafaga (politica 0 5 (-60000))) = [].
Proof.
  apply (negative_window_reports_nothing lote_rafaga (politica 0 5 (-60000))).
  - simpl. lia.
  - vm_compute. discriminate.
Defined.


(** ** Many user agents: what the finding counts *)

Lemma distintos_le_length (l : list string) : distintos l <= length l.
Proof.
  unfold distintos. induction l as [|x l IH]; simpl; [lia|].
  destruct (decide_rel elem_of x l); simpl; lia.
Qed.

(** Every many-agents finding about an IP whose user agents are ordinary
    keys says how many requests the IP made in the batch and how many
    distinct user agents they carried; the latter is more than 5 and at
    most the former. *)
Theorem multiple_agents_finding_counts
    (logs : list LogRecord) (config : Config)
    (ip0 : string) (n : nat) (comun : option string) (total : contador) :
  Forall (fun ua => ordinario ua = true) (List.map user_agent (logs_de_ip ip0 logs)) ->
  MultiplesUserAgents ip0 n comun total
    ∈ anomalias_detectadas (detectarActividadSospechosa logs config) ->
  total = Cuenta (length (logs_de_ip ip0 logs))
  /\ n = distintos (List.map user_agent (logs_de_ip ip0 logs))
  /\ 5 < n <= length (logs_de_ip ip0 logs).
Proof.
  intros Hord Hin.
  assert (Hin' : MultiplesUserAgents ip0 n comun total
                 ∈ multiples_agentes_de ip0 (detectarActividadSospechosa logs config)).
  { apply list_elem_of_In, filter_In. split; [by apply list_elem_of_In|].
    simpl. apply String.eqb_refl. }
  clear Hin. rewrite (multiples_agentes_ordinarios logs config ip0 Hord) in Hin'.
  set (uas := List.map user_agent (logs_de_ip ip0 logs)) in *.
  destruct (Nat.ltb_spec 5 (distintos uas)) as [Hgt|]; [|by apply elem_of_nil in Hin'].
  apply list_elem_of_singleton in Hin'. injection Hin' as -> _ ->.
  pose proof (distintos_le_length uas) as Hle.
  unfold uas in *. rewrite length_map in *. done.
Qed.

Lemma multiple_agents_finding_counts_witness :
  Cuenta 7 = Cuenta (length (logs_de_ip "192.168.1.200" lote_agentes))
  /\ 7 = distintos (List.map user_agent (logs_de_ip "192.168.1.200" lote_agentes))
  /\ 5 < 7 <= length (logs_de_ip "192.168.1.200" lote_agentes).
Proof.
  apply (multiple_agents_finding_counts lote_agentes (politica 60 5 300000)
           "192.168.1.200" 7 (Some "Mozilla/5.0 (Windows)") (Cuenta 7)).
  - simpl. repeat constructor.
  - vm_compute. by left.
Defined.

(** ** Mass access: what a finding says *)

Lemma accesos_masivos_de_forma (config : Config) (logs : list LogRecord) (e : string) :
  accesos_masivos_de e (detectarActividadSospechosa logs config)
  = if includes (suspicious_endpoints config) e
       && (10 <? distintos (List.map ip (logs_de_endpoint e logs)))
    then
      [{| ataque_endpoint := e;
          total_accesos := length (logs_de_endpoint e logs);
          ips_unicas := distintos (List.map ip (logs_de_endpoint e logs));
          descripcion := "Acceso masivo desde múltiples IPs" |}]
    else [].
Proof.
  unfold accesos_masivos_de. rewrite reporte_forma. simpl.
  rewrite (filter_flat_map_get _ _ e).
  - rewrite get_accesosEndpointSensible.
    destruct (includes _ e); simpl; [|done].
    destruct (logs_de_endpoint e logs) as [|l0 rel] eqn:E; [done|].
    unfold hallazgo6, umbral_ips. cbn [fst snd accesos_count accesos_ips].
    by rewrite set_size_distintos.
  - rewrite accesosEndpointSensible_agregar. apply NoDup_keys_tabla.
  - intros e0 x Hx. destruct (hallazgo6_shape e0) as [Hnil|(y & Hy & <-)].
    + rewrite Hnil in Hx. by apply elem_of_nil in Hx.
    + rewrite Hy in Hx. by apply list_elem_of_singleton in Hx as ->.
Qed.

(** Every mass-access finding of the report is about an endpoint of the
    suspicious set, counts more than 10 distinct IPs, and counts at least as
    many accesses as distinct IPs. *)
Theorem mass_scan_finding_bounds
    (logs : list LogRecord) (config : Config) (f : EndpointBajoAtaque) :
  f ∈ endpoints_bajo_ataque (detectarActividadSospechosa logs config) ->
  includes (suspicious_endpoints config) (ataque_endpoint f) = true
  /\ 10 < ips_unicas f <= total_accesos f.
Proof.
  intros Hin.
  assert (Hin' : f ∈ accesos_masivos_de (ataque_endpoint f)
                       (detectarActividadSospechosa logs config)).
  { apply list_elem_of_In, filter_In. split; [by apply list_elem_of_In|].
    apply String.eqb_refl. }
  clear Hin. rewrite accesos_masivos_de_forma in Hin'.
  remember (ataque_endpoint f) as e eqn:He.
  destruct (includes _ e); [|by apply elem_of_nil in Hin'].
  destruct (Nat.ltb_spec 10 (distintos (List.map ip (logs_de_endpoint e logs))))
    as [Hgt|]; [|by apply elem_of_nil in Hin'].
  simpl in Hin'. apply list_elem_of_singleton in Hin'.
  split; [done|]. rewrite Hin'. simpl. split; [done|].
  pose proof (distintos_le_length (List.map ip (logs_de_endpoint e logs))) as Hle.
  by rewrite length_map in Hle.
Qed.

Lemma mass_scan_finding_bounds_witness :
  includes (suspicious_endpoints (politica 100 5 300000)) "/api/login" = true
  /\ 10 < 12 <= 13.
Proof.
  apply (mass_scan_finding_bounds lote_escaneo (politica 100 5 300000)
           {| ataque_endpoint := "/api/login"; total_accesos := 13; ips_unicas := 12;
              descripcion := "Acceso masivo desde múltiples IPs" |}).
  vm_compute. by left.
Defined.

(** ** What does not depend on the arrival order *)





(** ** What every finding guarantees *)




(** Every brute-force finding of the report counts as many failed logins
    as it lists timestamps, more than the limit, and has a first and a last
    attempt time: the dates the source renders are never those of an empty
    list. *)
Theorem brute_force_finding_is_consistent
    (logs : list LogRecord) (config : Config) (f : AtaqueFuerzaBruta) :
  f ∈ ataques_fuerza_bruta (detectarActividadSospechosa logs config) ->
  intentos_fallidos f = length (timestamps_intentos f)
  /\ (Z.of_nat (intentos_fallidos f) > max_failed_logins config)%Z
  /\ ataque_limite_permitido f = max_failed_logins config
  /\ primera_tentativa f = head (timestamps_intentos f)
  /\ ultima_tentativa f = last (timestamps_intentos f)
  /\ is_Some (primera_tentativa f)
  /\ is_Some (ultima_tentativa f).
Proof.
  intros Hin.
  assert (Hin' : f ∈ ataques_de (ataque_ip f) (detectarActividadSospechosa logs config)).
  { apply list_elem_of_In, filter_In. split; [by apply list_elem_of_In|].
    apply String.eqb_refl. }
  clear Hin. rewrite ataques_de_forma in Hin'.
  remember (ataque_ip f) as ip0 eqn:Hip.
  destruct (fallos_de config ip0 logs) as [|l0 rel]; [by apply elem_of_nil in Hin'|].
  cbv zeta in Hin'.
  destruct (Z.gtb_spec (Z.of_nat (length (l0 :: rel))) (max_failed_logins config))
    as [Hgt|]; [|by apply elem_of_nil in Hin'].
  apply list_elem_of_singleton in Hin'. rewrite Hin'.
  cbn [intentos_fallidos timestamps_intentos ataque_limite_permitido
       primera_tentativa ultima_tentativa].
  rewrite primero_head, ultimo_last, length_map.
  split; [done|]. split; [lia|]. split; [done|]. split; [done|]. split; [done|].
  split; [by eexists|].
  rewrite last_lookup. apply lookup_lt_is_Some_2. simpl. lia.
Qed.

Lemma brute_force_finding_is_consistent_witness :
  exists f,
    f ∈ ataques_fuerza_bruta
          (detectarActividadSospechosa lote_fallos_desordenados (politica 60 2 60000))
    /\ intentos_fallidos f = length (timestamps_intentos f)
    /\ (Z.of_nat (intentos_fallidos f) > max_failed_logins (politica 60 2 60000))%Z
    /\ ataque_limite_permitido f = max_failed_logins (politica 60 2 60000)
    /\ primera_tentativa f = head (timestamps_intentos f)
    /\ ultima_tentativa f = last (timestamps_intentos f)
    /\ is_Some (primera_tentativa f)
    /\ is_Some (ultima_tentativa f).
Proof.
  eexists. split; [vm_compute; by left|].
  apply (brute_force_finding_is_consistent lote_fallos_desordenados (politica 60 2 60000)).
  vm_compute. by left.
Defined.

(** ** Findings about an IP depend on its own records only *)




(** ** The error of a call *)

(** A call ends in one of two ways.  It returns the report, and then every
    attempt time of the brute-force findings is a valid date; or it throws
    the [RangeError] of [toISOString], and then the report it was building
    had a brute-force finding with an attempt time that is not a valid
    date. *)
Theorem detect_returns_or_throws_on_a_date (logs : list LogRecord) (config : Config) :
  let r := detectarActividadSospechosa logs config in
  (detect logs config = Returned r
   /\ forall f t, f ∈ ataques_fuerza_bruta r ->
        primera_tentativa f = Some t \/ ultima_tentativa f = Some t ->
        fecha_valida t = true)
  \/ (detect logs config = Thrown "Invalid time value"
      /\ exists f t, f ∈ ataques_fuerza_bruta r
           /\ (primera_tentativa f = Some t \/ ultima_tentativa f = Some t)
           /\ fecha_valida t = false).
Proof.
  intros r. unfold r. rewrite detect_forma.
  destruct (forallb _ _) eqn:E.
  - left. split; [done|]. intros f t Hf Ht.
    rewrite forallb_forall in E. apply list_elem_of_In, E in Hf.
    unfold fechas_rinden, toISOString in Hf.
    destruct Ht as [Ht|Ht]; rewrite Ht in Hf.
    + by destruct (fecha_valida t).
    + destruct (primera_tentativa f) as [t1|]; [destruct (fecha_valida t1)|]; try done.
      by destruct (fecha_valida t).
  - right. split; [done|].
    assert (Hex : exists f, f ∈ ataques_fuerza_bruta (detectarActividadSospechosa logs config)
                            /\ fechas_rinden f = false).
    { revert E. generalize (ataques_fuerza_bruta (detectarActividadSospechosa logs config)).
      induction l as [|f l IH]; [done|]. cbn [forallb].
      destruct (fechas_rinden f) eqn:Ef.
      - intros H. destruct (IH H) as (f' & Hf' & Hr). exists f'. split; [by right | done].
      - intros _. exists f. split; [by left | done]. }
    destruct Hex as (f & Hf & Hr).
    destruct (tentativas_del_lote logs config f Hf) as (l1 & l2 & _ & _ & Hp & Hu).
    unfold fechas_rinden, toISOString in Hr. rewrite Hp, Hu in Hr.
    destruct (fecha_valida (timestamp l1)) eqn:E1.
    + exists f, (timestamp l2). split; [done|]. split; [by right|].
      by destruct (fecha_valida (timestamp l2)).
    + exists f, (timestamp l1). split; [done|]. split; [by left | done].
Qed.

(** A failed login stamped beyond the largest date makes the call throw. *)
Example detect_fecha_invalida :
  detect lote_fecha_invalida (politica 60 2 60000) = Thrown "Invalid time value".
Proof. vm_compute. reflexivity. Qed.

(** ** The user agent [__proto__] *)


